(** * PolyGen C++ support library: wire codec, indexes and row store

    A shallow embedding of [static/cpp/polygen_support.hpp]
    ([BinaryReader], [BinaryWriter], [UniqueIndex], [GroupIndex],
    [DataTable]) together with the properties the specification states
    about them.

    Conventions of the embedding:
    - a fixed-width C++ integer is a [Z]; conversions between widths and
      signedness ([static_cast]) are written out as [wrap] and [swrap];
    - a [float]/[double] is represented by its IEEE-754 bit pattern, so
      that [std::memcpy] between a float and the integer of the same size
      is the identity on the representation;
    - a byte stream is a [list byte]; a [std::string] is a [string];
    - the reader throws the [std::runtime_error] of [check_read], and
      what the allocation of a string, a byte vector or a sequence throws
      when the host refuses it; whether the host grants an allocation is a
      parameter of the reader;
    - objects that are shared through pointers or references (the byte
      vector a [BinaryWriter] flushes into, its private string stream, the
      rows of a [std::deque]) live in explicit stores indexed by
      addresses. *)

From Stdlib Require Import ZArith Lia QArith Ascii String.
From stdpp Require Import gmap strings list fin_maps.
From coqutil Require Import Byte Word.LittleEndianList.

Local Open Scope Z_scope.

(* ====================================================================== *)
(** * Part I: the embedding                                                *)
(* ====================================================================== *)

(** ** Integers and their object representation *)

(** [static_cast] to an unsigned type of [bits] bits. *)
Definition wrap (bits : Z) (z : Z) : Z := z mod 2 ^ bits.

(** [static_cast] to a signed type of [bits] bits (two's complement). *)
Definition swrap (bits : Z) (z : Z) : Z :=
  (z + 2 ^ (bits - 1)) mod 2 ^ bits - 2 ^ (bits - 1).

Definition is_unsigned (bits : Z) (z : Z) : Prop := 0 <= z < 2 ^ bits.
Definition is_signed (bits : Z) (z : Z) : Prop :=
  - 2 ^ (bits - 1) <= z < 2 ^ (bits - 1).

(** An integer type, given by its signedness and its width: [static_cast]
    to it, and its range. *)
Definition cast (signed : bool) (bits : Z) (z : Z) : Z :=
  if signed then swrap bits z else wrap bits z.

Definition in_range (signed : bool) (bits : Z) (z : Z) : Prop :=
  if signed then is_signed bits z else is_unsigned bits z.

(** The byte order of the machine the code runs on.  [stream.write] and
    [stream.read] copy the object representation of the integer, and
    [native_to_le] / [le_to_native] return their argument unchanged, so the
    order of the bytes on the wire is the order of the host. *)
Inductive byte_order : Type := little_endian | big_endian.

(** [reinterpret_cast<const char*>(&value)], [sizeof(value) = size]. *)
Definition object_repr (host : byte_order) (size : nat) (value : Z) : list byte :=
  match host with
  | little_endian => le_split size value
  | big_endian => rev (le_split size value)
  end.

(** The integer whose object representation is [bs]. *)
Definition object_value (host : byte_order) (bs : list byte) : Z :=
  match host with
  | little_endian => le_combine bs
  | big_endian => le_combine (rev bs)
  end.

Definition le_to_native (value : Z) : Z := value.
Definition native_to_le (value : Z) : Z := value.

(** ** Exceptions *)

Inductive exn : Type :=
| runtime_error (what : string)
| bad_alloc
| length_error.

Inductive outcome (A : Type) : Type :=
| Return (a : A)
| Throw (e : exn).
Arguments Return {A} a.
Arguments Throw {A} e.

(** The condition the specification calls [TruncatedInput]. *)
Definition TruncatedInput : exn :=
  runtime_error "Binary read error: unexpected end of stream".

(** ** Allocation *)

(** What a request for storage does: it is granted, or it throws
    [std::bad_alloc] (the memory is not there) or [std::length_error] (the
    request is above [max_size()]). *)
Inductive allocation : Type := Granted | BadAlloc | LengthError.

(** ** Input streams *)

(** A [std::istream] over a byte buffer: the buffer, the get position and
    the [failbit].  ([std::istream::read] sets [eofbit] and [failbit]
    together, and nothing in the library clears or sets flags otherwise.) *)
Record istream : Type := IStream {
  buffer : list byte;
  gpos : nat;
  failbit : bool
}.

Definition remaining (s : istream) : nat := length (drop (gpos s) (buffer s)).

(** [stream.read(dst, n)]: on a stream that is not good nothing is
    extracted; otherwise [n] bytes are extracted, or the bytes that are
    left, in which case the stream fails. *)
Definition istream_read (n : nat) (s : istream) : list byte * istream :=
  if failbit s then ([], s)
  else
    let avail := drop (gpos s) (buffer s) in
    if decide (n ≤ length avail)%nat
    then (take n avail, IStream (buffer s) (gpos s + n) false)
    else (avail, IStream (buffer s) (length (buffer s)) true).

(** ** The reader monad: stream state and exceptions *)

Definition reader (A : Type) : Type := istream → outcome A * istream.

Definition reader_ret {A} (a : A) : reader A := λ s, (Return a, s).

Definition reader_throw {A} (e : exn) : reader A := λ s, (Throw e, s).

Definition reader_bind {A B} (m : reader A) (k : A → reader B) : reader B :=
  λ s, match m s with
       | (Return a, s') => k a s'
       | (Throw e, s') => (Throw e, s')
       end.

Notation "'let*' x := m 'in' k" := (reader_bind m (λ x, k))
  (at level 10, x name, m at level 100, k at level 200,
   format "'[v' 'let*'  x  :=  m  'in' '/' k ']'").
Notation "m1 >>; m2" := (reader_bind m1 (λ _, m2))
  (at level 100, m2 at level 200, right associativity).

(** ** BinaryReader *)

Section BinaryReader.
Variable host : byte_order.

(** [allocate n]: what the host does with the request for the storage of
    [n] elements that a decode makes for a string, a byte vector or a
    sequence.  It depends on the element type and on the memory that is
    left, which the source does not determine. *)
Variable allocate : Z → allocation.

(** [BinaryReader(const std::vector<uint8_t>& data)]: the reader owns a
    string stream over a copy of [data]. *)
Definition reader_of_vector (data : list byte) : istream := IStream data 0 false.

Definition stream_read (n : nat) : reader (list byte) :=
  λ s, let (bs, s') := istream_read n s in (Return bs, s').

Definition check_read : reader unit :=
  λ s, if failbit s then (Throw TruncatedInput, s) else (Return (), s).

Definition read_u8 : reader Z :=
  let* value := stream_read 1 in
  check_read >>;
  reader_ret (object_value host value).

Definition read_u16 : reader Z :=
  let* value := stream_read 2 in
  check_read >>;
  reader_ret (le_to_native (object_value host value)).

Definition read_u32 : reader Z :=
  let* value := stream_read 4 in
  check_read >>;
  reader_ret (le_to_native (object_value host value)).

Definition read_u64 : reader Z :=
  let* value := stream_read 8 in
  check_read >>;
  reader_ret (le_to_native (object_value host value)).

Definition read_i8 : reader Z := let* v := read_u8 in reader_ret (swrap 8 v).
Definition read_i16 : reader Z := let* v := read_u16 in reader_ret (swrap 16 v).
Definition read_i32 : reader Z := let* v := read_u32 in reader_ret (swrap 32 v).
Definition read_i64 : reader Z := let* v := read_u64 in reader_ret (swrap 64 v).

(** The result is the float whose bit pattern is [bits]. *)
Definition read_f32 : reader Z := let* bits := read_u32 in reader_ret bits.
Definition read_f64 : reader Z := let* bits := read_u64 in reader_ret bits.

Definition read_bool : reader bool :=
  let* v := read_u8 in reader_ret (negb (v =? 0)).

(** [std::string value(len, 0)], [std::vector<uint8_t> result(len)] and
    [result.reserve(count)]: the storage for [n] elements is requested
    before any of them is read; for no element none is requested. *)
Definition reserve (n : Z) : reader unit :=
  λ s, if n =? 0 then (Return (), s)
       else match allocate n with
            | Granted => (Return (), s)
            | BadAlloc => (Throw bad_alloc, s)
            | LengthError => (Throw length_error, s)
            end.

Definition read_string : reader string :=
  let* len := read_u32 in
  if len =? 0 then reader_ret EmptyString
  else
    reserve len >>;
    let* value := stream_read (Z.to_nat len) in
    check_read >>;
    reader_ret (String.string_of_list_byte value).

Definition read_optional {T} (read_func : reader T) : reader (option T) :=
  let* has_value := read_u8 in
  if has_value =? 0 then reader_ret None
  else let* v := read_func in reader_ret (Some v).

Definition read_optional_string : reader (option string) :=
  let* has_value := read_u8 in
  if has_value =? 0 then reader_ret None
  else let* v := read_string in reader_ret (Some v).

(** The loop [for (i = 0; i < count; ++i) result.push_back(read_func(self))],
    with [n] the number of iterations that are left. *)
Fixpoint read_items {T} (read_func : reader T) (n : nat) (result : list T)
  : reader (list T) :=
  match n with
  | O => reader_ret result
  | S n' => let* item := read_func in read_items read_func n' (result ++ [item])
  end.

Definition read_vector {T} (read_func : reader T) : reader (list T) :=
  let* count := read_u32 in
  reserve count >>;
  read_items read_func (Z.to_nat count) [].

Definition read_bytes : reader (list byte) :=
  let* len := read_u32 in
  reserve len >>;
  if 0 <? len then
    let* result := stream_read (Z.to_nat len) in
    check_read >>;
    reader_ret result
  else reader_ret [].

(** An enumeration [E] is represented by its discriminant, and the type
    [E] by its underlying type, [signed] and of [bits] bits: [static_cast<E>]
    of an integer is the enumerator whose discriminant is the integer
    converted to the underlying type. *)
Definition read_enum (signed : bool) (bits : Z) : reader Z :=
  let* v := read_i32 in reader_ret (cast signed bits v).

End BinaryReader.

(** ** Memory shared between a writer and its client *)

Abbreviation addr := positive.

(** A [std::ostream] over a byte buffer (a string stream): the contents,
    the put position, which is within the contents, and whether the
    stream has failed ([failbit] or [badbit]).  The buffer grows as the
    writes need it. *)
Record ostream : Type := OStream {
  contents : list byte;
  ppos : nat;
  failed : bool
}.

(** [std::ostringstream(std::ios::binary)]: empty, at position 0, good. *)
Definition ostringstream : ostream := OStream [] 0 false.

(** The contents after [bs] is put at position [pos]: the bytes that were
    there are replaced, and the contents grow where [bs] goes beyond their
    end. *)
Definition overwrite (pos : nat) (bs contents : list byte) : list byte :=
  take pos contents ++ bs ++ drop (pos + length bs) contents.

(** [stream.write(src, n)] on the stream itself: on a stream that has
    failed nothing is written; otherwise the bytes are put at the put
    position, which moves behind them. *)
Definition write_at (bs : list byte) (o : ostream) : ostream :=
  if failed o then o
  else OStream (overwrite (ppos o) bs (contents o)) (ppos o + length bs) false.

(** The byte vectors ([std::vector<uint8_t>]) and the output streams
    ([std::ostream]) that exist, by address. *)
Record Memory : Type := Mem {
  vectors : gmap addr (list byte);
  ostreams : gmap addr ostream
}.

(** [stream.str()] *)
Definition ostream_str (s : addr) (m : Memory) : list byte :=
  match ostreams m !! s with
  | Some o => contents o
  | None => []
  end.

(** [stream.write(src, n)] on the stream at address [s]. *)
Definition ostream_write (s : addr) (bs : list byte) (m : Memory) : Memory :=
  Mem (vectors m) (alter (write_at bs) s (ostreams m)).

(** ** BinaryWriter *)

Record BinaryWriter : Type := Writer {
  vec_ : option addr;
  owned_stream_ : option addr;
  stream_ : addr
}.

Section BinaryWriter.
Variable host : byte_order.

(** [BinaryWriter(std::ostream& stream)] *)
Definition writer_of_stream (stream : addr) : BinaryWriter :=
  Writer None None stream.

(** [BinaryWriter(std::vector<uint8_t>& data)]: keeps the address of
    [data] and allocates a string stream of its own. *)
Definition writer_of_vector (data : addr) (m : Memory) : BinaryWriter * Memory :=
  let s := fresh (dom (ostreams m)) in
  (Writer (Some data) (Some s) s,
   Mem (vectors m) (<[s := ostringstream]> (ostreams m))).

Definition flush (w : BinaryWriter) (m : Memory) : Memory :=
  match vec_ w, owned_stream_ w with
  | Some v, Some s => Mem (<[v := ostream_str s m]> (vectors m)) (ostreams m)
  | _, _ => m
  end.

(** [~BinaryWriter()]: flushes, then the owned stream is released. *)
Definition destroy (w : BinaryWriter) (m : Memory) : Memory :=
  let m' := flush w m in
  match owned_stream_ w with
  | Some s => Mem (vectors m') (delete s (ostreams m'))
  | None => m'
  end.

Definition write_u8 (w : BinaryWriter) (value : Z) (m : Memory) : Memory :=
  ostream_write (stream_ w) (object_repr host 1 value) m.

Definition write_u16 (w : BinaryWriter) (value : Z) (m : Memory) : Memory :=
  let value := native_to_le value in
  ostream_write (stream_ w) (object_repr host 2 value) m.

Definition write_u32 (w : BinaryWriter) (value : Z) (m : Memory) : Memory :=
  let value := native_to_le value in
  ostream_write (stream_ w) (object_repr host 4 value) m.

Definition write_u64 (w : BinaryWriter) (value : Z) (m : Memory) : Memory :=
  let value := native_to_le value in
  ostream_write (stream_ w) (object_repr host 8 value) m.

Definition write_i8 (w : BinaryWriter) (value : Z) : Memory → Memory :=
  write_u8 w (wrap 8 value).
Definition write_i16 (w : BinaryWriter) (value : Z) : Memory → Memory :=
  write_u16 w (wrap 16 value).
Definition write_i32 (w : BinaryWriter) (value : Z) : Memory → Memory :=
  write_u32 w (wrap 32 value).
Definition write_i64 (w : BinaryWriter) (value : Z) : Memory → Memory :=
  write_u64 w (wrap 64 value).

(** [value] is the bit pattern of the float. *)
Definition write_f32 (w : BinaryWriter) (value : Z) : Memory → Memory :=
  let bits := value in write_u32 w bits.
Definition write_f64 (w : BinaryWriter) (value : Z) : Memory → Memory :=
  let bits := value in write_u64 w bits.

Definition write_bool (w : BinaryWriter) (value : bool) : Memory → Memory :=
  write_u8 w (if value then 1 else 0).

Definition write_string (w : BinaryWriter) (value : string) (m : Memory) : Memory :=
  let m := write_u32 w (wrap 32 (Z.of_nat (String.length value))) m in
  if decide (value = EmptyString) then m
  else ostream_write (stream_ w) (String.list_byte_of_string value) m.

Definition write_optional {T} (w : BinaryWriter) (value : option T)
    (write_func : BinaryWriter → T → Memory → Memory) (m : Memory) : Memory :=
  match value with
  | Some v => write_func w v (write_u8 w 1 m)
  | None => write_u8 w 0 m
  end.

Definition write_optional_string (w : BinaryWriter) (value : option string)
    (m : Memory) : Memory :=
  match value with
  | Some v => write_string w v (write_u8 w 1 m)
  | None => write_u8 w 0 m
  end.

Definition write_vector {T} (w : BinaryWriter) (items : list T)
    (write_func : BinaryWriter → T → Memory → Memory) (m : Memory) : Memory :=
  let m := write_u32 w (wrap 32 (Z.of_nat (length items))) m in
  fold_left (λ m item, write_func w item m) items m.

Definition write_bytes (w : BinaryWriter) (value : list byte) (m : Memory) : Memory :=
  let m := write_u32 w (wrap 32 (Z.of_nat (length value))) m in
  if decide (value = []) then m
  else ostream_write (stream_ w) value m.

(** [value] is the discriminant. *)
Definition write_enum (w : BinaryWriter) (value : Z) : Memory → Memory :=
  write_i32 w (cast true 32 value).

End BinaryWriter.

(** ** Serialising into a buffer and reading it back

    The way the library is driven by its clients and its tests:
    [[
      std::vector<uint8_t> buffer;
      { polygen::BinaryWriter writer(buffer);  write(writer); }
      polygen::BinaryReader reader(buffer);    read(reader);
    ]] *)

Definition serialize (write : BinaryWriter → Memory → Memory) : list byte :=
  let buffer := 1%positive in
  let m := Mem {[ buffer := [] ]} ∅ in
  let (writer, m) := writer_of_vector buffer m in
  let m := destroy writer (write writer m) in
  default [] (vectors m !! buffer).

Definition deserialize {T} (read : reader T) (buffer : list byte) : outcome T :=
  (read (reader_of_vector buffer)).1.

(** A sequence of calls to the writer, as a client issues them.  The
    element writers handed to [write_optional] and [write_vector] are
    themselves calls to the writer. *)
#[local] Unset Elimination Schemes.
Inductive write_call : Type :=
| call_u8 (value : Z)
| call_u16 (value : Z)
| call_u32 (value : Z)
| call_u64 (value : Z)
| call_i8 (value : Z)
| call_i16 (value : Z)
| call_i32 (value : Z)
| call_i64 (value : Z)
| call_f32 (value : Z)
| call_f64 (value : Z)
| call_bool (value : bool)
| call_string (value : string)
| call_optional (value : option write_call)
| call_optional_string (value : option string)
| call_vector (items : list write_call)
| call_bytes (value : list byte)
| call_enum (value : Z).
#[local] Set Elimination Schemes.

Fixpoint run_call (host : byte_order) (c : write_call) (w : BinaryWriter)
  : Memory → Memory :=
  match c with
  | call_u8 v => write_u8 host w v
  | call_u16 v => write_u16 host w v
  | call_u32 v => write_u32 host w v
  | call_u64 v => write_u64 host w v
  | call_i8 v => write_i8 host w v
  | call_i16 v => write_i16 host w v
  | call_i32 v => write_i32 host w v
  | call_i64 v => write_i64 host w v
  | call_f32 v => write_f32 host w v
  | call_f64 v => write_f64 host w v
  | call_bool v => write_bool host w v
  | call_string v => write_string host w v
  | call_optional v => write_optional host w v (λ w item, run_call host item w)
  | call_optional_string v => write_optional_string host w v
  | call_vector items => write_vector host w items (λ w item, run_call host item w)
  | call_bytes v => write_bytes host w v
  | call_enum v => write_enum host w v
  end.

(** The calls of a sequence, issued in order on the same writer. *)
Definition run_calls (host : byte_order) (calls : list write_call)
    (w : BinaryWriter) (m : Memory) : Memory :=
  fold_left (λ m c, run_call host c w m) calls m.

(** The encoding of a call: what it alone serialises to. *)
Definition encoding (host : byte_order) (c : write_call) : list byte :=
  serialize (run_call host c).

(** ** Container index types *)

(** A [V*]: null, or the address of a row. *)
Inductive pointer : Type := nullptr | Ptr (a : addr).

(** [UniqueIndex<K, V>]; the specialisation for [std::string] keys has
    the same member functions, word for word. *)
Module UniqueIndex.
Section UniqueIndex.
Context {K : Type} `{Countable K}.

Definition empty : gmap K pointer := ∅.

Definition insert (key : K) (value : pointer) (index_ : gmap K pointer)
  : gmap K pointer :=
  <[key := value]> index_.

Definition get (key : K) (index_ : gmap K pointer) : pointer :=
  match index_ !! key with
  | Some it => it
  | None => nullptr
  end.

Definition contains (key : K) (index_ : gmap K pointer) : bool :=
  bool_decide (is_Some (index_ !! key)).

Definition clear (index_ : gmap K pointer) : gmap K pointer := ∅.

End UniqueIndex.
End UniqueIndex.

(** [GroupIndex<K, V>]; again the [std::string] specialisation is the same
    code. *)
Module GroupIndex.
Section GroupIndex.
Context {K : Type} `{Countable K}.

(** The shared vector returned for absent keys; no member function
    writes to it. *)
Definition empty_ : list pointer := [].

Definition empty : gmap K (list pointer) := ∅.

(** [index_[key].push_back(value)]: [operator[]] creates an empty vector
    for a key that is absent. *)
Definition insert (key : K) (value : pointer) (index_ : gmap K (list pointer))
  : gmap K (list pointer) :=
  <[key := default [] (index_ !! key) ++ [value]]> index_.

Definition get (key : K) (index_ : gmap K (list pointer)) : list pointer :=
  match index_ !! key with
  | Some it => it
  | None => empty_
  end.

Definition contains (key : K) (index_ : gmap K (list pointer)) : bool :=
  bool_decide (is_Some (index_ !! key)).

Definition clear (index_ : gmap K (list pointer)) : gmap K (list pointer) := ∅.

End GroupIndex.
End GroupIndex.

(** ** Row storage *)

(** A [std::deque<T>]: the addresses of its elements in order, and the
    element stored at each address.  [push_back] constructs the new
    element at an address that is not in use and leaves every other
    element where it is; [clear] destroys all elements. *)
Record deque (T : Type) : Type := Deque {
  slots : list addr;
  cells : gmap addr T
}.
Arguments Deque {T} slots cells.
Arguments slots {T} d.
Arguments cells {T} d.

Module DataTable.
Section DataTable.
Context {T : Type}.

Definition empty_table : deque T := Deque [] ∅.

Definition push_back (row : T) (rows_ : deque T) : deque T :=
  let a := fresh (dom (cells rows_)) in
  Deque (slots rows_ ++ [a]) (<[a := row]> (cells rows_)).

(** Both overloads of [add_row] push the row at the back. *)
Definition add_row (row : T) (rows_ : deque T) : deque T := push_back row rows_.

(** [count()] *)
Definition count (rows_ : deque T) : nat := length (slots rows_).

(** [empty()] *)
Definition empty (rows_ : deque T) : bool := bool_decide (slots rows_ = []).

(** [&table[index]]: the address of the row at a position. *)
Definition address (index : nat) (rows_ : deque T) : option addr :=
  slots rows_ !! index.

(** Reading through a pointer to a row. *)
Definition deref (p : addr) (rows_ : deque T) : option T := cells rows_ !! p.

(** [table[index]] *)
Definition at_index (index : nat) (rows_ : deque T) : option T :=
  a ← address index rows_; deref a rows_.

(** The rows from [begin()] to [end()]. *)
Definition rows (rows_ : deque T) : list T :=
  omap (λ a, cells rows_ !! a) (slots rows_).

Definition clear (rows_ : deque T) : deque T := Deque [] ∅.

(** A sequence of [add_row] calls, in order. *)
Definition add_rows (more : list T) (rows_ : deque T) : deque T :=
  fold_left (λ t row, add_row row t) more rows_.

End DataTable.
End DataTable.

(** ** Schema container *)

Module SchemaContainer.
Section Table.
Context {T K : Type} `{Countable K}.

(** Modelled from the spec: the key projections of the columns declared
    [primary_key] or [unique] on the table, one [UniqueIndex] each.  The
    table classes of a schema container are emitted by the generator
    ([schema.hpp]) and are not part of the support library. *)
Variable unique_columns : list (T → K).

(** Modelled from the spec: the key projections of the columns declared
    [foreign_key] or plainly indexed, one [GroupIndex] each. *)
Variable group_columns : list (T → K).

(** Modelled from the spec: a generated table, which is missing from the
    sources; one Row Store and one index per declared annotation. *)
Record table : Type := Table {
  rows_ : deque T;
  unique_ : list (gmap K pointer);
  group_ : list (gmap K (list pointer))
}.

(** Modelled from the spec: the generated constructor, missing from the
    sources; a container is created empty. *)
Definition empty : table :=
  Table DataTable.empty_table
        ((λ _, UniqueIndex.empty) <$> unique_columns)
        ((λ _, GroupIndex.empty) <$> group_columns).

(** Modelled from the spec: the generated [add_row], missing from the
    sources; the row is added to the Row Store and its address is
    registered in every index declared for the table. *)
Definition add_row (row : T) (c : table) : table :=
  let rows' := DataTable.add_row row (rows_ c) in
  let p := match last (slots rows') with Some a => Ptr a | None => nullptr end in
  Table rows'
        (zip_with (λ col index, UniqueIndex.insert (col row) p index)
                  unique_columns (unique_ c))
        (zip_with (λ col index, GroupIndex.insert (col row) p index)
                  group_columns (group_ c)).

(** Modelled from the spec: the generated [count], missing from the sources. *)
Definition count (c : table) : nat := DataTable.count (rows_ c).

(** Modelled from the spec: the generated [clear], missing from the
    sources; the Row Store and the index layer are cleared in lock-step. *)
Definition clear (c : table) : table :=
  Table (DataTable.clear (rows_ c))
        (UniqueIndex.clear <$> unique_ c)
        (GroupIndex.clear <$> group_ c).

(** Modelled from the spec: a generated accessor such as [get_by_id],
    missing from the sources; a thin wrapper around [UniqueIndex.get] of
    the [n]-th unique index. *)
Definition get_by (n : nat) (key : K) (c : table) : pointer :=
  match unique_ c !! n with
  | Some index => UniqueIndex.get key index
  | None => nullptr
  end.

(** Modelled from the spec: a generated accessor over the [n]-th group
    index, missing from the sources. *)
Definition get_group (n : nat) (key : K) (c : table) : list pointer :=
  match group_ c !! n with
  | Some index => GroupIndex.get key index
  | None => []
  end.

(** Modelled from the spec: a populated container, reached from the empty
    one by calls to the generated [add_row]. *)
Definition populate (history : list T) : table :=
  fold_left (λ c row, add_row row c) history empty.

End Table.
End SchemaContainer.

(** ** Pack codec *)

Module Pack.

(** Modelled from the spec: the two failures of [unpack]; the pack
    methods are emitted by the generator and are missing from the sources. *)
Inductive pack_error : Type := PackArityMismatch | PackParseFailure.

Section Pack.
Context {V : Type}.

(** Modelled from the spec: the delimiter character of the type. *)
Variable delimiter : ascii.

(** Modelled from the spec: the parsers of the field types, in declared
    field order; [None] when a part does not parse as the field's type. *)
Variable fields : list (string → option V).

(** Modelled from the spec: splitting on the delimiter; the generated
    code is missing from the sources. *)
Fixpoint split (s : string) : list string :=
  match s with
  | EmptyString => [EmptyString]
  | String c rest =>
      if decide (c = delimiter) then EmptyString :: split rest
      else match split rest with
           | part :: parts => String c part :: parts
           | [] => [String c EmptyString]
           end
  end.

(** Modelled from the spec: each part is parsed positionally into the
    corresponding field; the first part that fails to parse stops the
    parse. *)
Fixpoint parse_parts (fs : list (string → option V)) (parts : list string)
  : option (list V) :=
  match fs, parts with
  | [], _ => Some []
  | f :: fs', part :: parts' =>
      match f part with
      | Some v =>
          match parse_parts fs' parts' with
          | Some vs => Some (v :: vs)
          | None => None
          end
      | None => None
      end
  | _ :: _, [] => None
  end.

(** Modelled from the spec: the generated [unpack], missing from the
    sources; it signals a failure when the number of parts is not the
    number of fields or when a part fails to parse. *)
Definition unpack (s : string) : pack_error + list V :=
  let parts := split s in
  if decide (length parts = length fields) then
    match parse_parts fields parts with
    | Some value => inr value
    | None => inl PackParseFailure
    end
  else inl PackArityMismatch.

(** Modelled from the spec: the parse of [try_unpack], storing each field
    into the output value as it goes; on failure the fields stored so far
    stay changed. *)
Fixpoint try_parse_parts (fs : list (string → option V)) (parts : list string)
    (out : list V) : bool * list V :=
  match fs, parts with
  | [], _ => (true, [])
  | f :: fs', part :: parts' =>
      match f part with
      | Some v =>
          let (ok, rest) := try_parse_parts fs' parts' (tail out) in
          (ok, v :: rest)
      | None => (false, out)
      end
  | _ :: _, [] => (false, out)
  end.

(** Modelled from the spec: the generated [try_unpack], missing from the
    sources; the same parse, with the failure reported as [false]. *)
Definition try_unpack (s : string) (out : list V) : bool * list V :=
  let parts := split s in
  if decide (length parts = length fields) then try_parse_parts fields parts out
  else (false, out).

(** Modelled from the spec: the condition [PackArityMismatch], the part
    count disagrees with the field count. *)
Definition arity_mismatch (s : string) : Prop :=
  length (split s) ≠ length fields.

(** Modelled from the spec: the condition [PackParseFailure], some part
    does not parse as the type of the field at its position. *)
Definition parse_failure (s : string) : Prop :=
  ∃ (i : nat) (f : string → option V) (part : string),
    fields !! i = Some f ∧ split s !! i = Some part ∧ f part = None.

End Pack.

(** Modelled from the spec: the value of a decimal digit. *)
Definition digit (c : ascii) : option Z :=
  let n := Z.of_N (N_of_ascii c) in
  if decide (48 ≤ n ≤ 57) then Some (n - 48) else None.

(** Modelled from the spec: the number written by a string of digits. *)
Fixpoint digits (s : string) (acc : Z) : option Z :=
  match s with
  | EmptyString => Some acc
  | String c rest =>
      match digit c with
      | Some d => digits rest (10 * acc + d)
      | None => None
      end
  end.

(** Modelled from the spec: parsing the text of a floating-point field
    ([-]digits[.digits]); the value is the rational the text denotes
    (rounding to [float] is not modelled). *)
Definition parse_float (s : string) : option Q :=
  let '(negative, body) :=
    match s with
    | String "-"%char rest => (true, rest)
    | _ => (false, s)
    end in
  let sign := if negative then -1 else 1 in
  match split "."%char body with
  | [whole] =>
      if decide (whole = EmptyString) then None
      else match digits whole 0 with
           | Some n => Some (Qred (Qmake (sign * n) 1))
           | None => None
           end
  | [whole; frac] =>
      if decide (whole = EmptyString) then None
      else match digits (whole +:+ frac) 0 with
           | Some n =>
               Some (Qred (Qmake (sign * n)
                                 (Z.to_pos (10 ^ Z.of_nat (String.length frac)))))
           | None => None
           end
  | _ => None
  end.

(** Modelled from the spec: the two-field floating-point type of the
    tests ([Position], fields [x] and [y], delimiter [;]). *)
Definition Position_delimiter : ascii := ";"%char.

(** Modelled from the spec: the field parsers of [Position], two
    floating-point fields. *)
Definition Position_fields : list (string → option Q) := [parse_float; parse_float].

End Pack.

(** ** CSV utilities *)

(** The characters the parsers compare with. *)
Definition dquote : ascii := "034"%char.
Definition newline : ascii := "010"%char.

(** A [std::istream] of text, as [std::getline] sees it: the characters
    that are not extracted yet, and whether the stream is good (neither
    [eofbit] nor [failbit] is set). *)
Record text_stream : Type := TextStream {
  chars : string;
  good : bool
}.

(** The characters up to the first newline, the characters behind it, and
    whether there was a newline. *)
Fixpoint break_line (s : string) : string * string * bool :=
  match s with
  | EmptyString => (EmptyString, EmptyString, false)
  | String c rest =>
      if decide (c = newline) then (EmptyString, rest, true)
      else let '(line, rest', found) := break_line rest in
           (String c line, rest', found)
  end.

(** [std::getline(stream, str)]: whether it succeeded, the new value of
    [str], and the stream.  On a stream that is not good [str] is left as
    it is; otherwise it is erased and filled with the characters up to the
    next newline, which is extracted and dropped; reaching the end of the
    text sets [eofbit], and extracting nothing at all sets [failbit]. *)
Definition getline (stream : text_stream) (str : string)
  : bool * string * text_stream :=
  if good stream then
    match chars stream with
    | EmptyString => (false, EmptyString, TextStream EmptyString false)
    | _ =>
        let '(line, rest, found) := break_line (chars stream) in
        (true, line, TextStream rest found)
    end
  else (false, str, stream).

Module CsvReader.

(** The state of a [CsvReader].  The stream is the client's, held by
    reference; it is taken to be read by the [CsvReader] only. *)
Record t : Type := Build {
  stream_ : text_stream;
  delimiter_ : ascii;
  current_line_ : string;
  headers_ : list string;
  current_values_ : list string;
  header_index_ : gmap string nat
}.

(** The loop of [parse_line], with [line] the characters from position [i]
    on. *)
Fixpoint parse_line_from (delimiter : ascii) (line : string) (current : string)
    (in_quotes : bool) (result : list string) {struct line} : list string :=
  match line with
  | EmptyString => result ++ [current]
  | String c rest =>
      if decide (c = dquote) then
        match rest with
        | String next rest' =>
            if in_quotes && bool_decide (next = dquote)
            then parse_line_from delimiter rest'
                   (current +:+ String dquote EmptyString) in_quotes result
            else parse_line_from delimiter rest current (negb in_quotes) result
        | EmptyString =>
            parse_line_from delimiter rest current (negb in_quotes) result
        end
      else if bool_decide (c = delimiter) && negb in_quotes
      then parse_line_from delimiter rest EmptyString in_quotes
             (result ++ [current])
      else parse_line_from delimiter rest (current +:+ String c EmptyString)
             in_quotes result
  end.

Definition parse_line (delimiter : ascii) (line : string) : list string :=
  parse_line_from delimiter line EmptyString false [].

(** The loop [header_index_[headers_[i]] = i], from position [i] on. *)
Fixpoint index_headers (headers : list string) (i : nat)
    (header_index : gmap string nat) : gmap string nat :=
  match headers with
  | [] => header_index
  | header :: rest => index_headers rest (S i) (<[header := i]> header_index)
  end.

(** [CsvReader(std::istream& stream, char delimiter)] *)
Definition new (stream : text_stream) (delimiter : ascii) : t :=
  let '(ok, line, stream') := getline stream EmptyString in
  if ok then
    let headers := parse_line delimiter line in
    Build stream' delimiter line headers [] (index_headers headers 0 ∅)
  else Build stream' delimiter line [] [] ∅.

Definition next (r : t) : bool * t :=
  let '(ok, line, stream') := getline (stream_ r) (current_line_ r) in
  if ok then
    (true, Build stream' (delimiter_ r) line (headers_ r)
                 (parse_line (delimiter_ r) line) (header_index_ r))
  else
    (false, Build stream' (delimiter_ r) line (headers_ r)
                  (current_values_ r) (header_index_ r)).

(** [get(const std::string& column)] *)
Definition get (column : string) (r : t) : string :=
  match header_index_ r !! column with
  | None => EmptyString
  | Some it =>
      if decide (length (current_values_ r) ≤ it)%nat then EmptyString
      else default EmptyString (current_values_ r !! it)
  end.

(** [get(size_t index)] *)
Definition get_at (index : nat) (r : t) : string :=
  if decide (length (current_values_ r) ≤ index)%nat then EmptyString
  else default EmptyString (current_values_ r !! index).

Definition headers (r : t) : list string := headers_ r.

Definition parse_bool (s : string) : bool :=
  if decide (s = EmptyString) then false
  else bool_decide (s = "true"%string) || bool_decide (s = "1"%string)
       || bool_decide (s = "True"%string) || bool_decide (s = "TRUE"%string).

(** [n] calls of [next], one after the other. *)
Fixpoint nexts (n : nat) (r : t) : t :=
  match n with
  | O => r
  | S n' => nexts n' (next r).2
  end.

End CsvReader.

(** ** JSON utilities *)

Definition backslash : ascii := "092"%char.

(** [std::isspace] and [std::isdigit] in the "C" locale.  The functions
    are defined on the values of [unsigned char], and a [char] above 127
    may be negative: the properties of the parser below apply them to the
    characters 0 to 127 only. *)
Definition isspace (c : ascii) : bool :=
  let n := nat_of_ascii c in
  (n =? 32)%nat || ((9 <=? n)%nat && (n <=? 13)%nat).

Definition isdigit (c : ascii) : bool :=
  let n := nat_of_ascii c in (48 <=? n)%nat && (n <=? 57)%nat.

(** [s.substr(n)]: [s] without its first [n] characters. *)
Fixpoint drop_chars (n : nat) (s : string) : string :=
  match n, s with
  | S n', String _ rest => drop_chars n' rest
  | _, _ => s
  end.

(** The outcome of a parse that is given [fuel] steps: a result, an
    exception of [std::stod], or no result within the steps given. *)
Inductive parse_result (A : Type) : Type :=
| Parsed (a : A)
| StodThrows
| OutOfFuel.
Arguments Parsed {A} a.
Arguments StodThrows {A}.
Arguments OutOfFuel {A}.

Module Json.

(** [JsonValue::Type] *)
Inductive Type_ : Type := Null | Bool | Number | String_ | Array | Object.

Section Json.

(** The type [double], its value [0.0], and [std::stod], with [None] where
    it throws ([std::invalid_argument], [std::out_of_range]). *)
Variable double : Type.
Variable zero : double.
Variable stod : string → option double.

(** A [JsonValue] holds all six members at once; [type_] tells which one
    is meant. *)
#[local] Unset Elimination Schemes.
Inductive JsonValue : Type :=
  Build (type_ : Type_) (bool_val_ : bool) (num_val_ : double)
        (str_val_ : string) (arr_val_ : list JsonValue)
        (obj_val_ : gmap string JsonValue).
#[local] Set Elimination Schemes.

Definition type (v : JsonValue) : Type_ := let 'Build t _ _ _ _ _ := v in t.
Definition as_bool (v : JsonValue) : bool := let 'Build _ b _ _ _ _ := v in b.
Definition as_number (v : JsonValue) : double := let 'Build _ _ n _ _ _ := v in n.
Definition as_string (v : JsonValue) : string := let 'Build _ _ _ s _ _ := v in s.
Definition as_array (v : JsonValue) : list JsonValue :=
  let 'Build _ _ _ _ a _ := v in a.
Definition as_object (v : JsonValue) : gmap string JsonValue :=
  let 'Build _ _ _ _ _ o := v in o.

(** The constructors [JsonValue()], [JsonValue(bool)], [JsonValue(double)],
    [JsonValue(const std::string&)], [JsonValue(const JsonArray&)] and
    [JsonValue(const JsonObject&)]. *)
Definition null : JsonValue := Build Null false zero EmptyString [] ∅.
Definition of_bool (b : bool) : JsonValue := Build Bool b zero EmptyString [] ∅.
Definition of_double (n : double) : JsonValue :=
  Build Number false n EmptyString [] ∅.
Definition of_string (s : string) : JsonValue := Build String_ false zero s [] ∅.
Definition of_array (arr : list JsonValue) : JsonValue :=
  Build Array false zero EmptyString arr ∅.
Definition of_object (obj : gmap string JsonValue) : JsonValue :=
  Build Object false zero EmptyString [] obj.

(** [operator[](key) const] *)
Definition at_key (key : string) (v : JsonValue) : JsonValue :=
  match as_object v !! key with
  | Some it => it
  | None => null
  end.

Definition has (key : string) (v : JsonValue) : bool :=
  bool_decide (is_Some (as_object v !! key)).

(** The parser works on the text [json] and a position [pos]; a function
    of the parser is given the characters of [json] from [pos] on, and
    returns the characters from the new position on. *)

Fixpoint skip_whitespace (json : string) : string :=
  match json with
  | String c rest => if isspace c then skip_whitespace rest else json
  | EmptyString => EmptyString
  end.

(** The [switch] of [parse_string] on the character behind a backslash. *)
Definition unescape (c : ascii) : ascii :=
  if decide (c = dquote) then dquote
  else if decide (c = backslash) then backslash
  else if decide (c = "n"%char) then "010"%char
  else if decide (c = "r"%char) then "013"%char
  else if decide (c = "t"%char) then "009"%char
  else c.

(** The [while] loop of [parse_string] and the step over the closing
    quote. *)
Fixpoint parse_string_loop (json : string) (result : string) : string * string :=
  match json with
  | EmptyString => (result, EmptyString)
  | String c rest =>
      if decide (c = dquote) then (result, rest)
      else if decide (c = backslash) then
        match rest with
        | String e rest' =>
            parse_string_loop rest' (result +:+ String (unescape e) EmptyString)
        | EmptyString =>
            parse_string_loop rest (result +:+ String c EmptyString)
        end
      else parse_string_loop rest (result +:+ String c EmptyString)
  end.

(** [++pos] steps over the opening quote without looking at it. *)
Definition parse_string (json : string) : JsonValue * string :=
  let '(result, rest) := parse_string_loop (drop_chars 1 json) EmptyString in
  (of_string result, rest).

Definition is_number_char (c : ascii) : bool :=
  isdigit c || bool_decide (c = "."%char) || bool_decide (c = "e"%char)
  || bool_decide (c = "E"%char) || bool_decide (c = "+"%char)
  || bool_decide (c = "-"%char).

(** The [while] loop of [parse_number]: the characters it steps over, and
    the rest. *)
Fixpoint number_span (json : string) : string * string :=
  match json with
  | String c rest =>
      if is_number_char c then
        let '(digits, rest') := number_span rest in (String c digits, rest')
      else (EmptyString, json)
  | EmptyString => (EmptyString, EmptyString)
  end.

Definition parse_number (json : string) : parse_result (JsonValue * string) :=
  let '(sign, body) :=
    match json with
    | String c rest =>
        if decide (c = "-"%char) then (String c EmptyString, rest)
        else (EmptyString, json)
    | EmptyString => (EmptyString, json)
    end in
  let '(digits, rest) := number_span body in
  match stod (sign +:+ digits) with
  | Some n => Parsed (of_double n, rest)
  | None => StodThrows
  end.

Definition parse_bool (json : string) : JsonValue * string :=
  if String.prefix "true" json then (of_bool true, drop_chars 4 json)
  else if String.prefix "false" json then (of_bool false, drop_chars 5 json)
  else (null, json).

Definition parse_null (json : string) : JsonValue * string :=
  if String.prefix "null" json then (null, drop_chars 4 json)
  else (null, json).

(** [parse_value], [parse_array] and [parse_object], and the [while]
    loops of the latter two; each call and each iteration takes one step
    of [fuel]. *)
Fixpoint parse_value (fuel : nat) (json : string) {struct fuel}
  : parse_result (JsonValue * string) :=
  match fuel with
  | O => OutOfFuel
  | S fuel' =>
      match skip_whitespace json with
      | EmptyString => Parsed (null, EmptyString)
      | String c _ as json =>
          if decide (c = dquote) then Parsed (parse_string json)
          else if decide (c = "{"%char) then parse_object fuel' json
          else if decide (c = "["%char) then parse_array fuel' json
          else if bool_decide (c = "t"%char) || bool_decide (c = "f"%char)
          then Parsed (parse_bool json)
          else if decide (c = "n"%char) then Parsed (parse_null json)
          else if bool_decide (c = "-"%char) || isdigit c
          then parse_number json
          else Parsed (null, json)
      end
  end
with parse_array (fuel : nat) (json : string) {struct fuel}
  : parse_result (JsonValue * string) :=
  match fuel with
  | O => OutOfFuel
  | S fuel' =>
      let arr := [] in
      match skip_whitespace (drop_chars 1 json) with
      | String c rest as json =>
          if decide (c = "]"%char) then Parsed (of_array arr, rest)
          else parse_array_loop fuel' json arr
      | EmptyString => parse_array_loop fuel' EmptyString arr
      end
  end
with parse_array_loop (fuel : nat) (json : string) (arr : list JsonValue)
    {struct fuel} : parse_result (JsonValue * string) :=
  match fuel with
  | O => OutOfFuel
  | S fuel' =>
      match json with
      | EmptyString => Parsed (of_array arr, EmptyString)
      | _ =>
          match parse_value fuel' json with
          | Parsed (v, json) =>
              let arr := arr ++ [v] in
              match skip_whitespace json with
              | String c rest as json =>
                  if decide (c = ","%char) then parse_array_loop fuel' rest arr
                  else if decide (c = "]"%char) then Parsed (of_array arr, rest)
                  else parse_array_loop fuel' json arr
              | EmptyString => parse_array_loop fuel' EmptyString arr
              end
          | StodThrows => StodThrows
          | OutOfFuel => OutOfFuel
          end
      end
  end
with parse_object (fuel : nat) (json : string) {struct fuel}
  : parse_result (JsonValue * string) :=
  match fuel with
  | O => OutOfFuel
  | S fuel' =>
      let obj := ∅ in
      match skip_whitespace (drop_chars 1 json) with
      | String c rest as json =>
          if decide (c = "}"%char) then Parsed (of_object obj, rest)
          else parse_object_loop fuel' json obj
      | EmptyString => parse_object_loop fuel' EmptyString obj
      end
  end
with parse_object_loop (fuel : nat) (json : string)
    (obj : gmap string JsonValue) {struct fuel}
  : parse_result (JsonValue * string) :=
  match fuel with
  | O => OutOfFuel
  | S fuel' =>
      match json with
      | EmptyString => Parsed (of_object obj, EmptyString)
      | _ =>
          let '(key, json) := parse_string (skip_whitespace json) in
          let json :=
            match skip_whitespace json with
            | String c rest as json => if decide (c = ":"%char) then rest else json
            | EmptyString => EmptyString
            end in
          match parse_value fuel' json with
          | Parsed (v, json) =>
              let obj := <[as_string key := v]> obj in
              match skip_whitespace json with
              | String c rest as json =>
                  if decide (c = ","%char) then parse_object_loop fuel' rest obj
                  else if decide (c = "}"%char) then Parsed (of_object obj, rest)
                  else parse_object_loop fuel' json obj
              | EmptyString => parse_object_loop fuel' EmptyString obj
              end
          | StodThrows => StodThrows
          | OutOfFuel => OutOfFuel
          end
      end
  end.

(** [JsonParser::parse] *)
Definition parse (fuel : nat) (json : string) : parse_result JsonValue :=
  match parse_value fuel json with
  | Parsed (v, _) => Parsed v
  | StodThrows => StodThrows
  | OutOfFuel => OutOfFuel
  end.

End Json.
End Json.

(** ** Vocabulary of the statements *)

(** A host that grants the requests for at most [limit] elements and has
    no memory for more. *)
Definition within (limit : Z) : Z → allocation :=
  λ n, if n <=? limit then Granted else BadAlloc.

(** [read] decodes [bs] to [v]: wherever [bs] sits in a good stream,
    [read] returns [v] and leaves the stream just behind [bs]. *)
Definition decodes {T} (read : reader T) (bs : list byte) (v : T) : Prop :=
  ∀ pre post,
    read (IStream (pre ++ bs ++ post) (length pre) false)
    = (Return v, IStream (pre ++ bs ++ post) (length pre + length bs) false).

(** The stream is good and its put position is at the end of its
    contents, as in a stream that has only been written to. *)
Definition appending (o : ostream) : Prop :=
  failed o = false ∧ ppos o = length (contents o).

(** [write] emits [bs]: all it does is write [bs] to the writer's stream. *)
Definition emits (write : BinaryWriter → Memory → Memory) (bs : list byte) : Prop :=
  ∀ w m, write w m = ostream_write (stream_ w) bs m.

(** The host grants the storage for [n] elements: none is needed, or the
    request is granted. *)
Definition grants (allocate : Z → allocation) (n : Z) : Prop :=
  n = 0 ∨ allocate n = Granted.

(** The exceptions of a refused allocation. *)
Definition allocation_failure (e : exn) : Prop :=
  e = bad_alloc ∨ e = length_error.

(** A decode fails with [TruncatedInput]. *)
Definition fails {T} (read : reader T) (s : istream) : Prop :=
  ∃ s', read s = (Throw TruncatedInput, s').

(** [TruncatedInput] is the only exception [read] lets out. *)
Definition only_truncated {T} (read : reader T) : Prop :=
  ∀ s e s', read s = (Throw e, s') → e = TruncatedInput.

(** [read] lets out no exception but [TruncatedInput] and those of a
    refused allocation. *)
Definition truncated_or_refused {T} (read : reader T) : Prop :=
  ∀ s e s', read s = (Throw e, s') → e = TruncatedInput ∨ allocation_failure e.

(** Writing [v] and reading it back gives [v]. *)
Definition roundtrips {T} (write : BinaryWriter → T → Memory → Memory)
    (read : reader T) (v : T) : Prop :=
  deserialize read (serialize (λ w, write w v)) = Return v.

(** The encoding of [v] under an element writer: what writing [v] alone
    serialises to. *)
Definition encoding_of {T} (write_func : BinaryWriter → T → Memory → Memory)
    (v : T) : list byte :=
  serialize (λ w, write_func w v).

(** Every element address of a deque holds an element. *)
Definition allocated {T} (rows_ : deque T) : Prop :=
  Forall (λ a, is_Some (cells rows_ !! a)) (slots rows_).

(** [read] returns normally exactly on a good stream with at least [n]
    bytes left; it then consumes exactly [n] bytes and returns a value that
    satisfies [P]. *)
Definition reads_exactly {T} (read : reader T) (n : nat) (P : T → Prop) : Prop :=
  ∀ s,
    ((∃ v s', read s = (Return v, s')) ↔
     failbit s = false ∧ (n ≤ remaining s)%nat) ∧
    (∀ v s', read s = (Return v, s') →
       s' = IStream (buffer s) (gpos s + n) false ∧ P v).

(** What [read] does to the stream: the buffer is never changed, the get
    position never moves backwards nor beyond the end, a failed stream is
    left as it is; [TruncatedInput] leaves the stream failed, while a
    decode that returns, or that throws for a refused allocation, leaves
    a good stream good. *)
Definition keeps_stream {T} (read : reader T) : Prop :=
  ∀ s o s', read s = (o, s') →
    buffer s' = buffer s ∧
    ((gpos s ≤ length (buffer s))%nat →
     (gpos s ≤ gpos s' ≤ length (buffer s))%nat) ∧
    (failbit s = true → s' = s) ∧
    (o = Throw TruncatedInput → failbit s' = true) ∧
    (∀ v, o = Return v → failbit s' = failbit s) ∧
    (∀ e, o = Throw e → allocation_failure e → failbit s' = failbit s).

(** On a failed stream [read] throws [TruncatedInput] and changes nothing. *)
Definition refuses {T} (read : reader T) : Prop :=
  ∀ s, failbit s = true → read s = (Throw TruncatedInput, s).

(** [c] does not occur in [s]. *)
Fixpoint free_of (c : ascii) (s : string) : Prop :=
  match s with
  | EmptyString => True
  | String c' rest => c' ≠ c ∧ free_of c rest
  end.

(** The number of occurrences of [c] in [s]. *)
Fixpoint count_char (c : ascii) (s : string) : nat :=
  match s with
  | EmptyString => O
  | String c' rest => if decide (c' = c) then S (count_char c rest)
                      else count_char c rest
  end.

(** A field as CSV writes it when it quotes it: between double quotes,
    with each double quote of the field doubled. *)
Fixpoint csv_escape (field : string) : string :=
  match field with
  | EmptyString => EmptyString
  | String c rest =>
      if decide (c = dquote) then String dquote (String dquote (csv_escape rest))
      else String c (csv_escape rest)
  end.

Definition csv_quoted (field : string) : string :=
  String dquote (csv_escape field +:+ String dquote EmptyString).

(** The text made of [lines], each ended by a newline. *)
Definition text_of_lines (lines : list string) : string :=
  fold_right (λ line text, line +:+ String newline text) EmptyString lines.

(** A string as JSON writes it at the least: a backslash before each
    double quote and each backslash. *)
Fixpoint json_escape (s : string) : string :=
  match s with
  | EmptyString => EmptyString
  | String c rest =>
      if bool_decide (c = dquote) || bool_decide (c = backslash)
      then String backslash (String c (json_escape rest))
      else String c (json_escape rest)
  end.

Definition json_quoted (s : string) : string :=
  String dquote (json_escape s +:+ String dquote EmptyString).

(** All characters of [s] are white space. *)
Fixpoint all_space (s : string) : Prop :=
  match s with
  | EmptyString => True
  | String c rest => isspace c = true ∧ all_space rest
  end.

(** [json] starts with a character of 0 to 127 at which [parse_value]
    returns a null value without moving on, and which neither separates
    nor ends the elements of an array. *)
Definition starts_no_value (json : string) : bool :=
  match json with
  | EmptyString => false
  | String c _ =>
      negb (isspace c) && negb (isdigit c)
      && negb (bool_decide (c ∈ [dquote; "{"; "["; "-"; ","; "]"]%char))
      && (if bool_decide (c = "t"%char) || bool_decide (c = "f"%char)
          then negb (String.prefix "true" json)
               && negb (String.prefix "false" json)
          else true)
      && (if bool_decide (c = "n"%char) then negb (String.prefix "null" json)
          else true)
      && (nat_of_ascii c <? 128)%nat
  end.

(** A JSON document; a number is given by its text. *)
#[local] Unset Elimination Schemes.
Inductive json_doc : Type :=
| DNull
| DBool (b : bool)
| DNumber (text : string)
| DString (s : string)
| DArray (items : list json_doc)
| DObject (members : list (string * json_doc)).
#[local] Set Elimination Schemes.

(** The text of a document, with the white space [ws] at every place
    where JSON allows white space inside a document. *)
Fixpoint json_text (ws : string) (d : json_doc) : string :=
  match d with
  | DNull => "null"
  | DBool b => if b then "true" else "false"
  | DNumber text => text
  | DString s => json_quoted s
  | DArray items =>
      String "[" (ws +:+ String.concat (String "," ws)
                           (map (λ d, json_text ws d +:+ ws) items)
                  +:+ "]")
  | DObject members =>
      String "{" (ws +:+ String.concat (String "," ws)
                           (map (λ m, json_quoted m.1 +:+ ws
                                      +:+ String ":" (ws +:+ json_text ws m.2 +:+ ws))
                                members)
                  +:+ "}")
  end.

Fixpoint all_chars (p : ascii → bool) (s : string) : bool :=
  match s with
  | EmptyString => true
  | String c rest => p c && all_chars p rest
  end.

(** A text at which [parse_value] calls [parse_number] and that
    [parse_number] takes as a whole. *)
Definition number_text (text : string) : bool :=
  match text with
  | String c _ =>
      (bool_decide (c = "-"%char) || isdigit c)
      && all_chars Json.is_number_char text
  | EmptyString => false
  end.

(** Every number of the document is a [number_text] that [stod] reads. *)
Fixpoint json_wf {double} (stod : string → option double) (d : json_doc) : bool :=
  match d with
  | DNumber text => number_text text && bool_decide (is_Some (stod text))
  | DArray items => forallb (json_wf stod) items
  | DObject members => forallb (λ m, json_wf stod m.2) members
  | _ => true
  end.

(** [tail] is empty or starts with a character of 0 to 127 that
    [parse_number] does not take. *)
Definition ends_number (tail : string) : bool :=
  match tail with
  | String c _ => negb (Json.is_number_char c) && (nat_of_ascii c <? 128)%nat
  | EmptyString => true
  end.

(** What may follow the text of [d]: anything behind a document that is
    not a number; behind a number, which [parse_number] takes as far as
    its characters go, what [ends_number] says. *)
Definition may_follow (d : json_doc) (tail : string) : bool :=
  match d with
  | DNumber _ => ends_number tail
  | _ => true
  end.

(** The [JsonValue] of a document; the members of an object are entered in
    their order. *)
Fixpoint json_value {double} (zero : double) (stod : string → option double)
    (d : json_doc) : Json.JsonValue double :=
  match d with
  | DNull => Json.null double zero
  | DBool b => Json.of_bool double zero b
  | DNumber text =>
      match stod text with
      | Some n => Json.of_double double n
      | None => Json.null double zero
      end
  | DString s => Json.of_string double zero s
  | DArray items => Json.of_array double zero (map (json_value zero stod) items)
  | DObject members =>
      Json.of_object double zero
        (fold_left (λ obj m, <[m.1 := json_value zero stod m.2]> obj) members ∅)
  end.

(** Steps that are enough for [parse_value] on the text of a document. *)
Fixpoint json_fuel (d : json_doc) : nat :=
  match d with
  | DArray items => 2 + list_sum (map (λ d, S (json_fuel d)) items)
  | DObject members => 2 + list_sum (map (λ m, S (json_fuel m.2)) members)
  | _ => 1
  end.

(** [parse_value] reads the text of [d]: behind any white space and with
    steps enough, it returns the value of [d] and stops behind the text. *)
Definition value_parses {double} (zero : double) (stod : string → option double)
    (ws : string) (d : json_doc) : Prop :=
  ∀ fuel ws' tail,
    all_space ws' → may_follow d tail = true → (json_fuel d ≤ fuel)%nat →
    Json.parse_value double zero stod fuel (ws' +:+ json_text ws d +:+ tail)
    = Parsed (json_value zero stod d, tail).

(* ====================================================================== *)
(** * Part II: properties                                                  *)
(* ====================================================================== *)

(** ** Object representations *)

Lemma length_object_repr host n z : length (object_repr host n z) = n.
Proof.
  destruct host; simpl.
  - apply length_le_split.
  - rewrite length_rev. apply length_le_split.
Qed.

Lemma object_value_repr host n z :
  object_value host (object_repr host n z) = z mod 2 ^ (Z.of_nat n * 8).
Proof.
  destruct host; simpl.
  - apply le_combine_split.
  - rewrite rev_involutive. apply le_combine_split.
Qed.

Lemma swrap_wrap bits z :
  0 < bits → is_signed bits z → swrap bits (wrap bits z) = z.
Proof.
  unfold swrap, wrap, is_signed. intros Hb Hz.
  assert (Hp : 2 ^ bits = 2 * 2 ^ (bits - 1)).
  { rewrite <- Z.pow_succ_r by lia. f_equal. lia. }
  assert (0 < 2 ^ (bits - 1)) by (apply Z.pow_pos_nonneg; lia).
  rewrite Zplus_mod_idemp_l.
  rewrite Z.mod_small by lia. lia.
Qed.

Lemma wrap_small bits z : is_unsigned bits z → wrap bits z = z.
Proof. unfold wrap, is_unsigned. intros. by rewrite Z.mod_small. Qed.

(** ** Strings as byte sequences *)

Lemma length_list_byte_of_string s :
  length (String.list_byte_of_string s) = String.length s.
Proof.
  unfold String.list_byte_of_string. rewrite length_map.
  induction s as [|c s IH]; simpl; [done | by rewrite IH].
Qed.

Lemma list_byte_of_string_nil s :
  String.list_byte_of_string s = [] ↔ s = EmptyString.
Proof.
  unfold String.list_byte_of_string.
  destruct s; simpl; split; intros; congruence.
Qed.

(** ** Reading from a stream *)

Lemma istream_read_exact pre bs post :
  istream_read (length bs) (IStream (pre ++ bs ++ post) (length pre) false)
  = (bs, IStream (pre ++ bs ++ post) (length pre + length bs) false).
Proof.
  unfold istream_read; simpl.
  rewrite drop_app_length.
  rewrite decide_True by (rewrite length_app; lia).
  by rewrite take_app_length.
Qed.

Lemma istream_read_short n s :
  (remaining s < n)%nat → failbit (istream_read n s).2 = true.
Proof.
  unfold istream_read, remaining. intros Hlt.
  destruct (failbit s) eqn:Hf; simpl; [done |].
  by rewrite decide_False by lia.
Qed.

Lemma istream_read_enough n s :
  failbit s = false → (n ≤ remaining s)%nat →
  ∃ bs, length bs = n ∧
        istream_read n s = (bs, IStream (buffer s) (gpos s + n) false).
Proof.
  unfold istream_read, remaining. intros -> Hle.
  rewrite decide_True by done.
  eexists; split; [| done]. rewrite length_take. lia.
Qed.

(** ** The algebra of [decodes] *)

Lemma decodes_ret {T} (v : T) : decodes (reader_ret v) [] v.
Proof. intros pre post. unfold reader_ret. simpl. by rewrite Nat.add_0_r. Qed.

Lemma decodes_bind {A B} (r : reader A) (k : A → reader B) b1 b2 a v :
  decodes r b1 a → decodes (k a) b2 v → decodes (reader_bind r k) (b1 ++ b2) v.
Proof.
  intros H1 H2 pre post. unfold reader_bind.
  rewrite <- (app_assoc b1 b2 post), H1.
  specialize (H2 (pre ++ b1) post).
  rewrite length_app, <- !app_assoc in H2. rewrite H2.
  by rewrite length_app, Nat.add_assoc.
Qed.

Lemma decodes_raw {T} (f : list byte → T) bs :
  decodes (let* value := stream_read (length bs) in
           check_read >>; reader_ret (f value)) bs (f bs).
Proof.
  intros pre post. unfold reader_bind, stream_read.
  by rewrite istream_read_exact.
Qed.

Lemma decodes_deserialize {T} (r : reader T) bs v :
  decodes r bs v → deserialize r bs = Return v.
Proof.
  intros Hd. unfold deserialize, reader_of_vector.
  specialize (Hd [] []). simpl in Hd. rewrite app_nil_r in Hd. by rewrite Hd.
Qed.

Lemma decodes_map {A B} (r : reader A) (f : A → B) bs a :
  decodes r bs a → decodes (let* x := r in reader_ret (f x)) bs (f a).
Proof.
  intros Hr. rewrite <- (app_nil_r bs).
  eapply decodes_bind; [exact Hr | apply decodes_ret].
Qed.

(** ** Decoding what the writer lays out *)

Lemma reserve_granted allocate n :
  grants allocate n → reserve allocate n = reader_ret ().
Proof.
  unfold reserve, reader_ret. intros [-> | ->]; [done |].
  by destruct (n =? 0).
Qed.

Lemma decodes_reserve {T} allocate n (r : reader T) bs v :
  grants allocate n → decodes r bs v → decodes (reserve allocate n >>; r) bs v.
Proof.
  intros Hn Hr pre post. unfold reader_bind.
  rewrite (reserve_granted allocate n Hn). apply Hr.
Qed.

Section Decoding.
Variable host : byte_order.
Variable allocate : Z → allocation.

Lemma decodes_object (size : nat) (v : Z) :
  decodes (let* value := stream_read size in
           check_read >>; reader_ret (object_value host value))
          (object_repr host size v) (v mod 2 ^ (Z.of_nat size * 8)).
Proof.
  pose proof (decodes_raw (object_value host) (object_repr host size v)) as Hd.
  by rewrite length_object_repr, object_value_repr in Hd.
Qed.

Lemma read_u8_decodes v :
  decodes (read_u8 host) (object_repr host 1 v) (wrap 8 v).
Proof. apply (decodes_object 1). Qed.

Lemma read_u16_decodes v :
  decodes (read_u16 host) (object_repr host 2 v) (wrap 16 v).
Proof. apply (decodes_object 2). Qed.

Lemma read_u32_decodes v :
  decodes (read_u32 host) (object_repr host 4 v) (wrap 32 v).
Proof. apply (decodes_object 4). Qed.

Lemma read_u64_decodes v :
  decodes (read_u64 host) (object_repr host 8 v) (wrap 64 v).
Proof. apply (decodes_object 8). Qed.

Lemma wrap_wrap bits z : 0 ≤ bits → wrap bits (wrap bits z) = wrap bits z.
Proof. intros. unfold wrap. apply Z.mod_mod. apply Z.pow_nonzero; lia. Qed.

Lemma read_i8_decodes v :
  is_signed 8 v → decodes (read_i8 host) (object_repr host 1 (wrap 8 v)) v.
Proof.
  intros Hv. rewrite <- (swrap_wrap 8 v) at 2 by (done || lia).
  rewrite <- (wrap_wrap 8 v) at 2 by lia.
  apply decodes_map, read_u8_decodes.
Qed.

Lemma read_i16_decodes v :
  is_signed 16 v → decodes (read_i16 host) (object_repr host 2 (wrap 16 v)) v.
Proof.
  intros Hv. rewrite <- (swrap_wrap 16 v) at 2 by (done || lia).
  rewrite <- (wrap_wrap 16 v) at 2 by lia.
  apply decodes_map, read_u16_decodes.
Qed.

Lemma read_i32_decodes v :
  is_signed 32 v → decodes (read_i32 host) (object_repr host 4 (wrap 32 v)) v.
Proof.
  intros Hv. rewrite <- (swrap_wrap 32 v) at 2 by (done || lia).
  rewrite <- (wrap_wrap 32 v) at 2 by lia.
  apply decodes_map, read_u32_decodes.
Qed.

Lemma read_i64_decodes v :
  is_signed 64 v → decodes (read_i64 host) (object_repr host 8 (wrap 64 v)) v.
Proof.
  intros Hv. rewrite <- (swrap_wrap 64 v) at 2 by (done || lia).
  rewrite <- (wrap_wrap 64 v) at 2 by lia.
  apply decodes_map, read_u64_decodes.
Qed.

Lemma read_bool_decodes (b : bool) :
  decodes (read_bool host) (object_repr host 1 (if b then 1 else 0)) b.
Proof.
  replace b with (negb (wrap 8 (if b then 1 else 0) =? 0)) at 2
    by (by destruct b).
  apply (decodes_map (read_u8 host) (λ v, negb (v =? 0))), read_u8_decodes.
Qed.

Lemma read_string_decodes (s : string) :
  Z.of_nat (String.length s) < 2 ^ 32 →
  grants allocate (Z.of_nat (String.length s)) →
  decodes (read_string host allocate)
          (object_repr host 4 (wrap 32 (Z.of_nat (String.length s)))
           ++ String.list_byte_of_string s) s.
Proof.
  intros Hlen Hgrants. unfold read_string.
  eapply decodes_bind; [apply read_u32_decodes |].
  rewrite wrap_wrap by lia. rewrite wrap_small by (unfold is_unsigned; lia).
  destruct s as [|c s].
  - simpl. apply decodes_ret.
  - destruct (Z.eqb_spec (Z.of_nat (String.length (String c s))) 0) as [E|_];
      [simpl in E; lia |].
    apply decodes_reserve; [done |].
    rewrite Nat2Z.id, <- length_list_byte_of_string.
    rewrite <- (String.string_of_list_byte_of_string (String c s)) at 3.
    apply decodes_raw.
Qed.

Lemma read_bytes_decodes (value : list byte) :
  Z.of_nat (length value) < 2 ^ 32 →
  grants allocate (Z.of_nat (length value)) →
  decodes (read_bytes host allocate)
          (object_repr host 4 (wrap 32 (Z.of_nat (length value))) ++ value) value.
Proof.
  intros Hlen Hgrants. unfold read_bytes.
  eapply decodes_bind; [apply read_u32_decodes |].
  rewrite wrap_wrap by lia. rewrite wrap_small by (unfold is_unsigned; lia).
  apply decodes_reserve; [done |].
  destruct value as [|b value].
  - simpl. apply decodes_ret.
  - destruct (Z.ltb_spec 0 (Z.of_nat (length (b :: value)))) as [_|E];
      [| simpl in E; lia].
    rewrite Nat2Z.id.
    apply (decodes_raw (λ result, result)).
Qed.

End Decoding.

(** ** Writing to a stream *)

Lemma overwrite_app pos b1 b2 str :
  overwrite (pos + length b1) b2 (overwrite pos b1 str)
  = overwrite pos (b1 ++ b2) str.
Proof.
  unfold overwrite.
  destruct (decide (pos ≤ length str)%nat) as [Hle | Hgt].
  - assert (Hlen : length (take pos str ++ b1) = (pos + length b1)%nat).
    { rewrite length_app, length_take. lia. }
    rewrite (app_assoc (take pos str) b1).
    rewrite take_app_length' by done.
    rewrite (drop_app_add' _ _ (pos + length b1)) by done.
    rewrite drop_drop, length_app, <- !app_assoc.
    do 4 f_equal. lia.
  - rewrite !(drop_ge str), !(take_ge str) by lia. rewrite !app_nil_r.
    rewrite take_ge, drop_ge by (rewrite length_app; lia).
    by rewrite app_nil_r, <- app_assoc.
Qed.

Lemma overwrite_nil pos str : overwrite pos [] str = str.
Proof. unfold overwrite. simpl. by rewrite Nat.add_0_r, take_drop. Qed.

Lemma overwrite_end bs str : overwrite (length str) bs str = str ++ bs.
Proof.
  unfold overwrite. rewrite take_ge, drop_ge by lia. by rewrite app_nil_r.
Qed.

Lemma write_at_app b1 b2 o : write_at b2 (write_at b1 o) = write_at (b1 ++ b2) o.
Proof.
  unfold write_at. destruct (failed o) eqn:Hfailed; [by rewrite Hfailed |].
  cbn [failed ppos contents].
  by rewrite overwrite_app, length_app, Nat.add_assoc.
Qed.

Lemma write_at_nil o : write_at [] o = o.
Proof.
  unfold write_at. destruct o as [str pos [|]]; [done |].
  cbn [failed ppos contents length]. by rewrite overwrite_nil, Nat.add_0_r.
Qed.

Lemma write_at_appending bs o :
  appending o →
  write_at bs o = OStream (contents o ++ bs) (length (contents o ++ bs)) false.
Proof.
  intros [Hgood Hpos]. unfold write_at.
  by rewrite Hgood, Hpos, overwrite_end, length_app.
Qed.

Lemma ostream_str_write s bs m o :
  ostreams m !! s = Some o → appending o →
  ostream_str s (ostream_write s bs m) = ostream_str s m ++ bs.
Proof.
  intros Hs Ho. unfold ostream_str, ostream_write. cbn [ostreams].
  rewrite lookup_alter_eq, Hs. cbn [fmap option_fmap option_map].
  by rewrite write_at_appending.
Qed.

Lemma ostream_write_app s b1 b2 m :
  ostream_write s b2 (ostream_write s b1 m) = ostream_write s (b1 ++ b2) m.
Proof.
  unfold ostream_write. cbn [vectors ostreams]. f_equal.
  rewrite alter_alter_eq. apply alter_ext. intros o _. apply write_at_app.
Qed.

Lemma ostream_write_nil s m : ostream_write s [] m = m.
Proof.
  unfold ostream_write. rewrite alter_id by (intros; apply write_at_nil).
  by destruct m.
Qed.

Lemma vectors_ostream_write s bs m : vectors (ostream_write s bs m) = vectors m.
Proof. done. Qed.

(** ** The algebra of [emits] *)

Lemma emits_then (f g : BinaryWriter → Memory → Memory) b1 b2 :
  emits f b1 → emits g b2 → emits (λ w m, g w (f w m)) (b1 ++ b2).
Proof. intros Hf Hg w m. by rewrite Hf, Hg, ostream_write_app. Qed.

Lemma emits_ext (f g : BinaryWriter → Memory → Memory) bs :
  (∀ w m, f w m = g w m) → emits g bs → emits f bs.
Proof. intros Heq Hg w m. by rewrite Heq. Qed.

Lemma wrap_swrap z : wrap 32 (swrap 32 z) = wrap 32 z.
Proof.
  unfold wrap, swrap. rewrite Zminus_mod_idemp_l. f_equal. lia.
Qed.

Section Encoding.
Variable host : byte_order.

Lemma write_enum_emits v :
  emits (λ w, write_enum host w v) (object_repr host 4 (wrap 32 v)).
Proof.
  intros w m. unfold write_enum, write_i32, cast.
  by rewrite wrap_swrap.
Qed.

Lemma write_u8_emits v : emits (λ w, write_u8 host w v) (object_repr host 1 v).
Proof. done. Qed.
Lemma write_u16_emits v : emits (λ w, write_u16 host w v) (object_repr host 2 v).
Proof. done. Qed.
Lemma write_u32_emits v : emits (λ w, write_u32 host w v) (object_repr host 4 v).
Proof. done. Qed.
Lemma write_u64_emits v : emits (λ w, write_u64 host w v) (object_repr host 8 v).
Proof. done. Qed.

Lemma write_string_emits (value : string) :
  emits (λ w, write_string host w value)
        (object_repr host 4 (wrap 32 (Z.of_nat (String.length value)))
         ++ String.list_byte_of_string value).
Proof.
  intros w m. unfold write_string. case_decide as E.
  - subst value. simpl. by rewrite app_nil_r.
  - by rewrite write_u32_emits, ostream_write_app.
Qed.

Lemma write_bytes_emits (value : list byte) :
  emits (λ w, write_bytes host w value)
        (object_repr host 4 (wrap 32 (Z.of_nat (length value))) ++ value).
Proof.
  intros w m. unfold write_bytes. case_decide as E.
  - subst value. simpl. by rewrite app_nil_r.
  - by rewrite write_u32_emits, ostream_write_app.
Qed.

Lemma write_optional_emits {T} (value : option T)
    (write_func : BinaryWriter → T → Memory → Memory) (enc : T → list byte) :
  (∀ v, value = Some v → emits (λ w, write_func w v) (enc v)) →
  emits (λ w, write_optional host w value write_func)
        (match value with
         | Some v => object_repr host 1 1 ++ enc v
         | None => object_repr host 1 0
         end).
Proof.
  intros Hf w m. unfold write_optional. destruct value as [v|]; [| done].
  by rewrite (Hf v eq_refl), write_u8_emits, ostream_write_app.
Qed.

Lemma write_optional_string_emits (value : option string) :
  emits (λ w, write_optional_string host w value)
        (match value with
         | Some v => object_repr host 1 1
                     ++ object_repr host 4 (wrap 32 (Z.of_nat (String.length v)))
                     ++ String.list_byte_of_string v
         | None => object_repr host 1 0
         end).
Proof.
  intros w m. unfold write_optional_string. destruct value as [v|]; [| done].
  by rewrite write_string_emits, write_u8_emits, ostream_write_app.
Qed.

Lemma fold_write_emits {T} (items : list T)
    (write_func : BinaryWriter → T → Memory → Memory) (enc : T → list byte) :
  Forall (λ item, emits (λ w, write_func w item) (enc item)) items →
  ∀ w pre m,
    fold_left (λ m item, write_func w item m) items
              (ostream_write (stream_ w) pre m)
    = ostream_write (stream_ w) (pre ++ concat (enc <$> items)) m.
Proof.
  induction 1 as [|item items Hitem _ IH]; intros w pre m; simpl.
  - by rewrite app_nil_r.
  - by rewrite Hitem, ostream_write_app, IH, app_assoc.
Qed.

Lemma write_vector_emits {T} (items : list T)
    (write_func : BinaryWriter → T → Memory → Memory) (enc : T → list byte) :
  Forall (λ item, emits (λ w, write_func w item) (enc item)) items →
  emits (λ w, write_vector host w items write_func)
        (object_repr host 4 (wrap 32 (Z.of_nat (length items)))
         ++ concat (enc <$> items)).
Proof.
  intros Hf w m. unfold write_vector.
  by rewrite write_u32_emits, (fold_write_emits items write_func enc Hf).
Qed.

End Encoding.

(** ** A writer over a vector *)

Lemma writer_of_vector_spec data m :
  ∃ s, ostreams m !! s = None ∧
       writer_of_vector data m
       = (Writer (Some data) (Some s) s,
          Mem (vectors m) (<[s := ostringstream]> (ostreams m))).
Proof.
  exists (fresh (dom (ostreams m))). split; [| done].
  apply not_elem_of_dom, is_fresh.
Qed.

Lemma flush_vector data s bs m :
  vectors (flush (Writer (Some data) (Some s) s)
                 (ostream_write s bs
                    (Mem (vectors m) (<[s := ostringstream]> (ostreams m)))))
  !! data = Some bs.
Proof.
  unfold flush; simpl. rewrite lookup_insert_eq. f_equal.
  rewrite (ostream_str_write _ _ _ ostringstream);
    [| apply lookup_insert_eq | done].
  unfold ostream_str; simpl. by rewrite lookup_insert_eq.
Qed.

Lemma destroy_vectors w m : vectors (destroy w m) = vectors (flush w m).
Proof. unfold destroy. by destruct (owned_stream_ w). Qed.

Lemma serialize_emits (write : BinaryWriter → Memory → Memory) bs :
  emits write bs → serialize write = bs.
Proof.
  intros Hw. unfold serialize.
  destruct (writer_of_vector_spec 1%positive (Mem {[1%positive := []]} ∅))
    as (s & _ & ->).
  rewrite destroy_vectors, Hw; simpl stream_.
  by rewrite flush_vector.
Qed.

Lemma emits_decodes_roundtrips {T} (write : BinaryWriter → T → Memory → Memory)
    (read : reader T) (v : T) bs :
  emits (λ w, write w v) bs → decodes read bs v → roundtrips write read v.
Proof.
  intros Hw Hr. unfold roundtrips.
  by rewrite (serialize_emits _ bs Hw), (decodes_deserialize _ _ _ Hr).
Qed.

(** ** Round trips of the primitive kinds *)

Lemma read_string_zero_prefix host allocate rest :
  deserialize (read_string host allocate) (object_repr host 4 0 ++ rest)
  = Return EmptyString.
Proof.
  unfold deserialize, reader_of_vector, read_string, reader_bind.
  pose proof (read_u32_decodes host 0 [] rest) as Hd. simpl in Hd.
  by rewrite Hd.
Qed.

Lemma read_vector_empty_decodes host allocate {T} (read_func : reader T) :
  decodes (read_vector host allocate read_func) (object_repr host 4 0) [].
Proof.
  unfold read_vector. rewrite <- (app_nil_r (object_repr host 4 0)).
  eapply decodes_bind; [apply read_u32_decodes |].
  apply decodes_reserve; [by left |]. apply decodes_ret.
Qed.

(** C1, as the code has it: every primitive wire value is decoded from its
    encoding unchanged: the integers of each width within their range,
    floats as their bit patterns, booleans, and the strings and byte blobs
    whose length fits the 32-bit length prefix, on a host that grants the
    storage that the decode requests for that length; among them the
    boundary values 255 (u8), -9223372036854775808 (i64), the empty string,
    the empty byte blob and the empty sequence, for which no storage is
    requested. *)
Theorem wire_roundtrip (host : byte_order) (allocate : Z → allocation) :
  (∀ v, is_unsigned 8 v → roundtrips (write_u8 host) (read_u8 host) v) ∧
  (∀ v, is_unsigned 16 v → roundtrips (write_u16 host) (read_u16 host) v) ∧
  (∀ v, is_unsigned 32 v → roundtrips (write_u32 host) (read_u32 host) v) ∧
  (∀ v, is_unsigned 64 v → roundtrips (write_u64 host) (read_u64 host) v) ∧
  (∀ v, is_signed 8 v → roundtrips (write_i8 host) (read_i8 host) v) ∧
  (∀ v, is_signed 16 v → roundtrips (write_i16 host) (read_i16 host) v) ∧
  (∀ v, is_signed 32 v → roundtrips (write_i32 host) (read_i32 host) v) ∧
  (∀ v, is_signed 64 v → roundtrips (write_i64 host) (read_i64 host) v) ∧
  (∀ bits, is_unsigned 32 bits → roundtrips (write_f32 host) (read_f32 host) bits) ∧
  (∀ bits, is_unsigned 64 bits → roundtrips (write_f64 host) (read_f64 host) bits) ∧
  (∀ b : bool, roundtrips (write_bool host) (read_bool host) b) ∧
  (∀ s : string, Z.of_nat (String.length s) < 2 ^ 32 →
     grants allocate (Z.of_nat (String.length s)) →
     roundtrips (write_string host) (read_string host allocate) s) ∧
  (∀ l : list byte, Z.of_nat (length l) < 2 ^ 32 →
     grants allocate (Z.of_nat (length l)) →
     roundtrips (write_bytes host) (read_bytes host allocate) l) ∧
  roundtrips (write_u8 host) (read_u8 host) 255 ∧
  roundtrips (write_i64 host) (read_i64 host) (-9223372036854775808) ∧
  roundtrips (write_string host) (read_string host allocate) EmptyString ∧
  roundtrips (write_bytes host) (read_bytes host allocate) [] ∧
  (∀ T (write_func : BinaryWriter → T → Memory → Memory) (read_func : reader T),
     roundtrips (λ w items, write_vector host w items write_func)
                (read_vector host allocate read_func) []).
Proof.
  assert (Hu8 : ∀ v, is_unsigned 8 v → roundtrips (write_u8 host) (read_u8 host) v).
  { intros v Hv. eapply emits_decodes_roundtrips; [apply write_u8_emits |].
    rewrite <- (wrap_small 8 v Hv) at 2. apply read_u8_decodes. }
  assert (Hi64 : ∀ v, is_signed 64 v → roundtrips (write_i64 host) (read_i64 host) v).
  { intros v Hv. eapply emits_decodes_roundtrips;
      [apply (write_u64_emits host (wrap 64 v)) | by apply read_i64_decodes]. }
  assert (Hstr : ∀ s : string, Z.of_nat (String.length s) < 2 ^ 32 →
                 grants allocate (Z.of_nat (String.length s)) →
                 roundtrips (write_string host) (read_string host allocate) s).
  { intros s Hs Hgrants. eapply emits_decodes_roundtrips;
      [apply write_string_emits | by apply read_string_decodes]. }
  assert (Hbytes : ∀ l : list byte, Z.of_nat (length l) < 2 ^ 32 →
                   grants allocate (Z.of_nat (length l)) →
                   roundtrips (write_bytes host) (read_bytes host allocate) l).
  { intros l Hl Hgrants. eapply emits_decodes_roundtrips;
      [apply write_bytes_emits | by apply read_bytes_decodes]. }
  repeat split.
  - exact Hu8.
  - intros v Hv. eapply emits_decodes_roundtrips; [apply write_u16_emits |].
    rewrite <- (wrap_small 16 v Hv) at 2. apply read_u16_decodes.
  - intros v Hv. eapply emits_decodes_roundtrips; [apply write_u32_emits |].
    rewrite <- (wrap_small 32 v Hv) at 2. apply read_u32_decodes.
  - intros v Hv. eapply emits_decodes_roundtrips; [apply write_u64_emits |].
    rewrite <- (wrap_small 64 v Hv) at 2. apply read_u64_decodes.
  - intros v Hv. eapply emits_decodes_roundtrips;
      [apply (write_u8_emits host (wrap 8 v)) | by apply read_i8_decodes].
  - intros v Hv. eapply emits_decodes_roundtrips;
      [apply (write_u16_emits host (wrap 16 v)) | by apply read_i16_decodes].
  - intros v Hv. eapply emits_decodes_roundtrips;
      [apply (write_u32_emits host (wrap 32 v)) | by apply read_i32_decodes].
  - exact Hi64.
  - intros v Hv. eapply emits_decodes_roundtrips; [apply write_u32_emits |].
    rewrite <- (wrap_small 32 v Hv) at 2.
    apply (decodes_map (read_u32 host) (λ bits, bits)), read_u32_decodes.
  - intros v Hv. eapply emits_decodes_roundtrips; [apply write_u64_emits |].
    rewrite <- (wrap_small 64 v Hv) at 2.
    apply (decodes_map (read_u64 host) (λ bits, bits)), read_u64_decodes.
  - intros b. eapply emits_decodes_roundtrips;
      [apply (write_u8_emits host (if b then 1 else 0)) | apply read_bool_decodes].
  - exact Hstr.
  - exact Hbytes.
  - apply Hu8. unfold is_unsigned. lia.
  - apply Hi64. unfold is_signed. lia.
  - apply Hstr; [simpl; lia | by left].
  - apply Hbytes; [simpl; lia | by left].
  - intros T write_func read_func. eapply emits_decodes_roundtrips.
    + apply (write_u32_emits host (wrap 32 (Z.of_nat (length (@nil T))))).
    + apply read_vector_empty_decodes.
Qed.

Lemma wire_roundtrip_witness :
  roundtrips (write_u16 little_endian) (read_u16 little_endian) 65535
  ∧ roundtrips (write_i32 big_endian) (read_i32 big_endian) (-2147483648)
  ∧ roundtrips (write_string little_endian) (read_string little_endian (within 1024))
               "Binary Test".
Proof.
  destruct (wire_roundtrip little_endian (within 1024))
    as (_ & Hu16 & _ & _ & _ & _ & _ & _ & _ & _ & _ & Hstr & _).
  destruct (wire_roundtrip big_endian (within 1024))
    as (_ & _ & _ & _ & _ & _ & Hi32 & _).
  split; [| split].
  - apply Hu16. unfold is_unsigned. lia.
  - apply Hi32. unfold is_signed. lia.
  - apply Hstr; [simpl; lia | right; reflexivity].
Defined.

(** C1, as stated, fails for a string of 2^32 bytes: the length prefix is
    the size cast to [uint32_t], here 0, and [read_string] returns the
    empty string.  It also fails where the host has no memory for the
    storage that the decode requests: the decode throws. *)
Lemma wire_roundtrip_long_string :
  ¬ roundtrips (write_string little_endian)
      (read_string little_endian (within 1024))
      (String.string_of_list_byte (replicate (Z.to_nat (2 ^ 32)) Byte.x61)) ∧
  ¬ roundtrips (write_string little_endian) (read_string little_endian (within 2))
      "abc".
Proof.
  split; [| by vm_compute].
  remember (String.string_of_list_byte (replicate (Z.to_nat (2 ^ 32)) Byte.x61))
    as s eqn:Hs.
  assert (Hlen : Z.of_nat (String.length s) = 2 ^ 32).
  { subst s.
    rewrite <- length_list_byte_of_string,
      String.list_byte_of_string_of_list_byte, length_replicate.
    apply Z2Nat.id, Z.pow_nonneg. lia. }
  unfold roundtrips.
  rewrite (serialize_emits _ _ (write_string_emits little_endian s)), Hlen.
  change (wrap 32 (2 ^ 32)) with 0.
  rewrite read_string_zero_prefix.
  intros Heq. injection Heq as <-. simpl in Hlen. lia.
Qed.

(** ** Truncated input *)

Lemma reader_bind_return {A B} (r : reader A) (k : A → reader B) s a s1 :
  r s = (Return a, s1) → reader_bind r k s = k a s1.
Proof. intros Hr. unfold reader_bind. by rewrite Hr. Qed.

Lemma fails_bind {A B} (r : reader A) (k : A → reader B) s :
  fails r s → fails (reader_bind r k) s.
Proof. intros [s' Hr]. exists s'. unfold reader_bind. by rewrite Hr. Qed.

Lemma fails_raw {T} (f : list byte → T) n s :
  (remaining s < n)%nat →
  fails (let* value := stream_read n in check_read >>; reader_ret (f value)) s.
Proof.
  intros Hlt. pose proof (istream_read_short n s Hlt) as Hfail.
  unfold fails, reader_bind, stream_read, check_read.
  destruct (istream_read n s) as [bs s']; simpl in *.
  rewrite Hfail. by eexists.
Qed.

Lemma fails_after {A B} (r : reader A) (k : A → reader B) s a s1 :
  r s = (Return a, s1) → fails (k a) s1 → fails (reader_bind r k) s.
Proof. intros Hr [s' Hk]. exists s'. unfold reader_bind. by rewrite Hr. Qed.

Lemma only_truncated_ret {T} (v : T) : only_truncated (reader_ret v).
Proof. intros s e s' Heq. unfold reader_ret in Heq. congruence. Qed.

Lemma only_truncated_bind {A B} (r : reader A) (k : A → reader B) :
  only_truncated r → (∀ a, only_truncated (k a)) →
  only_truncated (reader_bind r k).
Proof.
  intros Hr Hk s e s' Heq. unfold reader_bind in Heq.
  destruct (r s) as [[a|e1] s1] eqn:Hrs.
  - by eapply Hk.
  - injection Heq as <- <-. by eapply Hr.
Qed.

Lemma only_truncated_stream_read n : only_truncated (stream_read n).
Proof.
  intros s e s' Heq. unfold stream_read in Heq.
  destruct (istream_read n s). congruence.
Qed.

Lemma only_truncated_check_read : only_truncated check_read.
Proof.
  intros s e s' Heq. unfold check_read in Heq.
  destruct (failbit s); congruence.
Qed.

Lemma only_truncated_raw {T} (f : list byte → T) n :
  only_truncated (let* value := stream_read n in
                  check_read >>; reader_ret (f value)).
Proof.
  apply only_truncated_bind; [apply only_truncated_stream_read |].
  intros value. apply only_truncated_bind; [apply only_truncated_check_read |].
  intros _. apply only_truncated_ret.
Qed.

Lemma only_truncated_map {A B} (r : reader A) (f : A → B) :
  only_truncated r → only_truncated (let* x := r in reader_ret (f x)).
Proof.
  intros Hr. apply only_truncated_bind; [done |].
  intros a. apply only_truncated_ret.
Qed.

Lemma truncated_or_refused_weaken {T} (r : reader T) :
  only_truncated r → truncated_or_refused r.
Proof. intros Hr s e s' Heq. left. by eapply Hr. Qed.

Lemma truncated_or_refused_bind {A B} (r : reader A) (k : A → reader B) :
  truncated_or_refused r → (∀ a, truncated_or_refused (k a)) →
  truncated_or_refused (reader_bind r k).
Proof.
  intros Hr Hk s e s' Heq. unfold reader_bind in Heq.
  destruct (r s) as [[a|e1] s1] eqn:Hrs.
  - by eapply Hk.
  - injection Heq as <- <-. by eapply Hr.
Qed.

Lemma truncated_or_refused_reserve allocate n :
  truncated_or_refused (reserve allocate n).
Proof.
  intros s e s'. unfold reserve, allocation_failure.
  destruct (n =? 0); [done |].
  destruct (allocate n); intros [= <- <-]; auto.
Qed.

Lemma only_truncated_reserve allocate n :
  grants allocate n → only_truncated (reserve allocate n).
Proof.
  intros Hn. rewrite (reserve_granted allocate n Hn).
  apply only_truncated_ret.
Qed.

Lemma fails_reserve {T} allocate n (r : reader T) s :
  grants allocate n → fails r s → fails (reserve allocate n >>; r) s.
Proof.
  intros Hn [s' Hr]. exists s'. unfold reader_bind.
  by rewrite (reserve_granted allocate n Hn).
Qed.

Create HintDb truncation.
#[local] Hint Resolve only_truncated_ret only_truncated_stream_read
  only_truncated_check_read only_truncated_raw only_truncated_map : truncation.

Section Truncation.
Variable host : byte_order.
Variable allocate : Z → allocation.

Lemma only_truncated_read_u8 : only_truncated (read_u8 host).
Proof. apply only_truncated_raw. Qed.
Lemma only_truncated_read_u16 : only_truncated (read_u16 host).
Proof. apply only_truncated_raw. Qed.
Lemma only_truncated_read_u32 : only_truncated (read_u32 host).
Proof. apply only_truncated_raw. Qed.
Lemma only_truncated_read_u64 : only_truncated (read_u64 host).
Proof. apply only_truncated_raw. Qed.

Lemma only_truncated_read_optional {T} (read_func : reader T) :
  only_truncated read_func → only_truncated (read_optional host read_func).
Proof.
  intros Hf. apply only_truncated_bind; [apply only_truncated_read_u8 |].
  intros has_value. destruct (has_value =? 0).
  - apply only_truncated_ret.
  - by apply only_truncated_map.
Qed.

Lemma truncated_or_refused_read_string :
  truncated_or_refused (read_string host allocate).
Proof.
  apply truncated_or_refused_bind;
    [apply truncated_or_refused_weaken, only_truncated_read_u32 |].
  intros len. destruct (len =? 0).
  - apply truncated_or_refused_weaken, only_truncated_ret.
  - apply truncated_or_refused_bind; [apply truncated_or_refused_reserve |].
    intros _. apply truncated_or_refused_weaken,
      (only_truncated_raw String.string_of_list_byte).
Qed.

Lemma truncated_or_refused_read_bytes :
  truncated_or_refused (read_bytes host allocate).
Proof.
  apply truncated_or_refused_bind;
    [apply truncated_or_refused_weaken, only_truncated_read_u32 |].
  intros len.
  apply truncated_or_refused_bind; [apply truncated_or_refused_reserve |].
  intros _. apply truncated_or_refused_weaken. destruct (0 <? len).
  - apply (only_truncated_raw (λ result, result)).
  - apply only_truncated_ret.
Qed.

Lemma truncated_or_refused_read_optional {T} (read_func : reader T) :
  truncated_or_refused read_func →
  truncated_or_refused (read_optional host read_func).
Proof.
  intros Hf. apply truncated_or_refused_bind;
    [apply truncated_or_refused_weaken, only_truncated_read_u8 |].
  intros has_value. destruct (has_value =? 0).
  - apply truncated_or_refused_weaken, only_truncated_ret.
  - apply truncated_or_refused_bind; [done |]. intros v.
    apply truncated_or_refused_weaken, only_truncated_ret.
Qed.

Lemma truncated_or_refused_read_items {T} (read_func : reader T) n result :
  truncated_or_refused read_func →
  truncated_or_refused (read_items read_func n result).
Proof.
  intros Hf. revert result. induction n as [|n IH]; intros result; simpl.
  - apply truncated_or_refused_weaken, only_truncated_ret.
  - apply truncated_or_refused_bind; [done |]. intros item. apply IH.
Qed.

Lemma truncated_or_refused_read_vector {T} (read_func : reader T) :
  truncated_or_refused read_func →
  truncated_or_refused (read_vector host allocate read_func).
Proof.
  intros Hf. apply truncated_or_refused_bind;
    [apply truncated_or_refused_weaken, only_truncated_read_u32 |].
  intros count.
  apply truncated_or_refused_bind; [apply truncated_or_refused_reserve |].
  intros _. by apply truncated_or_refused_read_items.
Qed.

Lemma only_truncated_read_items {T} (read_func : reader T) n result :
  only_truncated read_func → only_truncated (read_items read_func n result).
Proof.
  intros Hf. revert result. induction n as [|n IH]; intros result; simpl.
  - apply only_truncated_ret.
  - apply only_truncated_bind; [done |]. intros item. apply IH.
Qed.

(** On a host that grants every request. *)
Section GrantingHost.
Hypothesis Hgrants : ∀ n, grants allocate n.

Lemma only_truncated_read_string : only_truncated (read_string host allocate).
Proof.
  apply only_truncated_bind; [apply only_truncated_read_u32 |].
  intros len. destruct (len =? 0).
  - apply only_truncated_ret.
  - apply only_truncated_bind; [by apply only_truncated_reserve |].
    intros _. apply (only_truncated_raw String.string_of_list_byte).
Qed.

Lemma only_truncated_read_bytes : only_truncated (read_bytes host allocate).
Proof.
  apply only_truncated_bind; [apply only_truncated_read_u32 |].
  intros len. apply only_truncated_bind; [by apply only_truncated_reserve |].
  intros _. destruct (0 <? len).
  - apply (only_truncated_raw (λ result, result)).
  - apply only_truncated_ret.
Qed.

Lemma only_truncated_read_vector {T} (read_func : reader T) :
  only_truncated read_func → only_truncated (read_vector host allocate read_func).
Proof.
  intros Hf. apply only_truncated_bind; [apply only_truncated_read_u32 |].
  intros count. apply only_truncated_bind; [by apply only_truncated_reserve |].
  intros _. by apply only_truncated_read_items.
Qed.

End GrantingHost.

Lemma fails_length_prefixed {T} (body : Z → reader T) s len s1 :
  read_u32 host s = (Return len, s1) →
  fails (body len) s1 →
  fails (let* len := read_u32 host in body len) s.
Proof. apply fails_after. Qed.

(** What a decode of a string or of a byte vector does when the host
    refuses the storage for the length that it has read. *)
Lemma read_prefixed_refused s len s1 (e : exn) :
  read_u32 host s = (Return len, s1) →
  reserve allocate len s1 = (Throw e, s1) →
  read_string host allocate s = (Throw e, s1) ∧
  read_bytes host allocate s = (Throw e, s1).
Proof.
  intros Hlen He. unfold read_string, read_bytes.
  rewrite !(reader_bind_return _ _ _ _ _ Hlen).
  destruct (Z.eqb_spec len 0) as [-> | _]; [by unfold reserve in He |].
  unfold reader_bind. by rewrite He.
Qed.

End Truncation.

#[local] Hint Resolve only_truncated_read_u8 only_truncated_read_u16
  only_truncated_read_u32 only_truncated_read_u64 : truncation.

(** C2, as the code has it: a decode of a primitive kind on a cursor with
    fewer remaining bytes than the kind requires fails with
    [TruncatedInput]: 1 byte for u8, i8 and bool, 2 for u16 and i16, 4 for
    u32, i32, f32, an enum and the length prefix of a string or of a byte
    blob, 8 for u64, i64 and f64, and the announced length for the payload
    of a string or a byte blob where the host grants the storage for that
    length, which the decode requests before it reads the payload; where
    the host refuses it, the decode throws [std::bad_alloc] or
    [std::length_error] instead, with the stream as the read of the length
    left it.  An exception of a read is the outcome of the decode that
    called it.  The fixed-width decodes let out no other exception than
    [TruncatedInput]; the decodes of strings, byte blobs and sequences let
    out no other than [TruncatedInput] and those of a refused allocation,
    and only [TruncatedInput] on a host that grants every request. *)
Theorem truncated_input (host : byte_order) (allocate : Z → allocation)
    (signed : bool) (bits : Z) (s : istream) :
  ((remaining s < 1)%nat →
     fails (read_u8 host) s ∧ fails (read_i8 host) s ∧ fails (read_bool host) s) ∧
  ((remaining s < 2)%nat →
     fails (read_u16 host) s ∧ fails (read_i16 host) s) ∧
  ((remaining s < 4)%nat →
     fails (read_u32 host) s ∧ fails (read_i32 host) s ∧ fails (read_f32 host) s ∧
     fails (read_enum host signed bits) s ∧
     fails (read_string host allocate) s ∧ fails (read_bytes host allocate) s) ∧
  ((remaining s < 8)%nat →
     fails (read_u64 host) s ∧ fails (read_i64 host) s ∧ fails (read_f64 host) s) ∧
  (∀ len s1, read_u32 host s = (Return len, s1) →
             (remaining s1 < Z.to_nat len)%nat →
     (grants allocate len →
      fails (read_string host allocate) s ∧ fails (read_bytes host allocate) s) ∧
     (allocate len = BadAlloc →
      read_string host allocate s = (Throw bad_alloc, s1) ∧
      read_bytes host allocate s = (Throw bad_alloc, s1)) ∧
     (allocate len = LengthError →
      read_string host allocate s = (Throw length_error, s1) ∧
      read_bytes host allocate s = (Throw length_error, s1))) ∧
  (∀ A B (r : reader A) (k : A → reader B),
     fails r s → fails (let* x := r in k x) s) ∧
  (∀ A B (r : reader A) (k : A → reader B) e s',
     r s = (Throw e, s') → (let* x := r in k x) s = (Throw e, s')) ∧
  (only_truncated (read_u8 host) ∧ only_truncated (read_u16 host) ∧
   only_truncated (read_u32 host) ∧ only_truncated (read_u64 host) ∧
   only_truncated (read_i8 host) ∧ only_truncated (read_i16 host) ∧
   only_truncated (read_i32 host) ∧ only_truncated (read_i64 host) ∧
   only_truncated (read_f32 host) ∧ only_truncated (read_f64 host) ∧
   only_truncated (read_bool host) ∧
   only_truncated (read_enum host signed bits)) ∧
  (truncated_or_refused (read_string host allocate) ∧
   truncated_or_refused (read_bytes host allocate) ∧
   truncated_or_refused (read_optional_string host allocate)) ∧
  (∀ T (read_func : reader T),
     (only_truncated read_func →
      only_truncated (read_optional host read_func)) ∧
     (truncated_or_refused read_func →
      truncated_or_refused (read_optional host read_func) ∧
      truncated_or_refused (read_vector host allocate read_func))) ∧
  ((∀ n, grants allocate n) →
   only_truncated (read_string host allocate) ∧
   only_truncated (read_bytes host allocate) ∧
   only_truncated (read_optional_string host allocate) ∧
   (∀ T (read_func : reader T), only_truncated read_func →
      only_truncated (read_vector host allocate read_func))).
Proof.
  refine (conj _ (conj _ (conj _ (conj _ (conj _ (conj _ (conj _ (conj _
            (conj _ (conj _ _)))))))))).
  - intros Hlt. pose proof (fails_raw (object_value host) 1 s Hlt) as Hu8.
    repeat split; [exact Hu8 | by apply fails_bind..].
  - intros Hlt.
    pose proof (fails_raw (λ v, le_to_native (object_value host v)) 2 s Hlt) as Hu16.
    split; [exact Hu16 | by apply fails_bind].
  - intros Hlt.
    pose proof (fails_raw (λ v, le_to_native (object_value host v)) 4 s Hlt) as Hu32.
    repeat split; [exact Hu32 | try by apply fails_bind..].
    by apply fails_bind, fails_bind.
  - intros Hlt.
    pose proof (fails_raw (λ v, le_to_native (object_value host v)) 8 s Hlt) as Hu64.
    repeat split; [exact Hu64 | by apply fails_bind..].
  - intros len s1 Hlen Hlt.
    assert (Hne : len ≠ 0) by (intros ->; simpl in Hlt; lia).
    split_and!.
    + intros Hgrants. split.
      * eapply fails_length_prefixed; [exact Hlen |].
        destruct (Z.eqb_spec len 0) as [| _]; [done |].
        apply fails_reserve; [done |].
        by apply (fails_raw String.string_of_list_byte).
      * eapply fails_length_prefixed; [exact Hlen |].
        apply fails_reserve; [done |].
        destruct (Z.ltb_spec 0 len) as [_ | Hle]; [| lia].
        by apply (fails_raw (λ result, result)).
    + intros Ha. apply (read_prefixed_refused host allocate s len); [done |].
      unfold reserve. rewrite Ha. by destruct (Z.eqb_spec len 0).
    + intros Ha. apply (read_prefixed_refused host allocate s len); [done |].
      unfold reserve. rewrite Ha. by destruct (Z.eqb_spec len 0).
  - intros A B r k. apply fails_bind.
  - intros A B r k e s' Hr. unfold reader_bind. by rewrite Hr.
  - unfold read_f32, read_f64, read_bool, read_enum, read_i8, read_i16,
      read_i32, read_i64.
    repeat split; auto 6 with truncation.
  - split_and!.
    + apply truncated_or_refused_read_string.
    + apply truncated_or_refused_read_bytes.
    + apply (truncated_or_refused_read_optional host
               (read_string host allocate)).
      apply truncated_or_refused_read_string.
  - intros T read_func. split_and!.
    + apply only_truncated_read_optional.
    + intros Hf. split.
      * by apply truncated_or_refused_read_optional.
      * by apply truncated_or_refused_read_vector.
  - intros Hgrants. split_and!.
    + by apply only_truncated_read_string.
    + by apply only_truncated_read_bytes.
    + apply (only_truncated_read_optional host (read_string host allocate)).
      by apply only_truncated_read_string.
    + intros T read_func Hf. by apply only_truncated_read_vector.
Qed.

Lemma truncated_input_witness :
  fails (read_u32 little_endian)
        (reader_of_vector [Byte.x01; Byte.x02; Byte.x03])
  ∧ fails (read_string little_endian (within 1024))
          (reader_of_vector [Byte.x05; Byte.x00; Byte.x00; Byte.x00; Byte.x61])
  ∧ read_bytes little_endian (within 4)
               (reader_of_vector [Byte.x05; Byte.x00; Byte.x00; Byte.x00; Byte.x61])
    = (Throw bad_alloc,
       IStream [Byte.x05; Byte.x00; Byte.x00; Byte.x00; Byte.x61] 4 false).
Proof.
  split_and!.
  - destruct (truncated_input little_endian (within 1024) true 32
                (reader_of_vector [Byte.x01; Byte.x02; Byte.x03]))
      as (_ & _ & H4 & _).
    apply H4. unfold remaining. simpl. lia.
  - destruct (truncated_input little_endian (within 1024) true 32
                (reader_of_vector
                   [Byte.x05; Byte.x00; Byte.x00; Byte.x00; Byte.x61]))
      as (_ & _ & _ & _ & Hpayload & _).
    destruct (Hpayload 5 (IStream [Byte.x05; Byte.x00; Byte.x00; Byte.x00; Byte.x61]
                                  4 false)) as (Hgranted & _).
    + reflexivity.
    + unfold remaining. simpl. lia.
    + apply Hgranted. right. reflexivity.
  - destruct (truncated_input little_endian (within 4) true 32
                (reader_of_vector
                   [Byte.x05; Byte.x00; Byte.x00; Byte.x00; Byte.x61]))
      as (_ & _ & _ & _ & Hpayload & _).
    destruct (Hpayload 5 (IStream [Byte.x05; Byte.x00; Byte.x00; Byte.x00; Byte.x61]
                                  4 false)) as (_ & Hrefused & _).
    + reflexivity.
    + unfold remaining. simpl. lia.
    + apply Hrefused. reflexivity.
Defined.

(** C2, as stated, fails: four bytes that announce a string of 2^32 - 1
    bytes, and nothing behind them.  Fewer bytes remain than the string
    requires, but on a host that has no memory for a string of that length
    the decode throws [std::bad_alloc], not [TruncatedInput]: the storage
    is requested before the payload is read. *)
Lemma truncated_input_refused :
  ¬ fails (read_string little_endian (within 1024))
      (reader_of_vector [Byte.xff; Byte.xff; Byte.xff; Byte.xff]) ∧
  ¬ only_truncated (read_string little_endian (within 1024)).
Proof.
  assert (Hrun : read_string little_endian (within 1024)
                   (reader_of_vector [Byte.xff; Byte.xff; Byte.xff; Byte.xff])
                 = (Throw bad_alloc,
                    IStream [Byte.xff; Byte.xff; Byte.xff; Byte.xff] 4 false))
    by reflexivity.
  split.
  - intros [s' Hfails]. rewrite Hrun in Hfails. discriminate.
  - intros Honly. by specialize (Honly _ _ _ Hrun).
Qed.

(** ** Optional values *)

Lemma object_value_singleton host b : object_value host [b] = byte.unsigned b.
Proof. destruct host; simpl; apply Z.lor_0_r. Qed.

Lemma byte_unsigned_zero b : byte.unsigned b = 0 ↔ b = Byte.x00.
Proof.
  split; [| by intros ->].
  intros Hb. by apply byte.unsigned_inj.
Qed.

Lemma read_u8_at host pre b post :
  read_u8 host (IStream (pre ++ b :: post) (length pre) false)
  = (Return (byte.unsigned b), IStream (pre ++ b :: post) (length pre + 1) false).
Proof.
  pose proof (decodes_raw (object_value host) [b] pre post) as Hd.
  simpl in Hd. by rewrite object_value_singleton in Hd.
Qed.

Lemma read_optional_decodes_some host {T} (read_func : reader T) bs v :
  decodes read_func bs v →
  decodes (read_optional host read_func) (object_repr host 1 1 ++ bs) (Some v).
Proof.
  intros Hf. unfold read_optional.
  eapply decodes_bind; [apply read_u8_decodes |].
  change (wrap 8 1 =? 0) with false.
  by apply decodes_map.
Qed.

Lemma object_repr_flag host (b : bool) :
  object_repr host 1 (if b then 1 else 0) = [if b then Byte.x01 else Byte.x00].
Proof. by destruct host, b. Qed.

(** C3: an absent optional is encoded as the single byte 0 and decoded as
    absent; an optional holding [v] is encoded as the byte 1 followed by
    the encoding of [v], and decoded as present with value [v], for an
    element writer that appends the encoding of [v] and an element reader
    that decodes it. *)
Theorem optional_roundtrip (host : byte_order) {T}
    (write_func : BinaryWriter → T → Memory → Memory) (read_func : reader T)
    (v : T) :
  emits (λ w, write_func w v) (encoding_of write_func v) →
  decodes read_func (encoding_of write_func v) v →
  serialize (λ w, write_optional host w None write_func) = [Byte.x00] ∧
  deserialize (read_optional host read_func) [Byte.x00] = Return None ∧
  serialize (λ w, write_optional host w (Some v) write_func)
    = Byte.x01 :: encoding_of write_func v ∧
  deserialize (read_optional host read_func)
              (Byte.x01 :: encoding_of write_func v) = Return (Some v).
Proof.
  intros Hw Hr.
  assert (Hnone : serialize (λ w, write_optional host w None write_func)
                  = [Byte.x00]).
  { rewrite (serialize_emits _ _
               (write_optional_emits host None write_func
                  (encoding_of write_func) ltac:(done))).
    apply (object_repr_flag host false). }
  assert (Hsome : serialize (λ w, write_optional host w (Some v) write_func)
                  = Byte.x01 :: encoding_of write_func v).
  { rewrite (serialize_emits _ _
               (write_optional_emits host (Some v) write_func
                  (encoding_of write_func)
                  ltac:(by intros ? [= <-]))).
    by rewrite (object_repr_flag host true). }
  repeat split; [done | | done |].
  - apply decodes_deserialize.
    rewrite <- (object_repr_flag host false).
    unfold read_optional. rewrite <- (app_nil_r (object_repr host 1 _)).
    eapply decodes_bind; [apply read_u8_decodes |].
    change (wrap 8 0 =? 0) with true. apply decodes_ret.
  - apply decodes_deserialize.
    change (Byte.x01 :: encoding_of write_func v)
      with ([Byte.x01] ++ encoding_of write_func v).
    rewrite <- (object_repr_flag host true).
    by apply read_optional_decodes_some.
Qed.

Lemma optional_roundtrip_witness :
  serialize (λ w, write_optional little_endian w (Some 258)
                    (write_u16 little_endian))
  = [Byte.x01; Byte.x02; Byte.x01]
  ∧ deserialize (read_optional little_endian (read_u16 little_endian))
                [Byte.x01; Byte.x02; Byte.x01] = Return (Some 258).
Proof.
  assert (Henc : encoding_of (write_u16 little_endian) 258
                 = object_repr little_endian 2 258).
  { apply serialize_emits, write_u16_emits. }
  destruct (optional_roundtrip little_endian
              (write_u16 little_endian) (read_u16 little_endian) 258)
    as (_ & _ & Hs & Hd).
  - rewrite Henc. apply write_u16_emits.
  - rewrite Henc. apply (read_u16_decodes little_endian 258).
  - rewrite Henc in Hs, Hd. split; [exact Hs | exact Hd].
Defined.

(** C9: on a presence flag [b], [read_optional] and
    [read_optional_string] decode absent exactly when [b] is 0; on every
    other value of [b], not only 1, they go on to decode the element. *)
Theorem optional_flag_nonzero (host : byte_order) (allocate : Z → allocation)
    {T} (read_func : reader T) (b : byte) (pre post : list byte) :
  let s := IStream (pre ++ b :: post) (length pre) false in
  let s1 := IStream (pre ++ b :: post) (length pre + 1) false in
  (b = Byte.x00 →
     read_optional host read_func s = (Return None, s1) ∧
     read_optional_string host allocate s = (Return None, s1)) ∧
  (b ≠ Byte.x00 →
     read_optional host read_func s
       = (let* v := read_func in reader_ret (Some v)) s1 ∧
     read_optional_string host allocate s
       = (let* v := read_string host allocate in reader_ret (Some v)) s1) ∧
  (∀ s', read_optional host read_func s = (Return None, s') → b = Byte.x00) ∧
  (∀ s', read_optional_string host allocate s = (Return None, s') → b = Byte.x00).
Proof.
  intros s s1.
  assert (Hzero : b = Byte.x00 →
            read_optional host read_func s = (Return None, s1) ∧
            read_optional_string host allocate s = (Return None, s1)).
  { intros ->. unfold read_optional, read_optional_string, reader_bind, s.
    by rewrite read_u8_at. }
  assert (Hnonzero : b ≠ Byte.x00 →
            read_optional host read_func s
              = (let* v := read_func in reader_ret (Some v)) s1 ∧
            read_optional_string host allocate s
              = (let* v := read_string host allocate in reader_ret (Some v)) s1).
  { intros Hb. unfold read_optional, read_optional_string, s.
    rewrite !(reader_bind_return _ _ _ _ _ (read_u8_at host pre b post)).
    destruct (Z.eqb_spec (byte.unsigned b) 0) as [E|_]; [| done].
    by apply byte_unsigned_zero in E. }
  assert (Hpresent : ∀ {A} (r : reader A) s0 s',
            (let* v := r in reader_ret (Some v)) s0 ≠ (Return None, s')).
  { intros A r s0 s'. unfold reader_bind, reader_ret.
    destruct (r s0) as [[a|e] s2]; congruence. }
  repeat split; try (by apply Hzero); try (by apply Hnonzero).
  - intros s' Hs'. destruct (Z.eq_dec (byte.unsigned b) 0) as [E|Hb];
      [by apply byte_unsigned_zero | rewrite byte_unsigned_zero in Hb].
    destruct (Hnonzero Hb) as [Hn _]. rewrite Hn in Hs'.
    by apply Hpresent in Hs'.
  - intros s' Hs'. destruct (Z.eq_dec (byte.unsigned b) 0) as [E|Hb];
      [by apply byte_unsigned_zero | rewrite byte_unsigned_zero in Hb].
    destruct (Hnonzero Hb) as [_ Hn]. rewrite Hn in Hs'.
    by apply Hpresent in Hs'.
Qed.

Lemma optional_flag_nonzero_witness :
  read_optional little_endian (read_u8 little_endian)
                (IStream [Byte.x07; Byte.x09] 0 false)
  = (Return (Some 9), IStream [Byte.x07; Byte.x09] 2 false).
Proof.
  destruct (optional_flag_nonzero little_endian (within 1024)
              (read_u8 little_endian) Byte.x07 [] [Byte.x09]) as (_ & Hnz & _).
  destruct Hnz as [Hn _]; [discriminate |].
  simpl in Hn. rewrite Hn. reflexivity.
Defined.

(** ** Unique index *)

Section UniqueIndexProperties.
Context {K : Type} `{Countable K}.

Lemma unique_inserts_lookup (history : list (K * pointer)) (index : gmap K pointer)
    (key : K) :
  key ∉ history.*1 →
  fold_left (λ index kv, UniqueIndex.insert kv.1 kv.2 index) history index !! key
  = index !! key.
Proof.
  revert index. induction history as [|[k v] history IH]; intros index Hnotin.
  - done.
  - simpl in *. apply not_elem_of_cons in Hnotin as [Hne Hnotin].
    rewrite IH by done. unfold UniqueIndex.insert.
    by rewrite lookup_insert_ne.
Qed.

(** C4: after [insert(k, r1)] and then [insert(k, r2)], [get(k)] returns
    [r2]; and for a key that was never inserted [get] returns the null
    pointer, its not-found result, and [contains] is false. *)
Theorem unique_index_last_write_wins (index : gmap K pointer) (k : K)
    (r1 r2 : pointer) (history : list (K * pointer)) (absent : K) :
  UniqueIndex.get k (UniqueIndex.insert k r2 (UniqueIndex.insert k r1 index)) = r2 ∧
  (absent ∉ history.*1 →
   let built :=
     fold_left (λ index kv, UniqueIndex.insert kv.1 kv.2 index) history
               UniqueIndex.empty in
   UniqueIndex.get absent built = nullptr ∧
   UniqueIndex.contains absent built = false).
Proof.
  split.
  - unfold UniqueIndex.get, UniqueIndex.insert. by rewrite lookup_insert_eq.
  - intros Hnotin built.
    assert (Hlookup : built !! absent = None).
    { unfold built. by rewrite unique_inserts_lookup. }
    unfold UniqueIndex.get, UniqueIndex.contains. rewrite Hlookup.
    split; [done |]. apply bool_decide_eq_false. by intros [? ?].
Qed.

End UniqueIndexProperties.

Lemma unique_index_last_write_wins_witness :
  let built :=
    fold_left (λ index kv, UniqueIndex.insert kv.1 kv.2 index)
              [(1, Ptr 10); (2, Ptr 20)] UniqueIndex.empty in
  UniqueIndex.get 999 built = nullptr ∧ UniqueIndex.contains 999 built = false.
Proof.
  apply (unique_index_last_write_wins (∅ : gmap Z pointer) 1 nullptr nullptr
           [(1, Ptr 10); (2, Ptr 20)] 999).
  simpl. rewrite !not_elem_of_cons. repeat split; (lia || apply not_elem_of_nil).
Defined.

(** ** Group index *)

Section GroupIndexProperties.
Context {K : Type} `{Countable K}.

Lemma group_inserts_get (history : list (K * pointer))
    (index : gmap K (list pointer)) (key : K) :
  default [] (fold_left (λ index kv, GroupIndex.insert kv.1 kv.2 index)
                        history index !! key)
  = default [] (index !! key) ++ (filter (λ kv, kv.1 = key) history).*2.
Proof.
  revert index. induction history as [|[k v] history IH]; intros index; simpl.
  - by rewrite app_nil_r.
  - rewrite IH. unfold GroupIndex.insert. rewrite filter_cons. simpl.
    destruct (decide (k = key)) as [-> | Hne].
    + rewrite lookup_insert_eq. simpl. by rewrite <- app_assoc.
    + by rewrite lookup_insert_ne.
Qed.

Lemma group_inserts_lookup_absent (history : list (K * pointer))
    (index : gmap K (list pointer)) (key : K) :
  key ∉ history.*1 →
  fold_left (λ index kv, GroupIndex.insert kv.1 kv.2 index) history index !! key
  = index !! key.
Proof.
  revert index. induction history as [|[k v] history IH]; intros index Hnotin.
  - done.
  - simpl in *. apply not_elem_of_cons in Hnotin as [Hne Hnotin].
    rewrite IH by done. unfold GroupIndex.insert.
    by rewrite lookup_insert_ne.
Qed.

Lemma group_get_default (index : gmap K (list pointer)) (key : K) :
  GroupIndex.get key index = default [] (index !! key).
Proof. unfold GroupIndex.get. by destruct (index !! key). Qed.

(** C5: after a sequence of [insert] calls, [get(k)] is the sequence of
    the row references inserted under [k], in insertion order; for a key
    without insertions [get] is the empty sequence and [contains] is
    false. *)
Theorem group_index_insertion_order (history : list (K * pointer)) (k : K) :
  let built :=
    fold_left (λ index kv, GroupIndex.insert kv.1 kv.2 index) history
              GroupIndex.empty in
  GroupIndex.get k built = (filter (λ kv, kv.1 = k) history).*2 ∧
  (k ∉ history.*1 →
   GroupIndex.get k built = [] ∧ GroupIndex.contains k built = false).
Proof.
  intros built. split.
  - rewrite group_get_default. unfold built. by rewrite group_inserts_get.
  - intros Hnotin.
    assert (Hlookup : built !! k = None).
    { unfold built. by rewrite group_inserts_lookup_absent. }
    unfold GroupIndex.get, GroupIndex.contains. rewrite Hlookup.
    split; [done |]. apply bool_decide_eq_false. by intros [? ?].
Qed.

End GroupIndexProperties.

Lemma group_index_insertion_order_witness :
  let built :=
    fold_left (λ index kv, GroupIndex.insert kv.1 kv.2 index)
              [(7, Ptr 1); (8, Ptr 2); (7, Ptr 3)] GroupIndex.empty in
  GroupIndex.get 7 built = [Ptr 1; Ptr 3] ∧
  GroupIndex.get 9 built = [] ∧ GroupIndex.contains 9 built = false.
Proof.
  pose proof (group_index_insertion_order
                [(7, Ptr 1); (8, Ptr 2); (7, Ptr 3)] 7) as [Hget _].
  pose proof (group_index_insertion_order
                [(7, Ptr 1); (8, Ptr 2); (7, Ptr 3)] 9) as [_ Habsent].
  split; [exact Hget |].
  apply Habsent.
  simpl. rewrite !not_elem_of_cons. repeat split; (lia || apply not_elem_of_nil).
Defined.

(** ** Row store *)

Section DataTableProperties.
Context {T : Type}.

Lemma allocated_empty : allocated (DataTable.empty_table (T := T)).
Proof. constructor. Qed.

Lemma fresh_cell (rows_ : deque T) :
  cells rows_ !! fresh (dom (cells rows_)) = None.
Proof. apply not_elem_of_dom, is_fresh. Qed.

Lemma allocated_add_row (row : T) (rows_ : deque T) :
  allocated rows_ → allocated (DataTable.add_row row rows_).
Proof.
  unfold allocated, DataTable.add_row, DataTable.push_back; simpl.
  intros Hall. apply Forall_app. split.
  - eapply Forall_impl; [exact Hall |]. intros a [x Hx].
    destruct (decide (fresh (dom (cells rows_)) = a)) as [<- | Hne].
    + by rewrite fresh_cell in Hx.
    + rewrite lookup_insert_ne by done. by exists x.
  - constructor; [| constructor]. rewrite lookup_insert_eq. by eexists.
Qed.

Lemma add_rows_cons (row : T) (more : list T) (rows_ : deque T) :
  DataTable.add_rows (row :: more) rows_
  = DataTable.add_rows more (DataTable.add_row row rows_).
Proof. done. Qed.

Lemma allocated_add_rows (more : list T) (rows_ : deque T) :
  allocated rows_ → allocated (DataTable.add_rows more rows_).
Proof.
  revert rows_. induction more as [|row more IH]; intros rows_ Hall; [done |].
  rewrite add_rows_cons. apply IH. by apply allocated_add_row.
Qed.

Lemma count_add_row (row : T) (rows_ : deque T) :
  DataTable.count (DataTable.add_row row rows_) = S (DataTable.count rows_).
Proof.
  unfold DataTable.count, DataTable.add_row, DataTable.push_back; simpl.
  rewrite length_app. simpl. lia.
Qed.

Lemma count_add_rows (more : list T) (rows_ : deque T) :
  DataTable.count (DataTable.add_rows more rows_)
  = (DataTable.count rows_ + length more)%nat.
Proof.
  revert rows_. induction more as [|row more IH]; intros rows_.
  - simpl. lia.
  - rewrite add_rows_cons, IH, count_add_row. simpl. lia.
Qed.

Lemma address_add_row (row : T) (rows_ : deque T) i p :
  DataTable.address i rows_ = Some p →
  DataTable.address i (DataTable.add_row row rows_) = Some p.
Proof.
  unfold DataTable.address, DataTable.add_row, DataTable.push_back; simpl.
  intros Hp. by apply lookup_app_l_Some.
Qed.

Lemma deref_add_row (row : T) (rows_ : deque T) p :
  is_Some (DataTable.deref p rows_) →
  DataTable.deref p (DataTable.add_row row rows_) = DataTable.deref p rows_.
Proof.
  unfold DataTable.deref, DataTable.add_row, DataTable.push_back; simpl.
  intros [x Hx]. apply lookup_insert_ne. intros <-.
  by rewrite fresh_cell in Hx.
Qed.

Lemma deref_add_rows (more : list T) (rows_ : deque T) p :
  is_Some (DataTable.deref p rows_) →
  DataTable.deref p (DataTable.add_rows more rows_) = DataTable.deref p rows_.
Proof.
  revert rows_. induction more as [|row more IH]; intros rows_ Hp; [done |].
  rewrite add_rows_cons, IH; rewrite deref_add_row; done.
Qed.

Lemma address_add_rows (more : list T) (rows_ : deque T) i p :
  DataTable.address i rows_ = Some p →
  DataTable.address i (DataTable.add_rows more rows_) = Some p.
Proof.
  revert rows_. induction more as [|row more IH]; intros rows_ Hp; [done |].
  rewrite add_rows_cons. apply IH. by apply address_add_row.
Qed.

Lemma address_allocated (rows_ : deque T) i p :
  allocated rows_ → DataTable.address i rows_ = Some p →
  is_Some (DataTable.deref p rows_).
Proof.
  unfold allocated, DataTable.address, DataTable.deref. intros Hall Hp.
  rewrite Forall_forall in Hall. apply Hall.
  by eapply list_elem_of_lookup_2.
Qed.

Lemma at_index_new_row (row : T) (rows_ : deque T) :
  DataTable.at_index (DataTable.count rows_) (DataTable.add_row row rows_)
  = Some row.
Proof.
  unfold DataTable.at_index, DataTable.address, DataTable.deref,
    DataTable.count, DataTable.add_row, DataTable.push_back; simpl.
  rewrite list_lookup_middle by done. simpl. by rewrite lookup_insert_eq.
Qed.

(** C6: in a Row Store built by [add_row] calls, the address of the row
    at a position [i < count()] stays the address of that position, and
    the row read through it stays the same, across any number of further
    [add_row] calls; each [add_row] increases [count()] by exactly one and
    stores its row at the new last position; after [clear] the address no
    longer refers to a row. *)
Theorem row_pointer_stability (history more : list T) (i : nat) (p : addr) :
  let t := DataTable.add_rows history DataTable.empty_table in
  let t' := DataTable.add_rows more t in
  DataTable.address i t = Some p →
  (i < DataTable.count t)%nat ∧
  is_Some (DataTable.deref p t) ∧
  DataTable.address i t' = Some p ∧
  DataTable.deref p t' = DataTable.deref p t ∧
  DataTable.at_index i t' = DataTable.at_index i t ∧
  DataTable.count t' = (DataTable.count t + length more)%nat ∧
  (∀ row, DataTable.count (DataTable.add_row row t) = S (DataTable.count t) ∧
          DataTable.at_index (DataTable.count t) (DataTable.add_row row t)
          = Some row) ∧
  DataTable.deref p (DataTable.clear t') = None.
Proof.
  intros t t' Hp.
  assert (Hall : allocated t) by apply allocated_add_rows, allocated_empty.
  pose proof (address_allocated t i p Hall Hp) as Hsome.
  pose proof (address_add_rows more t i p Hp) as Hp'.
  pose proof (deref_add_rows more t p Hsome) as Hderef.
  repeat split.
  - by eapply lookup_lt_Some.
  - exact Hsome.
  - exact Hp'.
  - exact Hderef.
  - unfold DataTable.at_index, t'. rewrite Hp', Hp. simpl. exact Hderef.
  - apply count_add_rows.
  - apply count_add_row.
  - apply at_index_new_row.
Qed.

End DataTableProperties.

Lemma row_pointer_stability_witness :
  let t := DataTable.add_rows ["a"; "b"]%string DataTable.empty_table in
  let t' := DataTable.add_rows ["c"; "d"; "e"]%string t in
  DataTable.address 1 t' = Some 2%positive ∧
  DataTable.deref 2%positive t' = Some "b"%string ∧
  DataTable.count t' = 5%nat.
Proof.
  intros t t'.
  destruct (row_pointer_stability ["a"; "b"]%string ["c"; "d"; "e"]%string
              1 2%positive) as (_ & _ & Haddr & Hderef & _ & Hcount & _).
  - reflexivity.
  - split; [exact Haddr |]. split; [| exact Hcount].
    unfold t', t. rewrite Hderef. reflexivity.
Defined.

(** ** Clearing a schema container *)

Section ContainerProperties.
Context {T K : Type} `{Countable K}.

Lemma get_by_clear (n : nat) (key : K) (c : SchemaContainer.table (T := T)) :
  SchemaContainer.get_by n key (SchemaContainer.clear c) = nullptr.
Proof.
  unfold SchemaContainer.get_by, SchemaContainer.clear; simpl.
  rewrite list_lookup_fmap. destruct (SchemaContainer.unique_ c !! n); [| done].
  simpl. unfold UniqueIndex.get, UniqueIndex.clear. by rewrite lookup_empty.
Qed.

Lemma get_group_clear (n : nat) (key : K) (c : SchemaContainer.table (T := T)) :
  SchemaContainer.get_group n key (SchemaContainer.clear c) = [].
Proof.
  unfold SchemaContainer.get_group, SchemaContainer.clear; simpl.
  rewrite list_lookup_fmap. destruct (SchemaContainer.group_ c !! n); [| done].
  simpl. unfold GroupIndex.get, GroupIndex.clear. by rewrite lookup_empty.
Qed.

(** C7: after [clear()] on a populated schema container, [count()] is 0
    and every lookup in every index, in particular for a key that was
    present before, reports not-found: the null pointer from a unique
    index, the empty sequence from a group index. *)
Theorem container_clear (unique_columns group_columns : list (T → K))
    (history : list T) (n : nat) (key : K) :
  let c := SchemaContainer.populate unique_columns group_columns history in
  SchemaContainer.count (SchemaContainer.clear c) = 0%nat ∧
  SchemaContainer.get_by n key (SchemaContainer.clear c) = nullptr ∧
  SchemaContainer.get_group n key (SchemaContainer.clear c) = [] ∧
  DataTable.count (DataTable.clear (SchemaContainer.rows_ c)) = 0%nat ∧
  (∀ index : gmap K pointer,
     UniqueIndex.get key (UniqueIndex.clear index) = nullptr ∧
     UniqueIndex.contains key (UniqueIndex.clear index) = false) ∧
  (∀ index : gmap K (list pointer),
     GroupIndex.get key (GroupIndex.clear index) = [] ∧
     GroupIndex.contains key (GroupIndex.clear index) = false).
Proof.
  intros c. split; [done |]. split; [apply get_by_clear |].
  split; [apply get_group_clear |]. split; [done |].
  split; intros index.
  - unfold UniqueIndex.get, UniqueIndex.contains, UniqueIndex.clear.
    rewrite lookup_empty. split; [done |].
    apply bool_decide_eq_false. by intros [? ?].
  - unfold GroupIndex.get, GroupIndex.contains, GroupIndex.clear.
    rewrite lookup_empty. split; [done |].
    apply bool_decide_eq_false. by intros [? ?].
Qed.

End ContainerProperties.

(** The scenario of [test_clear]: one user with id 1 is found by id, and
    is not found once the table is cleared. *)
Example container_clear_test :
  let users := SchemaContainer.populate [fst] [] [(1, "test"%string)] in
  SchemaContainer.count users = 1%nat ∧
  SchemaContainer.get_by 0 1 users = Ptr 1 ∧
  SchemaContainer.count (SchemaContainer.clear users) = 0%nat ∧
  SchemaContainer.get_by 0 1 (SchemaContainer.clear users) = nullptr.
Proof. by vm_compute. Qed.

(** ** Pack codec *)

Section PackProperties.
Context {V : Type}.
Implicit Types (fs : list (string → option V)) (parts : list string).

Lemma parse_parts_None fs parts :
  length parts = length fs →
  Pack.parse_parts fs parts = None ↔
  ∃ (i : nat) (f : string → option V) (part : string),
    fs !! i = Some f ∧ parts !! i = Some part ∧ f part = None.
Proof.
  revert parts. induction fs as [|f fs IH]; intros [|part parts] Hlen;
    simpl in *; try lia.
  - split; [done |]. by intros (i & f & part & Hf & _).
  - injection Hlen as Hlen. specialize (IH parts Hlen).
    destruct (f part) as [v|] eqn:Hf.
    + destruct (Pack.parse_parts fs parts) as [vs|] eqn:Hrest.
      * split; [done |]. intros ([|i] & g & q & Hg & Hq & Hnone); simpl in *.
        -- congruence.
        -- assert (Some vs = None) as E by (apply IH; by exists i, g, q).
           done.
      * split; [| done]. intros _.
        destruct (proj1 IH eq_refl) as (i & g & q & Hg & Hq & Hnone).
        by exists (S i), g, q.
    + split; [| done]. intros _. by exists 0%nat, f, part.
Qed.

Lemma parse_parts_positional fs parts value :
  Pack.parse_parts fs parts = Some value →
  length value = length fs ∧
  ∀ (i : nat) (f : string → option V) (part : string),
    fs !! i = Some f → parts !! i = Some part → f part = value !! i.
Proof.
  revert parts value. induction fs as [|f fs IH]; intros parts value Hparse.
  - simpl in Hparse. injection Hparse as <-. split; [done |]. by intros i.
  - destruct parts as [|part parts]; simpl in Hparse; [done |].
    destruct (f part) as [v|] eqn:Hf; [| done].
    destruct (Pack.parse_parts fs parts) as [vs|] eqn:Hrest; [| done].
    injection Hparse as <-. destruct (IH parts vs Hrest) as [Hlen Hpos].
    split; [simpl; by rewrite Hlen |].
    intros [|i] g q Hg Hq; simpl in *.
    + congruence.
    + by apply Hpos.
Qed.

Lemma try_parse_parts_ok fs parts value out :
  Pack.parse_parts fs parts = Some value →
  Pack.try_parse_parts fs parts out = (true, value).
Proof.
  revert parts value out. induction fs as [|f fs IH]; intros parts value out Hparse.
  - simpl in *. congruence.
  - destruct parts as [|part parts]; simpl in *; [done |].
    destruct (f part) as [v|]; [| done].
    destruct (Pack.parse_parts fs parts) as [vs|] eqn:Hrest; [| done].
    injection Hparse as <-. by rewrite (IH parts vs (tail out)).
Qed.

Lemma try_parse_parts_fail fs parts out :
  Pack.parse_parts fs parts = None →
  (Pack.try_parse_parts fs parts out).1 = false.
Proof.
  revert parts out. induction fs as [|f fs IH]; intros parts out Hparse.
  - done.
  - destruct parts as [|part parts]; simpl in *; [done |].
    destruct (f part) as [v|]; [| done].
    destruct (Pack.parse_parts fs parts) as [vs|] eqn:Hrest; [done |].
    specialize (IH parts (tail out) Hrest).
    by destruct (Pack.try_parse_parts fs parts (tail out)).
Qed.

Lemma unpack_inl_iff (delimiter : ascii) fs (s : string) :
  (∃ e, Pack.unpack delimiter fs s = inl e) ↔
  Pack.arity_mismatch delimiter fs s ∨ Pack.parse_failure delimiter fs s.
Proof.
  unfold Pack.unpack, Pack.arity_mismatch, Pack.parse_failure.
  destruct (decide (length (Pack.split delimiter s) = length fs)) as [Hlen|Hlen].
  - destruct (Pack.parse_parts fs (Pack.split delimiter s)) as [value|] eqn:Hparse.
    + split; [by intros [e ?] |]. intros [Hne | Hfail]; [done |].
      apply (parse_parts_None _ _ Hlen) in Hfail. congruence.
    + split; [| by eexists]. intros _. right. by apply (parse_parts_None _ _ Hlen).
  - split; [by left | by eexists].
Qed.

Lemma try_unpack_false_iff (delimiter : ascii) fs (s : string) (out : list V) :
  (Pack.try_unpack delimiter fs s out).1 = false ↔
  ∃ e, Pack.unpack delimiter fs s = inl e.
Proof.
  unfold Pack.unpack, Pack.try_unpack.
  destruct (decide (length (Pack.split delimiter s) = length fs)) as [Hlen|Hlen].
  - destruct (Pack.parse_parts fs (Pack.split delimiter s)) as [value|] eqn:Hparse.
    + rewrite (try_parse_parts_ok _ _ value) by done.
      split; [done | by intros [e ?]].
    + split; [by eexists |]. intros _. by apply try_parse_parts_fail.
  - split; [by eexists | done].
Qed.

Lemma unpack_inr (delimiter : ascii) fs (s : string) (out value : list V) :
  Pack.unpack delimiter fs s = inr value →
  Pack.try_unpack delimiter fs s out = (true, value) ∧
  length value = length fs ∧
  ∀ (i : nat) (f : string → option V) (part : string),
    fs !! i = Some f → Pack.split delimiter s !! i = Some part →
    f part = value !! i.
Proof.
  unfold Pack.unpack, Pack.try_unpack.
  destruct (decide (length (Pack.split delimiter s) = length fs)); [| done].
  destruct (Pack.parse_parts fs (Pack.split delimiter s)) as [vs|] eqn:Hparse;
    [| done].
  intros [= <-]. split; [by apply try_parse_parts_ok |].
  by apply parse_parts_positional.
Qed.

(** C8: [unpack] signals a failure exactly when the number of parts
    obtained by splitting on the delimiter is not the number of fields or
    some part does not parse as its field's type, and otherwise returns
    the fields parsed positionally; [try_unpack] returns [false] exactly
    when [unpack] fails, and [true] with the value of [unpack] otherwise.
    On the two-field floating-point type of the tests,
    [try_unpack("invalid")] fails and [try_unpack("1.0;2.0")] succeeds
    with (1.0, 2.0). *)
Theorem unpack_failure (delimiter : ascii) (fields : list (string → option V))
    (s : string) (out : list V) :
  ((∃ e, Pack.unpack delimiter fields s = inl e) ↔
   Pack.arity_mismatch delimiter fields s ∨ Pack.parse_failure delimiter fields s) ∧
  ((Pack.try_unpack delimiter fields s out).1 = false ↔
   ∃ e, Pack.unpack delimiter fields s = inl e) ∧
  (∀ value, Pack.unpack delimiter fields s = inr value →
     Pack.try_unpack delimiter fields s out = (true, value) ∧
     length value = length fields ∧
     ∀ (i : nat) (f : string → option V) (part : string),
       fields !! i = Some f → Pack.split delimiter s !! i = Some part →
       f part = value !! i) ∧
  (∀ out' : list Q,
     (Pack.try_unpack Pack.Position_delimiter Pack.Position_fields
                      "invalid" out').1 = false ∧
     Pack.try_unpack Pack.Position_delimiter Pack.Position_fields
                     "1.0;2.0" out' = (true, [Qmake 1 1; Qmake 2 1])).
Proof.
  split; [apply unpack_inl_iff |].
  split; [apply try_unpack_false_iff |].
  split; [intros value; apply unpack_inr |].
  intros out'. split; reflexivity.
Qed.

End PackProperties.

Lemma unpack_failure_witness :
  (Pack.try_unpack Pack.Position_delimiter Pack.Position_fields
                   "100.5;oops" []).1 = false
  ∧ Pack.try_unpack Pack.Position_delimiter Pack.Position_fields
                    "100.5;200.3" [] = (true, [Qmake 201 2; Qmake 2003 10]).
Proof.
  split.
  - destruct (unpack_failure Pack.Position_delimiter Pack.Position_fields
                "100.5;oops" []) as (Hfail & Htry & _).
    apply Htry, Hfail. right.
    exists 1%nat, Pack.parse_float, "oops"%string. repeat split.
  - destruct (unpack_failure Pack.Position_delimiter Pack.Position_fields
                "100.5;200.3" []) as (_ & _ & Hok & _).
    apply (Hok [Qmake 201 2; Qmake 2003 10]). reflexivity.
Defined.

(** ** A writer over a byte vector *)

Lemma emits_encoding host c bs :
  emits (run_call host c) bs → emits (run_call host c) (encoding host c).
Proof.
  intros Hc. unfold encoding. by rewrite (serialize_emits _ _ Hc).
Qed.

Lemma run_call_emits host : ∀ c, emits (run_call host c) (encoding host c).
Proof.
  fix IH 1. intros c. destruct c as
    [v|v|v|v|v|v|v|v|v|v|b|v|[item|]|value|items|v|v];
    eapply emits_encoding; simpl.
  - apply write_u8_emits.
  - apply write_u16_emits.
  - apply write_u32_emits.
  - apply write_u64_emits.
  - apply (write_u8_emits host (wrap 8 v)).
  - apply (write_u16_emits host (wrap 16 v)).
  - apply (write_u32_emits host (wrap 32 v)).
  - apply (write_u64_emits host (wrap 64 v)).
  - apply write_u32_emits.
  - apply write_u64_emits.
  - apply (write_u8_emits host (if b then 1 else 0)).
  - apply write_string_emits.
  - pose proof (IH item) as Hitem.
    apply (write_optional_emits host (Some item)
             (λ w item, run_call host item w) (encoding host)).
    intros ? [= <-]. exact Hitem.
  - apply (write_optional_emits host None
             (λ w item, run_call host item w) (encoding host)).
    intros ? [=].
  - apply write_optional_string_emits.
  - apply (write_vector_emits host items (λ w item, run_call host item w)
             (encoding host)).
    induction items as [|item items IHitems]; constructor.
    + apply IH.
    + apply IHitems.
  - apply write_bytes_emits.
  - apply write_enum_emits.
Qed.

Lemma run_calls_emits host calls w pre m :
  run_calls host calls w (ostream_write (stream_ w) pre m)
  = ostream_write (stream_ w) (pre ++ concat (encoding host <$> calls)) m.
Proof.
  apply (fold_write_emits calls (λ w c, run_call host c w) (encoding host)).
  apply Forall_forall. intros c _. apply run_call_emits.
Qed.

Lemma run_calls_writes host calls w m :
  run_calls host calls w m
  = ostream_write (stream_ w) (concat (encoding host <$> calls)) m.
Proof.
  rewrite <- (ostream_write_nil (stream_ w) m) at 1.
  by rewrite run_calls_emits.
Qed.

Lemma flush_ostream_write data s bs m :
  flush (Writer (Some data) (Some s) s) (ostream_write s bs m)
  = ostream_write s bs
      (Mem (<[data := ostream_str s (ostream_write s bs m)]> (vectors m))
           (ostreams m)).
Proof. done. Qed.

Lemma ostream_str_owned s bs vs os :
  ostream_str s (ostream_write s bs (Mem vs (<[s := ostringstream]> os))) = bs.
Proof.
  by rewrite (ostream_str_write _ _ _ ostringstream);
    [unfold ostream_str; cbn [ostreams]; rewrite lookup_insert_eq
    | apply lookup_insert_eq |].
Qed.

(** C10: for a writer constructed over a byte vector, no sequence of
    write calls changes the vector (nor any other vector); [flush()], and
    likewise the destructor, replaces the contents of the vector, whatever
    they were, by the concatenation of the encodings of all the calls made
    so far, in the order of the calls, and changes no other vector. *)
Theorem writer_flush (host : byte_order) (m : Memory) (data : addr)
    (calls more : list write_call) :
  let w := (writer_of_vector data m).1 in
  let m1 := (writer_of_vector data m).2 in
  let m2 := run_calls host calls w m1 in
  vectors m1 = vectors m ∧
  vectors m2 = vectors m ∧
  vectors (flush w m2)
    = <[data := concat (encoding host <$> calls)]> (vectors m) ∧
  vectors (destroy w m2)
    = <[data := concat (encoding host <$> calls)]> (vectors m) ∧
  vectors (flush w m2) !! data = Some (concat (encoding host <$> calls)) ∧
  vectors (run_calls host more w (flush w m2)) = vectors (flush w m2) ∧
  vectors (flush w (run_calls host more w (flush w m2))) !! data
    = Some (concat (encoding host <$> (calls ++ more))).
Proof.
  intros w m1 m2. subst w m1 m2.
  destruct (writer_of_vector_spec data m) as (s & _ & ->). cbn [fst snd].
  rewrite destroy_vectors, (run_calls_writes host calls).
  cbn [stream_]. rewrite flush_ostream_write, ostream_str_owned.
  rewrite (run_calls_writes host more). cbn [stream_].
  rewrite ostream_write_app, flush_ostream_write.
  rewrite !vectors_ostream_write. cbn [vectors ostreams].
  rewrite ostream_str_owned, !lookup_insert_eq.
  repeat split.
  by rewrite fmap_app, concat_app.
Qed.

Lemma writer_flush_witness :
  let buffer := 1%positive in
  let m := Mem {[ buffer := [Byte.xff] ]} ∅ in
  let w := (writer_of_vector buffer m).1 in
  let m2 := run_calls little_endian [call_u16 258; call_bool true] w
                      (writer_of_vector buffer m).2 in
  vectors m2 !! buffer = Some [Byte.xff] ∧
  vectors (flush w m2) !! buffer = Some [Byte.x02; Byte.x01; Byte.x01].
Proof.
  intros buffer m w m2.
  destruct (writer_flush little_endian m buffer
              [call_u16 258; call_bool true] [])
    as (_ & Hsame & _ & _ & Hflush & _).
  split.
  - unfold m2, w. rewrite Hsame. reflexivity.
  - exact Hflush.
Defined.

(* ====================================================================== *)
(** * Part III: further properties of the support library                  *)
(* ====================================================================== *)

(** ** Sequences *)

Lemma read_items_decodes {T} (read_func : reader T) (enc : T → list byte)
    (items result : list T) :
  Forall (λ item, decodes read_func (enc item) item) items →
  decodes (read_items read_func (length items) result)
          (concat (enc <$> items)) (result ++ items).
Proof.
  intros Hitems. revert result.
  induction Hitems as [|item items Hitem _ IH]; intros result; simpl.
  - rewrite app_nil_r. apply decodes_ret.
  - eapply decodes_bind; [exact Hitem |].
    rewrite (cons_middle item result items), app_assoc. apply IH.
Qed.

Lemma read_vector_decodes host allocate {T} (read_func : reader T)
    (enc : T → list byte) (items : list T) :
  Z.of_nat (length items) < 2 ^ 32 →
  grants allocate (Z.of_nat (length items)) →
  Forall (λ item, decodes read_func (enc item) item) items →
  decodes (read_vector host allocate read_func)
          (object_repr host 4 (wrap 32 (Z.of_nat (length items)))
           ++ concat (enc <$> items)) items.
Proof.
  intros Hlen Hgrants Hitems. unfold read_vector.
  eapply decodes_bind; [apply read_u32_decodes |].
  rewrite wrap_wrap by lia. rewrite wrap_small by (unfold is_unsigned; lia).
  apply decodes_reserve; [done |].
  rewrite Nat2Z.id. by apply (read_items_decodes read_func enc items []).
Qed.

(** X1: a sequence of fewer than 2^32 elements is written as its element
    count, as a u32, followed by the encodings of the elements in order,
    and is read back as the same elements in the same order, for an
    element writer that appends the encoding of each element and an
    element reader that decodes it, on a host that grants the storage that
    [read_vector] reserves for the count. *)
Theorem vector_roundtrip (host : byte_order) (allocate : Z → allocation) {T}
    (write_func : BinaryWriter → T → Memory → Memory) (read_func : reader T)
    (enc : T → list byte) (items : list T) :
  Z.of_nat (length items) < 2 ^ 32 →
  grants allocate (Z.of_nat (length items)) →
  Forall (λ item, emits (λ w, write_func w item) (enc item) ∧
                  decodes read_func (enc item) item) items →
  serialize (λ w, write_vector host w items write_func)
    = serialize (λ w, write_u32 host w (Z.of_nat (length items)))
      ++ concat (enc <$> items) ∧
  deserialize (read_vector host allocate read_func)
              (serialize (λ w, write_vector host w items write_func))
    = Return items.
Proof.
  intros Hlen Hgrants Hitems. apply Forall_and in Hitems as [Hw Hr].
  rewrite (serialize_emits _ _ (write_vector_emits host items write_func enc Hw)).
  rewrite (serialize_emits _ _ (write_u32_emits host _)).
  rewrite wrap_small by (unfold is_unsigned; lia). split; [done |].
  apply decodes_deserialize.
  rewrite <- (wrap_small 32 (Z.of_nat (length items)))
    by (unfold is_unsigned; lia).
  by apply read_vector_decodes.
Qed.

Lemma vector_roundtrip_witness :
  deserialize (read_vector big_endian (within 1024) (read_u16 big_endian))
              (serialize (λ w, write_vector big_endian w [1; 258; 65535]
                                 (write_u16 big_endian)))
  = Return [1; 258; 65535].
Proof.
  apply (vector_roundtrip big_endian (within 1024) (write_u16 big_endian)
           (read_u16 big_endian) (object_repr big_endian 2) [1; 258; 65535]).
  - simpl. lia.
  - right. reflexivity.
  - repeat constructor; try apply write_u16_emits.
    + apply (read_u16_decodes big_endian 1).
    + apply (read_u16_decodes big_endian 258).
    + apply (read_u16_decodes big_endian 65535).
Defined.

(** ** Length prefixes *)

Lemma istream_read_prefix pre bs post (n : nat) :
  (n ≤ length bs)%nat →
  istream_read n (IStream (pre ++ bs ++ post) (length pre) false)
  = (take n bs, IStream (pre ++ bs ++ post) (length pre + n) false).
Proof.
  intros Hn. unfold istream_read; simpl.
  rewrite drop_app_length.
  rewrite decide_True by (rewrite length_app; lia).
  by rewrite take_app_le.
Qed.

Lemma wrap_le_self z : 0 ≤ z → wrap 32 z ≤ z.
Proof. intros Hz. unfold wrap. apply Z.mod_le; lia. Qed.

Lemma wrap_nonneg z : 0 ≤ wrap 32 z.
Proof. unfold wrap. apply Z.mod_pos_bound. lia. Qed.

Lemma read_u32_prefix host (v : Z) (rest : list byte) :
  read_u32 host (reader_of_vector (object_repr host 4 v ++ rest))
  = (Return (wrap 32 v),
     IStream (object_repr host 4 v ++ rest) 4 false).
Proof.
  pose proof (read_u32_decodes host v [] rest) as Hd. simpl in Hd.
  by rewrite length_object_repr in Hd.
Qed.

Lemma read_payload_prefix host {T} (f : list byte → T) (v : Z) (n : nat)
    (bs : list byte) :
  (n ≤ length bs)%nat →
  (let* value := stream_read n in check_read >>; reader_ret (f value))
    (IStream (object_repr host 4 v ++ bs) 4 false)
  = (Return (f (take n bs)), IStream (object_repr host 4 v ++ bs) (4 + n) false).
Proof.
  intros Hn. unfold reader_bind, stream_read.
  pose proof (istream_read_prefix (object_repr host 4 v) bs [] n Hn) as Hr.
  rewrite app_nil_r, length_object_repr in Hr. by rewrite Hr.
Qed.

(** X2: whatever the length of a string or of a byte blob, reading back
    what [write_string] or [write_bytes] wrote returns its first
    [size mod 2^32] bytes: the value itself when its size is below 2^32,
    a proper prefix of it otherwise; this on a host that grants the
    storage for [size mod 2^32] bytes. *)
Theorem length_prefix_wraps (host : byte_order) (allocate : Z → allocation)
    (s : string) (l : list byte) :
  (grants allocate (wrap 32 (Z.of_nat (String.length s))) →
   deserialize (read_string host allocate)
               (serialize (λ w, write_string host w s))
   = Return (String.string_of_list_byte
               (take (Z.to_nat (wrap 32 (Z.of_nat (String.length s))))
                     (String.list_byte_of_string s)))) ∧
  (grants allocate (wrap 32 (Z.of_nat (length l))) →
   deserialize (read_bytes host allocate) (serialize (λ w, write_bytes host w l))
   = Return (take (Z.to_nat (wrap 32 (Z.of_nat (length l)))) l)).
Proof.
  split; intros Hgrants.
  - rewrite (serialize_emits _ _ (write_string_emits host s)).
    unfold deserialize, read_string.
    rewrite (reader_bind_return _ _ _ _ _ (read_u32_prefix host _ _)).
    rewrite wrap_wrap by lia.
    destruct (Z.eqb_spec (wrap 32 (Z.of_nat (String.length s))) 0) as [-> | Hne].
    + done.
    + unfold reader_bind at 1. rewrite (reserve_granted _ _ Hgrants).
      cbn [reader_ret]. rewrite read_payload_prefix; [done |].
      rewrite length_list_byte_of_string.
      pose proof (wrap_le_self (Z.of_nat (String.length s))). lia.
  - rewrite (serialize_emits _ _ (write_bytes_emits host l)).
    unfold deserialize, read_bytes.
    rewrite (reader_bind_return _ _ _ _ _ (read_u32_prefix host _ _)).
    rewrite wrap_wrap by lia.
    unfold reader_bind at 1. rewrite (reserve_granted _ _ Hgrants).
    cbn [reader_ret].
    destruct (Z.ltb_spec 0 (wrap 32 (Z.of_nat (length l)))) as [Hpos | Hle].
    + rewrite (read_payload_prefix host (λ result, result)); [done |].
      pose proof (wrap_le_self (Z.of_nat (length l))). lia.
    + pose proof (wrap_nonneg (Z.of_nat (length l))).
      by replace (wrap 32 (Z.of_nat (length l))) with 0 by lia.
Qed.

Lemma length_prefix_wraps_witness :
  deserialize (read_string little_endian (within 1024))
              (serialize (λ w, write_string little_endian w "abc"))
  = Return "abc"%string.
Proof.
  destruct (length_prefix_wraps little_endian (within 1024) "abc" [])
    as [Hstr _].
  apply Hstr. right. reflexivity.
Defined.

(** ** Optional strings and enumerations *)

Lemma read_optional_string_eq host allocate :
  read_optional_string host allocate
  = read_optional host (read_string host allocate).
Proof. done. Qed.

(** X3: an optional string round-trips: absent as the byte 0, present as
    the byte 1 followed by the string, for strings shorter than 2^32
    bytes on a host that grants the storage for the string;
    [write_optional_string] writes what the generic [write_optional]
    writes with [write_string] as the element writer. *)
Theorem optional_string_roundtrip (host : byte_order)
    (allocate : Z → allocation) (o : option string) :
  (∀ s, o = Some s → Z.of_nat (String.length s) < 2 ^ 32 ∧
                     grants allocate (Z.of_nat (String.length s))) →
  roundtrips (write_optional_string host) (read_optional_string host allocate) o ∧
  serialize (λ w, write_optional_string host w o)
    = serialize (λ w, write_optional host w o (write_string host)) ∧
  serialize (λ w, write_optional_string host w o)
    = match o with
      | Some s => Byte.x01 :: serialize (λ w, write_string host w s)
      | None => [Byte.x00]
      end.
Proof.
  intros Hlen. split; [| split; [done |]].
  - eapply emits_decodes_roundtrips; [apply write_optional_string_emits |].
    rewrite read_optional_string_eq. destruct o as [s|].
    + apply read_optional_decodes_some, read_string_decodes; by apply Hlen.
    + unfold read_optional. rewrite <- (app_nil_r (object_repr host 1 _)).
      eapply decodes_bind; [apply read_u8_decodes |].
      change (wrap 8 0 =? 0) with true. apply decodes_ret.
  - rewrite (serialize_emits _ _ (write_optional_string_emits host o)).
    destruct o as [s|].
    + rewrite (serialize_emits _ _ (write_string_emits host s)).
      by rewrite (object_repr_flag host true).
    + apply (object_repr_flag host false).
Qed.

Lemma optional_string_roundtrip_witness :
  roundtrips (write_optional_string little_endian)
             (read_optional_string little_endian (within 1024)) (Some "name"%string)
  ∧ roundtrips (write_optional_string little_endian)
               (read_optional_string little_endian (within 1024)) None.
Proof.
  split.
  - apply (optional_string_roundtrip little_endian (within 1024)
             (Some "name"%string)).
    intros s [= <-]. split; [simpl; lia | right; reflexivity].
  - apply (optional_string_roundtrip little_endian (within 1024) None).
    intros s [=].
Defined.

Lemma swrap_range bits z : 0 < bits → is_signed bits (swrap bits z).
Proof.
  intros Hb. unfold is_signed, swrap.
  assert (Hp : 2 ^ bits = 2 * 2 ^ (bits - 1)).
  { rewrite <- Z.pow_succ_r by lia. f_equal. lia. }
  assert (0 < 2 ^ (bits - 1)) by (apply Z.pow_pos_nonneg; lia).
  pose proof (Z.mod_pos_bound (z + 2 ^ (bits - 1)) (2 ^ bits)). lia.
Qed.

Lemma reader_map_inv {A B} (r : reader A) (f : A → B) s b s' :
  (let* x := r in reader_ret (f x)) s = (Return b, s') →
  ∃ a, r s = (Return a, s') ∧ b = f a.
Proof.
  unfold reader_bind, reader_ret. destruct (r s) as [[a|e] s1]; [| done].
  intros [= <- <-]. by exists a.
Qed.

Lemma swrap_wrap_32 z : swrap 32 (wrap 32 z) = swrap 32 z.
Proof. unfold wrap, swrap. by rewrite Zplus_mod_idemp_l. Qed.

Lemma cast_range signed bits z : 0 < bits → in_range signed bits (cast signed bits z).
Proof.
  intros Hbits. destruct signed; simpl; [by apply swrap_range |].
  unfold is_unsigned, wrap. apply Z.mod_pos_bound, Z.pow_pos_nonneg; lia.
Qed.

Lemma wrap_wrap_le bits z : 0 ≤ bits ≤ 32 → wrap bits (wrap 32 z) = wrap bits z.
Proof.
  intros Hbits. unfold wrap. apply Z.mod_mod_divide.
  exists (2 ^ (32 - bits)). rewrite <- Z.pow_add_r by lia. f_equal. lia.
Qed.

Lemma cast_swrap_32 signed bits v :
  0 < bits → in_range signed bits v → bits ≤ 32 ∨ is_signed 32 v →
  cast signed bits (swrap 32 v) = v.
Proof.
  intros Hbits Hv Hfit.
  assert (H32 : is_signed 32 v → cast signed bits (swrap 32 v) = v).
  { intros H. rewrite <- (swrap_wrap_32 v), (swrap_wrap 32 v) by (done || lia).
    destruct signed; simpl in *.
    - rewrite <- (swrap_wrap bits v) at 2 by done. unfold swrap, wrap.
      by rewrite Zplus_mod_idemp_l.
    - by apply wrap_small. }
  destruct Hfit as [Hle | H]; [| by apply H32].
  destruct signed; simpl in *.
  - apply H32. unfold is_signed in *.
    assert (2 ^ (bits - 1) ≤ 2 ^ (32 - 1)) by (apply Z.pow_le_mono_r; lia). lia.
  - rewrite <- (wrap_wrap_le bits (swrap 32 v)), wrap_swrap by lia.
    rewrite wrap_wrap_le by lia. by apply wrap_small.
Qed.

(** X4: an enumeration is written as its discriminant cast to [int32_t],
    in the layout of an i32, and read back as that i32 cast to the
    enumeration, that is converted to its underlying type.  A discriminant
    round-trips when the underlying type has at most 32 bits, signed or
    not, and for a wider underlying type when it is in the range of
    [int32_t]; whatever the input, the discriminant that [read_enum]
    returns is in the range of the underlying type. *)
Theorem enum_roundtrip (host : byte_order) (signed : bool) (bits : Z) (v : Z) :
  0 < bits →
  deserialize (read_enum host signed bits) (serialize (λ w, write_enum host w v))
    = Return (cast signed bits (swrap 32 v)) ∧
  (in_range signed bits v → bits ≤ 32 ∨ is_signed 32 v →
   roundtrips (write_enum host) (read_enum host signed bits) v) ∧
  serialize (λ w, write_enum host w v)
    = serialize (λ w, write_i32 host w (swrap 32 v)) ∧
  serialize (λ w, write_enum host w v) = serialize (λ w, write_i32 host w v) ∧
  (∀ s d s', read_enum host signed bits s = (Return d, s') →
             in_range signed bits d).
Proof.
  intros Hbits.
  assert (Hread : deserialize (read_enum host signed bits)
                    (serialize (λ w, write_enum host w v))
                  = Return (cast signed bits (swrap 32 v))).
  { rewrite (serialize_emits _ _ (write_enum_emits host v)).
    apply decodes_deserialize. unfold read_enum, read_i32.
    replace (swrap 32 v) with (swrap 32 (wrap 32 (wrap 32 v)))
      by (by rewrite wrap_wrap, swrap_wrap_32 by lia).
    apply (decodes_map _ (cast signed bits)),
      (decodes_map (read_u32 host) (swrap 32)), read_u32_decodes. }
  split_and!; [done | | done | |].
  - intros Hv Hfit. unfold roundtrips. rewrite Hread.
    by rewrite cast_swrap_32.
  - rewrite (serialize_emits _ _ (write_enum_emits host v)).
    by rewrite (serialize_emits (λ w, write_i32 host w v) _
                  (write_u32_emits host (wrap 32 v))).
  - intros s d s' Hread'.
    apply (reader_map_inv (read_i32 host) (cast signed bits)) in Hread'
      as (a & _ & ->).
    by apply cast_range.
Qed.

Lemma enum_roundtrip_witness :
  roundtrips (write_enum little_endian) (read_enum little_endian false 32)
             4294967295
  ∧ roundtrips (write_enum little_endian) (read_enum little_endian true 8) (-3).
Proof.
  split.
  - destruct (enum_roundtrip little_endian false 32 4294967295) as (_ & H & _);
      [lia |].
    apply H; [unfold in_range, is_unsigned; lia | left; lia].
  - destruct (enum_roundtrip little_endian true 8 (-3)) as (_ & H & _); [lia |].
    apply H; [unfold in_range, is_signed; lia | left; lia].
Defined.

(** ** Booleans *)

(** X5: [write_bool] writes the byte 1 for [true] and 0 for [false];
    [read_bool] consumes one byte and returns [false] for the byte 0 and
    [true] for each of the 255 other bytes. *)
Theorem read_bool_nonzero (host : byte_order) (b : byte) (value : bool)
    (pre post : list byte) :
  serialize (λ w, write_bool host w value)
    = [if value then Byte.x01 else Byte.x00] ∧
  read_bool host (IStream (pre ++ b :: post) (length pre) false)
    = (Return (negb (byte.unsigned b =? 0)),
       IStream (pre ++ b :: post) (length pre + 1) false) ∧
  (negb (byte.unsigned b =? 0) = false ↔ b = Byte.x00).
Proof.
  split; [| split].
  - rewrite (serialize_emits (λ w, write_bool host w value) _
               (write_u8_emits host (if value then 1 else 0))).
    apply object_repr_flag.
  - unfold read_bool.
    by rewrite (reader_bind_return _ _ _ _ _ (read_u8_at host pre b post)).
  - rewrite negb_false_iff, Z.eqb_eq. apply byte_unsigned_zero.
Qed.

(** ** When a read succeeds *)

Lemma object_value_range host bs :
  0 ≤ object_value host bs < 2 ^ (8 * Z.of_nat (length bs)).
Proof.
  destruct host; simpl.
  - apply le_combine_bound.
  - rewrite <- length_rev. apply le_combine_bound.
Qed.

Lemma reads_exactly_raw {T} (f : list byte → T) (n : nat) (P : T → Prop) :
  (∀ bs, length bs = n → P (f bs)) →
  reads_exactly (let* value := stream_read n in
                 check_read >>; reader_ret (f value)) n P.
Proof.
  intros HP s. unfold reader_bind, stream_read, check_read, reader_ret,
    istream_read, remaining.
  destruct (failbit s) eqn:Hfail; simpl.
  - rewrite Hfail. split.
    + split; [by intros (v & s' & ?) | by intros [? _]].
    + by intros v s'.
  - destruct (decide (n ≤ length (drop (gpos s) (buffer s)))%nat) as [Hle|Hgt];
      simpl.
    + split.
      * split; [done | by eexists _, _].
      * intros v s' [= <- <-]. split; [done |].
        apply HP. rewrite length_take. lia.
    + split.
      * split; [by intros (v & s' & ?) | by intros [_ ?]].
      * by intros v s'.
Qed.

Lemma reads_exactly_map {A B} (r : reader A) (f : A → B) n
    (P : A → Prop) (Q : B → Prop) :
  (∀ a, P a → Q (f a)) →
  reads_exactly r n P → reads_exactly (let* x := r in reader_ret (f x)) n Q.
Proof.
  intros HPQ Hr s. destruct (Hr s) as [Hiff Hpost]. split.
  - rewrite <- Hiff. split.
    + intros (b & s' & Hb). apply reader_map_inv in Hb as (a & Ha & _).
      by exists a, s'.
    + intros (a & s' & Ha). exists (f a), s'.
      by rewrite (reader_bind_return _ _ _ _ _ Ha).
  - intros b s' Hb. apply reader_map_inv in Hb as (a & Ha & ->).
    destruct (Hpost a s' Ha) as [-> HP]. split; [done | by apply HPQ].
Qed.

Lemma reads_exactly_unsigned host (n : nat) :
  reads_exactly (let* value := stream_read n in
                 check_read >>; reader_ret (object_value host value))
                n (is_unsigned (8 * Z.of_nat n)).
Proof.
  apply reads_exactly_raw. intros bs <-. apply object_value_range.
Qed.

(** X6: each fixed-width decode returns normally exactly when the stream
    is good and has at least as many bytes left as the width of the kind
    (1, 2, 4 or 8); it then consumes exactly that many bytes, and the value
    is in the range of the C++ type it is returned as: for an enumeration,
    the range of its underlying type. *)
Theorem fixed_width_reads (host : byte_order) (signed : bool) (bits : Z) :
  0 < bits →
  reads_exactly (read_u8 host) 1 (is_unsigned 8) ∧
  reads_exactly (read_u16 host) 2 (is_unsigned 16) ∧
  reads_exactly (read_u32 host) 4 (is_unsigned 32) ∧
  reads_exactly (read_u64 host) 8 (is_unsigned 64) ∧
  reads_exactly (read_i8 host) 1 (is_signed 8) ∧
  reads_exactly (read_i16 host) 2 (is_signed 16) ∧
  reads_exactly (read_i32 host) 4 (is_signed 32) ∧
  reads_exactly (read_i64 host) 8 (is_signed 64) ∧
  reads_exactly (read_f32 host) 4 (is_unsigned 32) ∧
  reads_exactly (read_f64 host) 8 (is_unsigned 64) ∧
  reads_exactly (read_bool host) 1 (λ _, True) ∧
  reads_exactly (read_enum host signed bits) 4 (in_range signed bits).
Proof.
  intros Hbits.
  pose proof (reads_exactly_unsigned host 1) as Hu8.
  pose proof (reads_exactly_unsigned host 2) as Hu16.
  pose proof (reads_exactly_unsigned host 4) as Hu32.
  pose proof (reads_exactly_unsigned host 8) as Hu64.
  assert (Hi32 : reads_exactly (read_i32 host) 4 (is_signed 32)).
  { eapply reads_exactly_map; [| exact Hu32]. intros a _. by apply swrap_range. }
  repeat split_and; try done.
  - eapply reads_exactly_map; [| exact Hu8]. intros a _. by apply swrap_range.
  - eapply reads_exactly_map; [| exact Hu16]. intros a _. by apply swrap_range.
  - eapply reads_exactly_map; [| exact Hu64]. intros a _. by apply swrap_range.
  - by apply (reads_exactly_map (read_u32 host) (λ bits, bits) 4
                (is_unsigned 32)).
  - by apply (reads_exactly_map (read_u64 host) (λ bits, bits) 8
                (is_unsigned 64)).
  - by apply (reads_exactly_map (read_u8 host) (λ v, negb (v =? 0)) 1
                (is_unsigned 8)).
  - apply (reads_exactly_map (read_i32 host) (cast signed bits) 4
             (is_signed 32)); [| done].
    intros a _. by apply cast_range.
Qed.

Lemma fixed_width_reads_witness :
  reads_exactly (read_u16 big_endian) 2 (is_unsigned 16) ∧
  reads_exactly (read_enum big_endian false 32) 4 (in_range false 32).
Proof.
  destruct (fixed_width_reads big_endian false 32)
    as (_ & Hu16 & _ & _ & _ & _ & _ & _ & _ & _ & _ & Henum); [lia |].
  split; [exact Hu16 | exact Henum].
Defined.

(** ** What a read does to the stream *)

Lemma keeps_stream_ret {T} (v : T) : keeps_stream (reader_ret v).
Proof. intros s o s' [= <- <-]. repeat split; (done || lia). Qed.

Lemma keeps_stream_bind {A B} (r : reader A) (k : A → reader B) :
  keeps_stream r → (∀ a, keeps_stream (k a)) → keeps_stream (reader_bind r k).
Proof.
  intros Hr Hk s o s' Hrun. unfold reader_bind in Hrun.
  destruct (r s) as [[a|e] s1] eqn:Hrs.
  - destruct (Hr s _ s1 Hrs) as (Hb1 & Hp1 & Hf1 & _ & Hr1 & _).
    specialize (Hr1 a eq_refl).
    destruct (Hk a s1 o s' Hrun) as (Hb2 & Hp2 & Hf2 & Ht2 & Hr2 & Ha2).
    split_and!.
    + congruence.
    + intros Hpos. specialize (Hp1 Hpos). rewrite Hb1 in Hp2.
      specialize (Hp2 ltac:(lia)). lia.
    + intros Hfail. specialize (Hf1 Hfail). subst s1. by apply Hf2.
    + exact Ht2.
    + intros v Hv. rewrite <- Hr1. by eapply Hr2.
    + intros e He Hfailure. rewrite <- Hr1. by eapply Ha2.
  - injection Hrun as <- <-.
    destruct (Hr s _ s1 Hrs) as (Hb1 & Hp1 & Hf1 & Ht1 & _ & Ha1).
    split_and!; try done.
    + intros [= ->]. by apply Ht1.
    + intros e' [= <-]. by apply Ha1.
Qed.

Lemma keeps_stream_raw {T} (f : list byte → T) n :
  keeps_stream (let* value := stream_read n in
                check_read >>; reader_ret (f value)).
Proof.
  intros s o s'. unfold reader_bind, stream_read, check_read, reader_ret,
    istream_read.
  destruct (failbit s) eqn:Hfail.
  - rewrite Hfail. intros [= <- <-]. split_and!; try done; try lia.
  - destruct (decide (n ≤ length (drop (gpos s) (buffer s)))%nat) as [Hle|Hgt];
      cbn [failbit]; intros [= <- <-]; cbn [buffer gpos failbit];
      split_and!; try done; try lia;
      try (intros e [= <-] [? | ?]; done).
    rewrite length_drop in Hle. lia.
Qed.

Lemma keeps_stream_reserve allocate n : keeps_stream (reserve allocate n).
Proof.
  intros s o s'. unfold reserve. destruct (n =? 0).
  - intros [= <- <-]. split_and!; (done || lia).
  - destruct (allocate n); intros [= <- <-]; split_and!; (done || lia).
Qed.

Lemma keeps_stream_map {A B} (r : reader A) (f : A → B) :
  keeps_stream r → keeps_stream (let* x := r in reader_ret (f x)).
Proof.
  intros Hr. apply keeps_stream_bind; [done |].
  intros a. apply keeps_stream_ret.
Qed.

Lemma keeps_stream_read_items {T} (read_func : reader T) n result :
  keeps_stream read_func → keeps_stream (read_items read_func n result).
Proof.
  intros Hf. revert result. induction n as [|n IH]; intros result; simpl.
  - apply keeps_stream_ret.
  - apply keeps_stream_bind; [done |]. intros item. apply IH.
Qed.

Create HintDb stream.
#[local] Hint Resolve keeps_stream_ret keeps_stream_raw keeps_stream_map
  keeps_stream_read_items keeps_stream_reserve : stream.

(** X7: no decode changes the bytes of the stream; the read position only
    moves forwards and never beyond the end; a decode on a failed stream
    leaves the stream as it is; a decode that throws [TruncatedInput]
    leaves the stream failed, while a decode that returns, or that throws
    because the host refuses the storage for a string, a byte blob or a
    sequence, leaves a good stream good.  This holds for every decode of
    the reader, and for [read_optional] and [read_vector] whenever it
    holds for the element reader. *)
Theorem reads_keep_stream (host : byte_order) (allocate : Z → allocation)
    (signed : bool) (bits : Z) :
  keeps_stream (read_u8 host) ∧ keeps_stream (read_u16 host) ∧
  keeps_stream (read_u32 host) ∧ keeps_stream (read_u64 host) ∧
  keeps_stream (read_i8 host) ∧ keeps_stream (read_i16 host) ∧
  keeps_stream (read_i32 host) ∧ keeps_stream (read_i64 host) ∧
  keeps_stream (read_f32 host) ∧ keeps_stream (read_f64 host) ∧
  keeps_stream (read_bool host) ∧ keeps_stream (read_enum host signed bits) ∧
  keeps_stream (read_string host allocate) ∧
  keeps_stream (read_bytes host allocate) ∧
  keeps_stream (read_optional_string host allocate) ∧
  (∀ T (read_func : reader T), keeps_stream read_func →
     keeps_stream (read_optional host read_func) ∧
     keeps_stream (read_vector host allocate read_func)).
Proof.
  assert (Hu8 : keeps_stream (read_u8 host)) by apply keeps_stream_raw.
  assert (Hu16 : keeps_stream (read_u16 host)) by apply keeps_stream_raw.
  assert (Hu32 : keeps_stream (read_u32 host)) by apply keeps_stream_raw.
  assert (Hu64 : keeps_stream (read_u64 host)) by apply keeps_stream_raw.
  assert (Hstr : keeps_stream (read_string host allocate)).
  { apply keeps_stream_bind; [done |]. intros len.
    destruct (len =? 0); [apply keeps_stream_ret |].
    apply keeps_stream_bind; [apply keeps_stream_reserve |]. intros _.
    apply (keeps_stream_raw String.string_of_list_byte). }
  assert (Hopt : ∀ T (read_func : reader T), keeps_stream read_func →
                 keeps_stream (read_optional host read_func)).
  { intros T read_func Hf. apply keeps_stream_bind; [done |]. intros flag.
    destruct (flag =? 0); auto with stream. }
  assert (Hbytes : keeps_stream (read_bytes host allocate)).
  { apply keeps_stream_bind; [done |]. intros len.
    apply keeps_stream_bind; [apply keeps_stream_reserve |]. intros _.
    destruct (0 <? len); [| apply keeps_stream_ret].
    apply (keeps_stream_raw (λ result, result)). }
  assert (Hvec : ∀ T (read_func : reader T), keeps_stream read_func →
                 keeps_stream (read_vector host allocate read_func)).
  { intros T read_func Hf. apply keeps_stream_bind; [done |].
    intros count. apply keeps_stream_bind; [apply keeps_stream_reserve |].
    intros _. auto with stream. }
  unfold read_i8, read_i16, read_i32, read_i64, read_f32, read_f64,
    read_bool, read_enum.
  repeat split_and; try done; auto 6 with stream.
  - unfold read_i32. auto 6 with stream.
  - by apply (Hopt string (read_string host allocate)).
Qed.

Lemma reads_keep_stream_witness :
  let s := reader_of_vector [Byte.x03; Byte.x00; Byte.x00; Byte.x00; Byte.x61] in
  (buffer (read_string little_endian (within 1024) s).2 = buffer s ∧
   failbit (read_string little_endian (within 1024) s).2 = true) ∧
  (buffer (read_string little_endian (within 2) s).2 = buffer s ∧
   failbit (read_string little_endian (within 2) s).2 = false).
Proof.
  intros s. split.
  - destruct (reads_keep_stream little_endian (within 1024) true 32)
      as (_ & _ & _ & _ & _ & _ & _ & _ & _ & _ & _ & _ & Hstr & _).
    destruct (Hstr s (Throw TruncatedInput) (IStream (buffer s) 5 true))
      as (Hbuf & _ & _ & Hthrow & _).
    + reflexivity.
    + split; [reflexivity |]. exact (Hthrow eq_refl).
  - destruct (reads_keep_stream little_endian (within 2) true 32)
      as (_ & _ & _ & _ & _ & _ & _ & _ & _ & _ & _ & _ & Hstr & _).
    destruct (Hstr s (Throw bad_alloc) (IStream (buffer s) 4 false))
      as (Hbuf & _ & _ & _ & _ & Hrefused).
    + reflexivity.
    + split; [reflexivity |].
      exact (Hrefused bad_alloc eq_refl (or_introl eq_refl)).
Defined.

(** ** A failed reader *)

Lemma refuses_bind {A B} (r : reader A) (k : A → reader B) :
  refuses r → refuses (reader_bind r k).
Proof. intros Hr s Hfail. unfold reader_bind. by rewrite (Hr s Hfail). Qed.

Lemma refuses_raw {T} (f : list byte → T) n :
  refuses (let* value := stream_read n in check_read >>; reader_ret (f value)).
Proof.
  intros s Hfail. unfold reader_bind, stream_read, check_read, istream_read.
  by rewrite !Hfail.
Qed.

(** X8: once the stream has failed, every decode of the reader throws
    [TruncatedInput] and leaves the stream as it is, so that a reader that
    has thrown once throws on every later decode; [read_optional] and
    [read_vector] do so without calling the element reader. *)
Theorem failed_reader_refuses (host : byte_order) (allocate : Z → allocation)
    (signed : bool) (bits : Z) :
  refuses (read_u8 host) ∧ refuses (read_u16 host) ∧
  refuses (read_u32 host) ∧ refuses (read_u64 host) ∧
  refuses (read_i8 host) ∧ refuses (read_i16 host) ∧
  refuses (read_i32 host) ∧ refuses (read_i64 host) ∧
  refuses (read_f32 host) ∧ refuses (read_f64 host) ∧
  refuses (read_bool host) ∧ refuses (read_enum host signed bits) ∧
  refuses (read_string host allocate) ∧ refuses (read_bytes host allocate) ∧
  refuses (read_optional_string host allocate) ∧
  (∀ T (read_func : reader T),
     refuses (read_optional host read_func) ∧
     refuses (read_vector host allocate read_func)) ∧
  (∀ s e s', read_u32 host s = (Throw e, s') →
     read_u8 host s' = (Throw TruncatedInput, s') ∧
     read_string host allocate s' = (Throw TruncatedInput, s')).
Proof.
  assert (Hu8 : refuses (read_u8 host)) by apply refuses_raw.
  assert (Hu16 : refuses (read_u16 host)) by apply refuses_raw.
  assert (Hu32 : refuses (read_u32 host)) by apply refuses_raw.
  assert (Hu64 : refuses (read_u64 host)) by apply refuses_raw.
  assert (Hstr : refuses (read_string host allocate)) by by apply refuses_bind.
  repeat split_and; try done; try (by apply refuses_bind).
  - by apply refuses_bind, refuses_bind.
  - intros T read_func. split; by apply refuses_bind.
  - intros s e s' Hthrow.
    assert (e = TruncatedInput) as ->
      by apply (only_truncated_read_u32 host _ _ _ Hthrow).
    destruct (keeps_stream_raw (λ v, le_to_native (object_value host v)) 4
                s _ s' Hthrow) as (_ & _ & _ & Hfail & _).
    split; [apply Hu8 | apply Hstr]; by apply Hfail.
Qed.

Lemma failed_reader_refuses_witness :
  let s' := (read_u32 little_endian (reader_of_vector [Byte.x01; Byte.x02])).2 in
  read_u8 little_endian s' = (Throw TruncatedInput, s').
Proof.
  intros s'.
  destruct (failed_reader_refuses little_endian (within 1024) true 32)
    as (Hu8 & _).
  apply Hu8. reflexivity.
Defined.

(** ** A writer over a stream of the client *)

Lemma ostream_write_other s other bs m :
  other ≠ s → ostreams (ostream_write s bs m) !! other = ostreams m !! other.
Proof. intros Hne. unfold ostream_write; simpl. by rewrite lookup_alter_ne. Qed.

(** X9: a writer constructed over a stream of the client, a string
    stream with its put position within its contents, writes at the put
    position of that stream.  After any sequence of write calls a
    stream that had not failed holds its contents with the encodings of
    the calls, in order, put over them from the put position on, which has
    moved behind them; where the put position was at the end, the
    encodings are appended.  A stream that has failed is left as it is.
    No vector and no other stream is changed, and [flush()] and the
    destructor change nothing at all. *)
Theorem stream_writer_appends (host : byte_order) (m : Memory) (stream : addr)
    (o : ostream) (calls : list write_call) :
  ostreams m !! stream = Some o →
  (ppos o ≤ length (contents o))%nat →
  let w := writer_of_stream stream in
  let m' := run_calls host calls w m in
  let written := concat (encoding host <$> calls) in
  (failed o = false →
   ostreams m' !! stream
   = Some (OStream (overwrite (ppos o) written (contents o))
                   (ppos o + length written) false)) ∧
  (appending o → ostream_str stream m' = contents o ++ written) ∧
  (failed o = true → m' = m) ∧
  vectors m' = vectors m ∧
  (∀ other, other ≠ stream → ostreams m' !! other = ostreams m !! other) ∧
  flush w m' = m' ∧
  destroy w m' = m'.
Proof.
  intros Ho _ w m' written. subst m' written.
  rewrite (run_calls_writes host calls w m). cbn [w writer_of_stream stream_].
  split_and!; try done.
  - intros Hgood. unfold ostream_write. cbn [ostreams].
    rewrite lookup_alter_eq, Ho. cbn [fmap option_fmap option_map].
    unfold write_at. by rewrite Hgood.
  - intros Happ. rewrite (ostream_str_write _ _ _ o) by done.
    unfold ostream_str. by rewrite Ho.
  - intros Hfailed. unfold ostream_write.
    rewrite alter_id; [by destruct m |].
    intros o' Ho'. rewrite Ho in Ho'. injection Ho' as <-.
    unfold write_at. by rewrite Hfailed.
  - intros other Hne. by apply ostream_write_other.
Qed.

Lemma stream_writer_appends_witness :
  let stream := 7%positive in
  let abcd := [Byte.x61; Byte.x62; Byte.x63; Byte.x64] in
  let w := writer_of_stream stream in
  ostream_str stream
    (run_calls little_endian [call_u16 258] w
       (Mem ∅ {[ stream := OStream abcd 0 false ]}))
  = [Byte.x02; Byte.x01; Byte.x63; Byte.x64] ∧
  ostream_str stream
    (run_calls little_endian [call_u16 258] w
       (Mem ∅ {[ stream := OStream abcd 4 false ]}))
  = [Byte.x61; Byte.x62; Byte.x63; Byte.x64; Byte.x02; Byte.x01] ∧
  ostream_str stream
    (run_calls little_endian [call_u16 258] w
       (Mem ∅ {[ stream := OStream abcd 4 true ]}))
  = abcd.
Proof.
  intros stream abcd w. subst w. split_and!.
  - pose proof (stream_writer_appends little_endian
                  (Mem ∅ {[ stream := OStream abcd 0 false ]}) stream
                  (OStream abcd 0 false) [call_u16 258] eq_refl
                  ltac:(simpl; lia)) as H.
    cbv zeta in H. destruct H as (Hput & _).
    unfold ostream_str. by rewrite (Hput eq_refl).
  - pose proof (stream_writer_appends little_endian
                  (Mem ∅ {[ stream := OStream abcd 4 false ]}) stream
                  (OStream abcd 4 false) [call_u16 258] eq_refl
                  ltac:(simpl; lia)) as H.
    cbv zeta in H. destruct H as (_ & Happend & _).
    by rewrite (Happend (conj eq_refl eq_refl)).
  - pose proof (stream_writer_appends little_endian
                  (Mem ∅ {[ stream := OStream abcd 4 true ]}) stream
                  (OStream abcd 4 true) [call_u16 258] eq_refl
                  ltac:(simpl; lia)) as H.
    cbv zeta in H. destruct H as (_ & _ & Hfailed & _).
    by rewrite (Hfailed eq_refl).
Defined.

(** ** The layout of the encodings *)

Lemma encoding_emits host c bs : emits (run_call host c) bs → encoding host c = bs.
Proof. apply serialize_emits. Qed.

(** X10: the layout of every kind.  The signed integers, the floats and
    enumerations are laid out as the unsigned integer of the same width;
    a boolean is the byte 0 or 1; a string and a byte blob are their size,
    cast to u32, followed by their bytes; an optional is the byte 0, or the
    byte 1 followed by the element; a sequence is its element count, cast
    to u32, followed by its elements in order; the integers take 1, 2, 4
    and 8 bytes whatever their value. *)
Theorem wire_layout (host : byte_order) :
  (∀ v, encoding host (call_i8 v) = encoding host (call_u8 (wrap 8 v))) ∧
  (∀ v, encoding host (call_i16 v) = encoding host (call_u16 (wrap 16 v))) ∧
  (∀ v, encoding host (call_i32 v) = encoding host (call_u32 (wrap 32 v))) ∧
  (∀ v, encoding host (call_i64 v) = encoding host (call_u64 (wrap 64 v))) ∧
  (∀ v, encoding host (call_f32 v) = encoding host (call_u32 v)) ∧
  (∀ v, encoding host (call_f64 v) = encoding host (call_u64 v)) ∧
  (∀ v, encoding host (call_enum v) = encoding host (call_i32 v)) ∧
  (∀ b : bool,
     encoding host (call_bool b) = [if b then Byte.x01 else Byte.x00]) ∧
  (∀ s : string,
     encoding host (call_string s)
     = encoding host (call_u32 (wrap 32 (Z.of_nat (String.length s))))
       ++ String.list_byte_of_string s) ∧
  (∀ l : list byte,
     encoding host (call_bytes l)
     = encoding host (call_u32 (wrap 32 (Z.of_nat (length l)))) ++ l) ∧
  encoding host (call_optional None) = [Byte.x00] ∧
  (∀ c, encoding host (call_optional (Some c)) = Byte.x01 :: encoding host c) ∧
  (∀ o, encoding host (call_optional_string o)
        = encoding host (call_optional (call_string <$> o))) ∧
  (∀ items,
     encoding host (call_vector items)
     = encoding host (call_u32 (wrap 32 (Z.of_nat (length items))))
       ++ concat (encoding host <$> items)) ∧
  (∀ v, length (encoding host (call_u8 v)) = 1%nat) ∧
  (∀ v, length (encoding host (call_u16 v)) = 2%nat) ∧
  (∀ v, length (encoding host (call_u32 v)) = 4%nat) ∧
  (∀ v, length (encoding host (call_u64 v)) = 8%nat).
Proof.
  assert (Hu32 : ∀ v, encoding host (call_u32 v) = object_repr host 4 v).
  { intros v. apply encoding_emits, write_u32_emits. }
  assert (Hopt : ∀ o, encoding host (call_optional o)
                      = match o with
                        | Some c => Byte.x01 :: encoding host c
                        | None => [Byte.x00]
                        end).
  { intros o. apply encoding_emits. intros w m.
    change (run_call host (call_optional o) w m)
      with (write_optional host w o (λ w c, run_call host c w) m).
    rewrite (write_optional_emits host o (λ w c, run_call host c w)
               (encoding host)) by (intros c _; apply run_call_emits).
    destruct o.
    - by rewrite (object_repr_flag host true).
    - by rewrite (object_repr_flag host false). }
  repeat split_and; try done.
  - intros v.
    rewrite (encoding_emits host (call_enum v) _ (write_enum_emits host v)).
    symmetry. apply encoding_emits, (write_u32_emits host (wrap 32 v)).
  - intros b. apply encoding_emits. intros w m. simpl.
    by rewrite <- (object_repr_flag host b).
  - intros s. rewrite Hu32. apply encoding_emits, write_string_emits.
  - intros l. rewrite Hu32. apply encoding_emits, write_bytes_emits.
  - apply (Hopt None).
  - intros c. apply (Hopt (Some c)).
  - intros o. rewrite Hopt. apply encoding_emits. intros w m. simpl.
    rewrite write_optional_string_emits. f_equal. destruct o as [s|]; simpl.
    + rewrite (object_repr_flag host true). simpl. f_equal.
      symmetry. apply encoding_emits, write_string_emits.
    + apply (object_repr_flag host false).
  - intros items. rewrite Hu32. apply encoding_emits.
    apply (write_vector_emits host items (λ w c, run_call host c w)
             (encoding host)).
    apply Forall_forall. intros c _. apply run_call_emits.
  - intros v. rewrite (encoding_emits host (call_u8 v) _ (write_u8_emits host v)).
    apply length_object_repr.
  - intros v. rewrite (encoding_emits host (call_u16 v) _ (write_u16_emits host v)).
    apply length_object_repr.
  - intros v. rewrite Hu32. apply length_object_repr.
  - intros v. rewrite (encoding_emits host (call_u64 v) _ (write_u64_emits host v)).
    apply length_object_repr.
Qed.

(** ** The byte order of the host *)

Lemma deserialize_object host (n : nat) (bs : list byte) :
  length bs = n →
  deserialize (let* value := stream_read n in
               check_read >>; reader_ret (le_to_native (object_value host value)))
              bs
  = Return (object_value host bs).
Proof.
  intros <-. apply decodes_deserialize.
  apply (decodes_raw (λ value, le_to_native (object_value host value))).
Qed.

(** X11: [native_to_le] and [le_to_native] return their argument
    unchanged, so the bytes of a multi-byte integer are written in the
    order of the host: least significant byte first on a little-endian
    host, most significant byte first on a big-endian one.  Bytes written
    on a host of one byte order and read on a host of the other give the
    value with its bytes reversed; a u16 of value 1 is read as 256. *)
Theorem host_byte_order (v : Z) :
  serialize (λ w, write_u32 little_endian w v)
    = [byte.of_Z v; byte.of_Z (v ≫ 8); byte.of_Z (v ≫ 16); byte.of_Z (v ≫ 24)] ∧
  serialize (λ w, write_u32 big_endian w v)
    = [byte.of_Z (v ≫ 24); byte.of_Z (v ≫ 16); byte.of_Z (v ≫ 8); byte.of_Z v] ∧
  deserialize (read_u16 big_endian) (serialize (λ w, write_u16 little_endian w v))
    = Return (le_combine (rev (le_split 2 v))) ∧
  deserialize (read_u32 big_endian) (serialize (λ w, write_u32 little_endian w v))
    = Return (le_combine (rev (le_split 4 v))) ∧
  deserialize (read_u64 big_endian) (serialize (λ w, write_u64 little_endian w v))
    = Return (le_combine (rev (le_split 8 v))) ∧
  deserialize (read_u16 little_endian) (serialize (λ w, write_u16 big_endian w v))
    = Return (le_combine (rev (le_split 2 v))) ∧
  deserialize (read_u32 little_endian) (serialize (λ w, write_u32 big_endian w v))
    = Return (le_combine (rev (le_split 4 v))) ∧
  deserialize (read_u64 little_endian) (serialize (λ w, write_u64 big_endian w v))
    = Return (le_combine (rev (le_split 8 v))) ∧
  deserialize (read_u16 big_endian) (serialize (λ w, write_u16 little_endian w 1))
    = Return 256.
Proof.
  rewrite !(serialize_emits _ _ (write_u16_emits _ _)),
    !(serialize_emits _ _ (write_u32_emits _ _)),
    !(serialize_emits _ _ (write_u64_emits _ _)).
  unfold read_u16, read_u32, read_u64.
  rewrite !deserialize_object
    by (unfold object_repr; rewrite ?length_rev; apply length_le_split).
  repeat split_and; done.
Qed.

(** ** Fields written one after the other *)

(** X12: two values written one after the other are read back by the two
    decodes in the same order, each decode consuming exactly the bytes of
    its own value; so a record is read back field by field in the order in
    which its fields were written. *)
Theorem fields_compose {A B}
    (write_a : BinaryWriter → A → Memory → Memory) (read_a : reader A)
    (write_b : BinaryWriter → B → Memory → Memory) (read_b : reader B)
    (a : A) (b : B) :
  emits (λ w, write_a w a) (encoding_of write_a a) →
  emits (λ w, write_b w b) (encoding_of write_b b) →
  decodes read_a (encoding_of write_a a) a →
  decodes read_b (encoding_of write_b b) b →
  serialize (λ w m, write_b w b (write_a w a m))
    = encoding_of write_a a ++ encoding_of write_b b ∧
  deserialize (let* x := read_a in let* y := read_b in reader_ret (x, y))
              (serialize (λ w m, write_b w b (write_a w a m)))
    = Return (a, b).
Proof.
  intros Hwa Hwb Hra Hrb.
  rewrite (serialize_emits _ _ (emits_then _ _ _ _ Hwa Hwb)).
  split; [done |]. apply decodes_deserialize.
  eapply decodes_bind; [exact Hra |].
  by apply (decodes_map read_b (λ y, (a, y))).
Qed.

Lemma fields_compose_witness :
  deserialize (let* id := read_u32 little_endian in
               let* name := read_string little_endian (within 1024) in
               reader_ret (id, name))
              (serialize (λ w m, write_string little_endian w "Binary Test"
                                   (write_u32 little_endian w 12345 m)))
  = Return (12345, "Binary Test"%string).
Proof.
  assert (Hid : encoding_of (write_u32 little_endian) 12345
                = object_repr little_endian 4 12345).
  { apply serialize_emits, write_u32_emits. }
  assert (Hname : encoding_of (write_string little_endian) "Binary Test"
                  = object_repr little_endian 4 11
                    ++ String.list_byte_of_string "Binary Test").
  { apply serialize_emits, (write_string_emits little_endian "Binary Test"). }
  apply (fields_compose (write_u32 little_endian) (read_u32 little_endian)
           (write_string little_endian) (read_string little_endian (within 1024))).
  - rewrite Hid. apply write_u32_emits.
  - rewrite Hname. apply (write_string_emits little_endian "Binary Test").
  - rewrite Hid. apply (read_u32_decodes little_endian 12345).
  - rewrite Hname.
    apply (read_string_decodes little_endian (within 1024) "Binary Test").
    + simpl. lia.
    + right. reflexivity.
Defined.

(** ** More on the unique index *)

Section UniqueIndexHistory.
Context {K : Type} `{Countable K}.

Lemma unique_inserts_lookup_last (history : list (K * pointer))
    (index : gmap K pointer) (key : K) :
  fold_left (λ index kv, UniqueIndex.insert kv.1 kv.2 index) history index !! key
  = match last (filter (λ kv, kv.1 = key) history).*2 with
    | Some v => Some v
    | None => index !! key
    end.
Proof.
  revert index. induction history as [|[k v] history IH]; intros index; [done |].
  simpl. rewrite IH, filter_cons. unfold UniqueIndex.insert. simpl.
  destruct (decide (k = key)) as [-> | Hne].
  - rewrite fmap_cons, last_cons. simpl.
    destruct (last _); [done |]. by rewrite lookup_insert_eq.
  - destruct (last _); [done |]. by rewrite lookup_insert_ne.
Qed.

Lemma filter_key_nil (history : list (K * pointer)) (key : K) :
  filter (λ kv, kv.1 = key) history = [] ↔ key ∉ history.*1.
Proof.
  induction history as [|[k v] history IH]; simpl.
  - split; [intros _; apply not_elem_of_nil | done].
  - rewrite filter_cons, not_elem_of_cons. simpl.
    destruct (decide (k = key)) as [-> | Hne].
    + split; [done | by intros [? _]].
    + rewrite IH. split; [by split | by intros [_ ?]].
Qed.

(** X13: after any sequence of [insert] calls, [get(k)] is the pointer of
    the last call made with key [k], and the null pointer if there was
    none; [contains(k)] holds exactly when some call was made with key [k],
    also when the pointer inserted was null; an [insert] under another key
    changes neither. *)
Theorem unique_index_history (history : list (K * pointer)) (k : K) :
  let built :=
    fold_left (λ index kv, UniqueIndex.insert kv.1 kv.2 index) history
              UniqueIndex.empty in
  UniqueIndex.get k built
    = default nullptr (last (filter (λ kv, kv.1 = k) history).*2) ∧
  (UniqueIndex.contains k built = true ↔ k ∈ history.*1) ∧
  (∀ (index : gmap K pointer) k' v, k' ≠ k →
     UniqueIndex.get k (UniqueIndex.insert k' v index) = UniqueIndex.get k index ∧
     UniqueIndex.contains k (UniqueIndex.insert k' v index)
       = UniqueIndex.contains k index) ∧
  (∀ (index : gmap K pointer),
     UniqueIndex.contains k (UniqueIndex.insert k nullptr index) = true ∧
     UniqueIndex.get k (UniqueIndex.insert k nullptr index) = nullptr).
Proof.
  intros built.
  assert (Hlookup : built !! k = last (filter (λ kv, kv.1 = k) history).*2).
  { unfold built. rewrite unique_inserts_lookup_last.
    by destruct (last _). }
  repeat split_and.
  - unfold UniqueIndex.get. rewrite Hlookup. by destruct (last _).
  - unfold UniqueIndex.contains. rewrite bool_decide_eq_true, Hlookup.
    rewrite <- not_eq_None_Some, last_None.
    assert (Hnil : (filter (λ kv, kv.1 = k) history).*2 = []
                   ↔ filter (λ kv, kv.1 = k) history = [])
      by (by destruct (filter _ history)).
    rewrite Hnil, filter_key_nil.
    split; [apply dec_stable | by intros ? ?].
  - intros index k' v Hne.
    unfold UniqueIndex.get, UniqueIndex.contains, UniqueIndex.insert.
    by rewrite lookup_insert_ne.
  - intros index.
    unfold UniqueIndex.get, UniqueIndex.contains, UniqueIndex.insert.
    rewrite lookup_insert_eq. split; [| done].
    apply bool_decide_eq_true. by eexists.
Qed.

End UniqueIndexHistory.

(** ** More on the group index *)

Section GroupIndexInvariant.
Context {K : Type} `{Countable K}.

Lemma group_inserts_nonempty (history : list (K * pointer))
    (index : gmap K (list pointer)) :
  (∀ key rows, index !! key = Some rows → rows ≠ []) →
  ∀ key rows,
    fold_left (λ index kv, GroupIndex.insert kv.1 kv.2 index) history index
    !! key = Some rows → rows ≠ [].
Proof.
  revert index. induction history as [|[k v] history IH]; intros index Hinv;
    [done |].
  simpl. apply IH. intros key rows. unfold GroupIndex.insert.
  destruct (decide (k = key)) as [-> | Hne].
  - rewrite lookup_insert_eq. intros [= <-]. by destruct (default [] _).
  - rewrite lookup_insert_ne by done. apply Hinv.
Qed.

(** X14: in a group index built by [insert] calls no key is mapped to an
    empty sequence: [contains(k)] holds exactly when [get(k)] is not
    empty, and exactly when some call was made with key [k]; an [insert]
    under [k] appends to [get(k)] and leaves [get] of every other key
    unchanged. *)
Theorem group_index_invariant (history : list (K * pointer)) (k : K) :
  let built :=
    fold_left (λ index kv, GroupIndex.insert kv.1 kv.2 index) history
              GroupIndex.empty in
  (GroupIndex.contains k built = true ↔ GroupIndex.get k built ≠ []) ∧
  (GroupIndex.contains k built = true ↔ k ∈ history.*1) ∧
  (∀ (index : gmap K (list pointer)) v,
     GroupIndex.get k (GroupIndex.insert k v index)
       = GroupIndex.get k index ++ [v] ∧
     GroupIndex.contains k (GroupIndex.insert k v index) = true) ∧
  (∀ (index : gmap K (list pointer)) k' v, k' ≠ k →
     GroupIndex.get k (GroupIndex.insert k' v index) = GroupIndex.get k index ∧
     GroupIndex.contains k (GroupIndex.insert k' v index)
       = GroupIndex.contains k index).
Proof.
  intros built.
  assert (Hget : GroupIndex.get k built = (filter (λ kv, kv.1 = k) history).*2).
  { rewrite group_get_default. unfold built. by rewrite group_inserts_get. }
  assert (Hnonempty : ∀ rows, built !! k = Some rows → rows ≠ []).
  { intros rows. by apply (group_inserts_nonempty history ∅). }
  assert (Hcontains : GroupIndex.contains k built = true
                      ↔ GroupIndex.get k built ≠ []).
  { unfold GroupIndex.contains, GroupIndex.get.
    rewrite bool_decide_eq_true.
    destruct (built !! k) as [rows|] eqn:Hk.
    - split; [intros _; by apply Hnonempty | by eexists].
    - split; [by intros [? ?] | done]. }
  split; [exact Hcontains |]. split; [| split].
  - rewrite Hcontains, Hget. split.
    + intros Hne. apply dec_stable. intros Hnotin. apply Hne.
      apply (filter_key_nil history k) in Hnotin. by rewrite Hnotin.
    + intros Hin Hnil.
      apply (filter_key_nil history k); [| done]. by destruct (filter _ history).
  - intros index v. split.
    + rewrite !group_get_default. unfold GroupIndex.insert.
      by rewrite lookup_insert_eq.
    + unfold GroupIndex.contains, GroupIndex.insert.
      apply bool_decide_eq_true. rewrite lookup_insert_eq. by eexists.
  - intros index k' v Hne. split.
    + rewrite !group_get_default. unfold GroupIndex.insert.
      by rewrite lookup_insert_ne.
    + unfold GroupIndex.contains, GroupIndex.insert.
      by rewrite lookup_insert_ne.
Qed.

End GroupIndexInvariant.

(** ** More on the row store *)

Section DataTableRows.
Context {T : Type}.

Lemma add_rows_snoc (history : list T) (row : T) (rows_ : deque T) :
  DataTable.add_rows (history ++ [row]) rows_
  = DataTable.add_row row (DataTable.add_rows history rows_).
Proof. unfold DataTable.add_rows. by rewrite fold_left_app. Qed.

Lemma fresh_not_slot (rows_ : deque T) :
  allocated rows_ → fresh (dom (cells rows_)) ∉ slots rows_.
Proof.
  unfold allocated. rewrite Forall_forall. intros Hall Hin.
  destruct (Hall _ Hin) as [x Hx]. by rewrite fresh_cell in Hx.
Qed.

Lemma rows_add_row (row : T) (rows_ : deque T) :
  allocated rows_ →
  DataTable.rows (DataTable.add_row row rows_) = DataTable.rows rows_ ++ [row].
Proof.
  intros Hall. pose proof (fresh_not_slot rows_ Hall) as Hfresh.
  unfold DataTable.rows, DataTable.add_row, DataTable.push_back; simpl.
  rewrite omap_app. simpl. rewrite lookup_insert_eq. simpl. f_equal.
  revert Hfresh. generalize (fresh (dom (cells rows_))). intros a.
  induction (slots rows_) as [|a' l IH]; intros Hnotin; [done |].
  apply not_elem_of_cons in Hnotin as [Hne Hnotin]. specialize (IH Hnotin).
  unfold omap in *. simpl. rewrite lookup_insert_ne by done. by rewrite IH.
Qed.

Lemma rows_add_rows (history : list T) :
  DataTable.rows (DataTable.add_rows history DataTable.empty_table) = history.
Proof.
  induction history as [|row history IH] using rev_ind; [done |].
  rewrite add_rows_snoc, rows_add_row, IH; [done |].
  apply allocated_add_rows, allocated_empty.
Qed.

Lemma at_index_rows (rows_ : deque T) (i : nat) :
  allocated rows_ → DataTable.at_index i rows_ = DataTable.rows rows_ !! i.
Proof.
  unfold allocated, DataTable.at_index, DataTable.address, DataTable.deref,
    DataTable.rows.
  generalize (cells rows_). intros store. revert i.
  induction (slots rows_) as [|a l IH]; intros i Hall; [done |].
  apply Forall_cons in Hall as [[x Hx] Hall]. specialize (λ i, IH i Hall).
  unfold omap in *. simpl. rewrite Hx. simpl.
  destruct i as [|i]; simpl; [done |]. by apply IH.
Qed.

Lemma NoDup_add_rows (history : list T) :
  NoDup (slots (DataTable.add_rows history DataTable.empty_table)).
Proof.
  induction history as [|row history IH] using rev_ind.
  - constructor.
  - rewrite add_rows_snoc.
    unfold DataTable.add_row, DataTable.push_back; simpl.
    apply NoDup_app. split; [done |]. split.
    + intros a Ha Hin. apply list_elem_of_singleton in Hin as ->.
      revert Ha. apply fresh_not_slot, allocated_add_rows, allocated_empty.
    + apply NoDup_singleton.
Qed.

(** X15: a Row Store holds the rows that were added, in the order in which
    they were added: iteration from [begin()] to [end()] yields them in
    that order, [operator[]] at position [i] gives the [i]-th row added,
    [count()] is their number and [empty()] tells whether there is none. *)
Theorem rows_in_insertion_order (history : list T) (i : nat) :
  let t := DataTable.add_rows history DataTable.empty_table in
  DataTable.rows t = history ∧
  DataTable.at_index i t = history !! i ∧
  DataTable.count t = length history ∧
  (DataTable.empty t = true ↔ history = []).
Proof.
  intros t.
  assert (Hall : allocated t) by apply allocated_add_rows, allocated_empty.
  assert (Hcount : DataTable.count t = length history).
  { unfold t. by rewrite count_add_rows. }
  repeat split_and.
  - apply rows_add_rows.
  - rewrite at_index_rows by done. unfold t. by rewrite rows_add_rows.
  - done.
  - unfold DataTable.empty. rewrite bool_decide_eq_true. split.
    + intros Hnil. unfold DataTable.count in Hcount. rewrite Hnil in Hcount.
      by destruct history.
    + intros Hnil. unfold t. by rewrite Hnil.
Qed.

(** X16: the rows of a Row Store are at pairwise distinct addresses: two
    positions with the same address are the same position, so a pointer
    kept in an index designates one row. *)
Theorem row_addresses_distinct (history : list T) (i j : nat) (p : addr) :
  let t := DataTable.add_rows history DataTable.empty_table in
  DataTable.address i t = Some p → DataTable.address j t = Some p → i = j.
Proof.
  intros t Hi Hj. eapply NoDup_lookup; [apply (NoDup_add_rows history) | |];
    done.
Qed.

End DataTableRows.

Lemma row_addresses_distinct_witness :
  let t := DataTable.add_rows ["a"; "b"; "c"]%string DataTable.empty_table in
  DataTable.address 1 t = Some 2%positive ∧
  DataTable.address 2 t = Some 3%positive ∧
  1%nat = 1%nat.
Proof.
  intros t. split; [reflexivity |]. split; [reflexivity |].
  apply (row_addresses_distinct ["a"; "b"; "c"]%string 1 1 2%positive);
    reflexivity.
Defined.

(** ** Parsing a line of CSV *)

Lemma append_cons (c : ascii) (s t : string) :
  String c s +:+ t = String c (s +:+ t).
Proof. done. Qed.

Lemma append_nil_l (s : string) : EmptyString +:+ s = s.
Proof. done. Qed.

Lemma append_nil_r (s : string) : s +:+ EmptyString = s.
Proof.
  induction s as [|c s IH]; [done |]. by rewrite append_cons, IH.
Qed.

Lemma append_assoc (s1 s2 s3 : string) : (s1 +:+ s2) +:+ s3 = s1 +:+ (s2 +:+ s3).
Proof.
  induction s1 as [|c s1 IH]; [done |]. by rewrite !append_cons, IH.
Qed.

Lemma append_snoc_cons (s : string) (c : ascii) (rest : string) :
  (s +:+ String c EmptyString) +:+ rest = s +:+ String c rest.
Proof. by rewrite append_assoc. Qed.

Lemma concat_cons2 (sep x y : string) (fields : list string) :
  String.concat sep (x :: y :: fields)
  = x +:+ sep +:+ String.concat sep (y :: fields).
Proof. done. Qed.

Lemma concat_snoc_append (sep : string) (fields : list string) (x y : string) :
  String.concat sep (fields ++ [x +:+ y]) = String.concat sep (fields ++ [x]) +:+ y.
Proof.
  induction fields as [|f fields IH]; [done |].
  destruct fields as [|g fields].
  - cbn [app]. by rewrite !concat_cons2, !append_assoc.
  - cbn [app] in *. by rewrite !(concat_cons2 _ f), IH, !append_assoc.
Qed.

Lemma concat_snoc_empty (sep : string) (fields : list string) (x : string) :
  String.concat sep ((fields ++ [x]) ++ [EmptyString])
  = String.concat sep (fields ++ [x]) +:+ sep.
Proof.
  induction fields as [|f fields IH].
  - cbn [app]. rewrite concat_cons2. simpl String.concat.
    by rewrite append_nil_r.
  - destruct fields as [|g fields]; cbn [app] in *;
      by rewrite !(concat_cons2 _ f), IH, !append_assoc.
Qed.

Section ParseLine.
Variable delimiter : ascii.

Lemma parse_line_from_nonempty (n : nat) :
  ∀ line current in_quotes result,
    (String.length line ≤ n)%nat →
    CsvReader.parse_line_from delimiter line current in_quotes result ≠ [].
Proof.
  induction n as [|n IH]; intros line current in_quotes result Hlen.
  - destruct line; [| simpl in Hlen; lia]. simpl. by destruct result.
  - destruct line as [|c rest]; [simpl; by destruct result |].
    simpl in Hlen. simpl. destruct (decide (c = dquote)).
    + destruct rest as [|next rest']; [simpl; by destruct result |].
      destruct (in_quotes && bool_decide (next = dquote)).
      * apply IH. simpl in Hlen. lia.
      * apply IH. lia.
    + destruct (bool_decide (c = delimiter) && negb in_quotes); apply IH; lia.
Qed.

Lemma parse_line_from_unquoted (line : string) :
  free_of dquote line →
  ∀ current result,
    String.concat (String delimiter EmptyString)
      (CsvReader.parse_line_from delimiter line current false result)
    = String.concat (String delimiter EmptyString) (result ++ [current]) +:+ line ∧
    length (CsvReader.parse_line_from delimiter line current false result)
    = (length result + S (count_char delimiter line))%nat.
Proof.
  induction line as [|c rest IH]; intros Hfree current result.
  - simpl. rewrite append_nil_r, length_app. simpl. split; [done | lia].
  - destruct Hfree as [Hc Hfree]. simpl.
    rewrite decide_False by done. rewrite andb_true_r.
    destruct (decide (c = delimiter)) as [-> | Hne].
    + rewrite bool_decide_true by done.
      destruct (IH Hfree EmptyString (result ++ [current])) as [-> ->].
      rewrite concat_snoc_empty, append_assoc, length_app. simpl.
      split; [done | lia].
    + rewrite bool_decide_false by done.
      destruct (IH Hfree (current +:+ String c EmptyString) result) as [-> ->].
      rewrite concat_snoc_append, append_snoc_cons. split; [done | lia].
Qed.

(** X17: [parse_line] always returns at least one field.  On a line
    without double quotes it splits at the delimiters: there is one field
    more than there are delimiters in the line, and the fields joined by
    the delimiter are the line. *)
Theorem parse_line_unquoted (line : string) :
  CsvReader.parse_line delimiter line ≠ [] ∧
  (free_of dquote line →
   String.concat (String delimiter EmptyString)
                 (CsvReader.parse_line delimiter line) = line ∧
   length (CsvReader.parse_line delimiter line)
   = S (count_char delimiter line)).
Proof.
  split.
  - by apply (parse_line_from_nonempty (String.length line)).
  - intros Hfree. unfold CsvReader.parse_line.
    by destruct (parse_line_from_unquoted line Hfree EmptyString []) as [-> ->].
Qed.

Lemma parse_line_from_quoted (field : string) :
  ∀ rest current result,
    match rest with String c _ => c ≠ dquote | EmptyString => True end →
    CsvReader.parse_line_from delimiter
      (csv_escape field +:+ String dquote rest) current true result
    = CsvReader.parse_line_from delimiter rest (current +:+ field) false result.
Proof.
  induction field as [|c field IH]; intros rest current result Hrest.
  - cbn [csv_escape]. rewrite append_nil_l, append_nil_r.
    cbn [CsvReader.parse_line_from]. rewrite decide_True by done.
    destruct rest as [|next rest']; [done |].
    by rewrite bool_decide_false.
  - cbn [csv_escape]. destruct (decide (c = dquote)) as [-> | Hne].
    + rewrite !append_cons. cbn [CsvReader.parse_line_from].
      rewrite decide_True by done. rewrite bool_decide_true by done.
      cbn [andb]. rewrite IH by done. by rewrite append_snoc_cons.
    + rewrite append_cons. cbn [CsvReader.parse_line_from].
      rewrite decide_False by done. rewrite andb_false_r.
      rewrite IH by done. by rewrite append_snoc_cons.
Qed.

Lemma parse_line_from_open_quote (field rest : string) (result : list string) :
  match rest with String c _ => c ≠ dquote | EmptyString => True end →
  CsvReader.parse_line_from delimiter (csv_quoted field +:+ rest)
    EmptyString false result
  = CsvReader.parse_line_from delimiter rest field false result.
Proof.
  intros Hrest. unfold csv_quoted. rewrite append_cons, append_assoc, append_cons,
    append_nil_l.
  cbn [CsvReader.parse_line_from]. rewrite decide_True by done.
  destruct (csv_escape field +:+ String dquote rest) eqn:Hfield.
  { destruct (csv_escape field); discriminate. }
  rewrite <- Hfield. cbn [andb negb].
  rewrite parse_line_from_quoted by done. by rewrite append_nil_l.
Qed.

Lemma parse_line_from_quoted_fields (fields : list string) :
  delimiter ≠ dquote → fields ≠ [] →
  ∀ result,
    CsvReader.parse_line_from delimiter
      (String.concat (String delimiter EmptyString) (csv_quoted <$> fields))
      EmptyString false result
    = result ++ fields.
Proof.
  intros Hd Hne. induction fields as [|field fields IH]; [done |]. clear Hne.
  intros result. destruct fields as [|field' fields].
  - cbn [fmap list_fmap String.concat].
    rewrite <- (append_nil_r (csv_quoted field)).
    by rewrite parse_line_from_open_quote.
  - rewrite !fmap_cons, concat_cons2, append_cons, append_nil_l.
    rewrite <- fmap_cons.
    rewrite parse_line_from_open_quote by done.
    cbn [CsvReader.parse_line_from]. rewrite decide_False by done.
    rewrite bool_decide_true by done. cbn [andb negb].
    rewrite IH by done. by rewrite <- app_assoc.
Qed.

(** X18: [parse_line] undoes CSV quoting: on a line of one or more fields,
    each written between double quotes with its own double quotes doubled
    and separated by the delimiter, it returns the fields, whatever
    characters they hold (delimiters and double quotes included), provided
    the delimiter is not the double quote. *)
Theorem parse_line_quoted (fields : list string) :
  delimiter ≠ dquote → fields ≠ [] →
  CsvReader.parse_line delimiter
    (String.concat (String delimiter EmptyString) (csv_quoted <$> fields))
  = fields.
Proof.
  intros Hd Hne. by apply (parse_line_from_quoted_fields fields Hd Hne []).
Qed.

End ParseLine.

Lemma parse_line_unquoted_witness :
  String.concat "," (CsvReader.parse_line ","%char "id,name,,email")
  = "id,name,,email"%string
  ∧ length (CsvReader.parse_line ","%char "id,name,,email") = 4%nat.
Proof.
  apply (parse_line_unquoted ","%char "id,name,,email").
  repeat split; discriminate.
Defined.

Lemma parse_line_quoted_witness :
  CsvReader.parse_line ","%char
    (String.concat "," (csv_quoted <$> ["a,b"; String dquote "hi"; ""]%string))
  = ["a,b"; String dquote "hi"; ""]%string.
Proof.
  apply (parse_line_quoted ","%char ["a,b"; String dquote "hi"; ""]%string);
    discriminate.
Defined.

(** ** Reading a CSV text line by line *)

Lemma break_line_newline (line rest : string) :
  free_of newline line →
  break_line (line +:+ String newline rest) = (line, rest, true).
Proof.
  induction line as [|c line IH]; intros Hfree.
  - rewrite append_nil_l. cbn [break_line].
    by destruct (decide (newline = newline)).
  - destruct Hfree as [Hc Hfree]. rewrite append_cons. cbn [break_line].
    rewrite decide_False by done. by rewrite IH.
Qed.

Lemma break_line_end (line : string) :
  free_of newline line → break_line line = (line, EmptyString, false).
Proof.
  induction line as [|c line IH]; intros Hfree; [done |].
  destruct Hfree as [Hc Hfree]. cbn [break_line].
  rewrite decide_False by done. by rewrite IH.
Qed.

Lemma text_of_lines_cons (line : string) (lines : list string) (tail : string) :
  text_of_lines (line :: lines) +:+ tail
  = line +:+ String newline (text_of_lines lines +:+ tail).
Proof. unfold text_of_lines. simpl. by rewrite append_assoc, append_cons. Qed.

Lemma getline_line (line : string) (lines : list string) (tail str : string) :
  free_of newline line →
  getline (TextStream (text_of_lines (line :: lines) +:+ tail) true) str
  = (true, line, TextStream (text_of_lines lines +:+ tail) true).
Proof.
  intros Hfree. rewrite text_of_lines_cons. unfold getline; simpl.
  rewrite break_line_newline by done.
  destruct (line +:+ _) eqn:Hline; [| done].
  destruct line; discriminate.
Qed.

Lemma getline_tail (tail str : string) :
  free_of newline tail → tail ≠ EmptyString →
  getline (TextStream tail true) str = (true, tail, TextStream EmptyString false).
Proof.
  intros Hfree Hne. unfold getline; simpl.
  rewrite break_line_end by done. by destruct tail.
Qed.

Section CsvIteration.
Import CsvReader.

Lemma nexts_next (n : nat) (r : t) : nexts (S n) r = (next (nexts n r)).2.
Proof. revert r. induction n as [|n IH]; intros r; [done |]. apply IH. Qed.

Lemma next_delimiter (r : t) : delimiter_ (next r).2 = delimiter_ r.
Proof. unfold next. by destruct (getline _ _) as [[[] ?] ?]. Qed.

Lemma next_headers (r : t) :
  headers_ (next r).2 = headers_ r ∧ header_index_ (next r).2 = header_index_ r.
Proof. unfold next. by destruct (getline _ _) as [[[] ?] ?]. Qed.

Lemma next_finished (r : t) :
  good (stream_ r) = false →
  (next r).1 = false ∧ good (stream_ (next r).2) = false ∧
  current_values_ (next r).2 = current_values_ r.
Proof. intros Hgood. unfold next, getline. by rewrite Hgood. Qed.

Lemma nexts_finished (n : nat) (r : t) :
  good (stream_ r) = false →
  good (stream_ (nexts n r)) = false ∧
  current_values_ (nexts n r) = current_values_ r.
Proof.
  revert r. induction n as [|n IH]; intros r Hgood; [done |].
  destruct (next_finished r Hgood) as (_ & Hgood' & Hvalues).
  destruct (IH (next r).2 Hgood') as [Hg Hv]. simpl.
  split; [done | congruence].
Qed.

Lemma csv_rows (rows : list string) (tail : string) :
  Forall (free_of newline) rows → free_of newline tail →
  ∀ r, stream_ r = TextStream (text_of_lines rows +:+ tail) true →
  let all_rows := rows ++ (if decide (tail = EmptyString) then [] else [tail]) in
  (∀ k row, all_rows !! k = Some row →
     (next (nexts k r)).1 = true ∧
     current_values_ (nexts (S k) r) = parse_line (delimiter_ r) row) ∧
  (good (stream_ (nexts (S (length all_rows)) r)) = false) ∧
  ((next (nexts (length all_rows) r)).1 = false) ∧
  (current_values_ (nexts (S (length all_rows)) r)
   = current_values_ (nexts (length all_rows) r)).
Proof.
  intros Hrows Htail. induction Hrows as [|line rows Hline Hrows IH];
    intros r Hstream.
  - unfold text_of_lines in Hstream. simpl in Hstream.
    rewrite append_nil_l in Hstream. cbn [app].
    destruct (decide (tail = EmptyString)) as [-> | Hne].
    + split; [by intros k row |]. simpl.
      unfold next. rewrite Hstream. by simpl.
    + assert (Hnext : next r
                = (true, Build (TextStream EmptyString false) (delimiter_ r)
                           tail (headers_ r) (parse_line (delimiter_ r) tail)
                           (header_index_ r))).
      { unfold next. rewrite Hstream. by rewrite getline_tail. }
      split.
      * intros [|k] row; [| done]. intros [= <-]. simpl. by rewrite Hnext.
      * simpl. rewrite Hnext. simpl. done.
  - assert (Hnext : next r
              = (true, Build (TextStream (text_of_lines rows +:+ tail) true)
                         (delimiter_ r) line (headers_ r)
                         (parse_line (delimiter_ r) line) (header_index_ r))).
    { unfold next. rewrite Hstream. by rewrite getline_line. }
    specialize (IH (next r).2). rewrite Hnext in IH. simpl in IH.
    destruct (IH eq_refl) as (Hsome & Hgood & Hlast & Hkeep).
    split; [| split; [| split]].
    + intros [|k] row.
      * intros [= <-]. simpl. by rewrite Hnext.
      * intros Hk. cbn [nexts]. rewrite Hnext. cbn [snd].
        by apply Hsome.
    + simpl length. cbn [nexts]. rewrite Hnext. exact Hgood.
    + simpl length. cbn [nexts]. rewrite Hnext. exact Hlast.
    + simpl length. cbn [nexts]. rewrite Hnext. exact Hkeep.
Qed.

End CsvIteration.

Section CsvReaderProperties.
Import CsvReader.

Lemma nexts_add (a b : nat) (r : t) : nexts (a + b) r = nexts b (nexts a r).
Proof. revert r. induction a as [|a IH]; intros r; [done |]. apply IH. Qed.

Lemma new_line (delimiter : ascii) (header : string) (rows : list string)
    (tail : string) :
  free_of newline header →
  new (TextStream (text_of_lines (header :: rows) +:+ tail) true) delimiter
  = Build (TextStream (text_of_lines rows +:+ tail) true) delimiter header
          (parse_line delimiter header) []
          (index_headers (parse_line delimiter header) 0 ∅).
Proof. intros Hfree. unfold new. by rewrite getline_line. Qed.

(** X19: over a text whose lines are a header line and then rows, each
    ended by a newline except possibly a last non-empty one, the
    constructor parses the header line into the headers, the [k]-th call
    of [next] returns [true] and makes the fields of the [k]-th row the
    current values, and once the rows are used up every call of [next]
    returns [false] and leaves the current values as they are. *)
Theorem csv_reader_iterates (delimiter : ascii) (header : string)
    (rows : list string) (tail : string) :
  free_of newline header → Forall (free_of newline) rows →
  free_of newline tail →
  let all_rows := rows ++ (if decide (tail = EmptyString) then [] else [tail]) in
  let r0 := new (TextStream (text_of_lines (header :: rows) +:+ tail) true)
                delimiter in
  headers r0 = parse_line delimiter header ∧
  (∀ k row, all_rows !! k = Some row →
     (next (nexts k r0)).1 = true ∧
     current_values_ (nexts (S k) r0) = parse_line delimiter row) ∧
  (∀ k, (length all_rows ≤ k)%nat →
     (next (nexts k r0)).1 = false ∧
     current_values_ (nexts (S k) r0)
     = current_values_ (nexts (length all_rows) r0)).
Proof.
  intros Hheader Hrows Htail all_rows r0.
  assert (Hr0 : r0 = Build (TextStream (text_of_lines rows +:+ tail) true)
                       delimiter header (parse_line delimiter header) []
                       (index_headers (parse_line delimiter header) 0 ∅))
    by by apply new_line.
  destruct (csv_rows rows tail Hrows Htail r0) as (Hsome & Hgood & Hlast & Hkeep).
  { by rewrite Hr0. }
  fold all_rows in Hsome, Hgood, Hlast, Hkeep.
  replace (delimiter_ r0) with delimiter in Hsome by by rewrite Hr0.
  split; [by rewrite Hr0 |]. split; [exact Hsome |].
  intros k Hk.
  destruct (decide (k = length all_rows)) as [-> | Hne]; [done |].
  replace k with (S (length all_rows) + (k - S (length all_rows)))%nat by lia.
  rewrite nexts_next, nexts_add.
  destruct (nexts_finished (k - S (length all_rows))
              (nexts (S (length all_rows)) r0) Hgood) as [Hg Hv].
  destruct (next_finished _ Hg) as (Hfalse & _ & Hv').
  split; [exact Hfalse |]. congruence.
Qed.

Lemma csv_reader_iterates_witness :
  let r0 := new (TextStream (text_of_lines ["id,name"; "1,bob"] +:+ "2,al") true)
                ","%char in
  headers r0 = ["id"; "name"]%string ∧
  current_values_ (nexts 2 r0) = ["2"; "al"]%string ∧
  (next (nexts 2 r0)).1 = false.
Proof.
  intros r0.
  destruct (csv_reader_iterates ","%char "id,name" ["1,bob"]%string "2,al")
    as (Hheaders & Hrows & Hend).
  - repeat split; discriminate.
  - repeat constructor; discriminate.
  - repeat split; discriminate.
  - split; [exact Hheaders |]. split.
    + apply (Hrows 1%nat "2,al"%string). reflexivity.
    + apply (Hend 2%nat). simpl. lia.
Defined.

Lemma index_headers_lookup (column : string) (hs : list string) :
  ∀ (i : nat) (m : gmap string nat),
    (column ∉ hs → index_headers hs i m !! column = m !! column) ∧
    (∀ j, hs !! j = Some column →
          (∀ j', (j < j')%nat → hs !! j' ≠ Some column) →
          index_headers hs i m !! column = Some (i + j)%nat).
Proof.
  induction hs as [|h hs IH]; intros i m.
  - split; [done | by intros j].
  - destruct (IH (S i) (<[h := i]> m)) as [IHabsent IHlast]. split.
    + intros Hnotin. apply not_elem_of_cons in Hnotin as [Hne Hnotin].
      simpl. rewrite IHabsent by done. by rewrite lookup_insert_ne.
    + intros [|j] Hj Hlast; simpl in *.
      * injection Hj as ->. rewrite IHabsent.
        -- rewrite lookup_insert_eq. f_equal. lia.
        -- intros Hin. apply list_elem_of_lookup in Hin as [j' Hj'].
           by apply (Hlast (S j') ltac:(lia)).
      * rewrite (IHlast j Hj).
        -- f_equal. lia.
        -- intros j' Hlt. apply (Hlast (S j')). lia.
Qed.

Lemma nexts_headers (n : nat) (r : t) :
  headers_ (nexts n r) = headers_ r ∧
  header_index_ (nexts n r) = header_index_ r.
Proof.
  revert r. induction n as [|n IH]; intros r; [done |].
  destruct (next_headers r) as [Hh Hi]. destruct (IH (next r).2) as [Hh' Hi'].
  simpl. split; congruence.
Qed.

Lemma new_header_index (stream : text_stream) (delimiter : ascii) :
  header_index_ (new stream delimiter)
  = index_headers (headers_ (new stream delimiter)) 0 ∅.
Proof. unfold new. by destruct (getline _ _) as [[[] ?] ?]. Qed.

(** X20: at any point of the reading, [get] by column name returns the
    empty string for a name that is not a header, and otherwise the current
    value at the position of the last header of that name (a later header
    of the same name hides the earlier ones); [get] by index returns the
    current value at that index, and the empty string when the current row
    has no such field.  Neither ever fails. *)
Theorem csv_reader_get (stream : text_stream) (delimiter : ascii) (n : nat)
    (column : string) :
  let r := nexts n (new stream delimiter) in
  headers r = headers (new stream delimiter) ∧
  (column ∉ headers r → get column r = EmptyString) ∧
  (∀ i, headers r !! i = Some column →
        (∀ j, (i < j)%nat → headers r !! j ≠ Some column) →
        get column r = get_at i r) ∧
  (∀ i, get_at i r = default EmptyString (current_values_ r !! i)) ∧
  (∀ i, (length (current_values_ r) ≤ i)%nat → get_at i r = EmptyString).
Proof.
  intros r.
  destruct (nexts_headers n (new stream delimiter)) as [Hh Hi].
  fold r in Hh, Hi. rewrite new_header_index, <- Hh in Hi.
  destruct (index_headers_lookup column (headers_ r) 0 ∅) as [Habsent Hlast].
  unfold headers. split; [exact Hh |]. split; [| split; [| split]].
  - intros Hnotin. unfold get. by rewrite Hi, Habsent.
  - intros i Hi' Hlater. unfold get, get_at.
    by rewrite Hi, (Hlast i Hi' Hlater).
  - intros i. unfold get_at. case_decide as Hlen; [| done].
    by rewrite lookup_ge_None_2.
  - intros i Hlen. unfold get_at. by rewrite decide_True.
Qed.

End CsvReaderProperties.

Lemma csv_reader_get_witness :
  let r := CsvReader.nexts 1
             (CsvReader.new (TextStream (text_of_lines ["id,name,id"; "1,bob,7"])
                                        true) ","%char) in
  CsvReader.get "id" r = "7"%string ∧ CsvReader.get "email" r = EmptyString.
Proof.
  intros r.
  pose proof (csv_reader_get
                (TextStream (text_of_lines ["id,name,id"; "1,bob,7"]) true)
                ","%char 1 "id") as (_ & _ & Hlast & _).
  pose proof (csv_reader_get
                (TextStream (text_of_lines ["id,name,id"; "1,bob,7"]) true)
                ","%char 1 "email") as (_ & Habsent & _).
  unfold r. split.
  - rewrite (Hlast 2%nat); [reflexivity | reflexivity |].
    intros [|[|[|j]]] Hlt; (lia || discriminate).
  - apply Habsent.
    match goal with
    | |- _ ∉ ?l => let l' := eval vm_compute in l in change l with l'
    end.
    rewrite !not_elem_of_cons. repeat split; try discriminate.
    apply not_elem_of_nil.
Defined.

(** ** JSON strings *)

Section JsonStrings.
Variable double : Type.
Variable zero : double.

Lemma unescape_special (c : ascii) :
  c = dquote ∨ c = backslash → Json.unescape c = c.
Proof. by intros [-> | ->]. Qed.

Lemma parse_string_loop_escape (s tail result : string) :
  Json.parse_string_loop (json_escape s +:+ tail) result
  = Json.parse_string_loop tail (result +:+ s).
Proof.
  revert result. induction s as [|c s IH]; intros result.
  - by rewrite append_nil_l, append_nil_r.
  - cbn [json_escape].
    destruct (bool_decide (c = dquote) || bool_decide (c = backslash)) eqn:Hc.
    + rewrite !append_cons. cbn [Json.parse_string_loop].
      destruct (decide (backslash = dquote)) as [|_]; [done |].
      destruct (decide (backslash = backslash)) as [_|]; [| done].
      rewrite IH, unescape_special, append_snoc_cons; [done |].
      apply orb_true_iff in Hc as [Hc | Hc]; apply bool_decide_eq_true in Hc;
        auto.
    + apply orb_false_iff in Hc as [Hq Hb].
      apply bool_decide_eq_false in Hq, Hb.
      rewrite append_cons. cbn [Json.parse_string_loop].
      rewrite !decide_False by done. by rewrite IH, append_snoc_cons.
Qed.

(** X21: [parse_string] steps over the opening character without looking
    at it and undoes escaping: on a string whose double quotes and
    backslashes are each preceded by a backslash, followed by a double
    quote, it returns the string and stops behind that quote.  Behind a
    backslash, [n], [r] and [t] stand for newline, carriage return and
    tab, and every other character for itself (so [b], [f], [/] and [u]
    are not decoded).  A text that ends before the closing quote is taken
    to its end, a backslash that is its last character included. *)
Theorem parse_string_unescapes (first : ascii) (s rest : string) :
  Json.parse_string double zero (String first (json_escape s +:+ String dquote rest))
    = (Json.of_string double zero s, rest) ∧
  (∀ e, Json.parse_string double zero
          (String first
             (json_escape s +:+ String backslash (String e (String dquote rest))))
        = (Json.of_string double zero
             (s +:+ String (Json.unescape e) EmptyString), rest)) ∧
  Json.unescape "n" = "010"%char ∧ Json.unescape "r" = "013"%char ∧
  Json.unescape "t" = "009"%char ∧
  (∀ e, e ∉ [dquote; backslash; "n"; "r"; "t"]%char → Json.unescape e = e) ∧
  Json.parse_string double zero (String first (json_escape s))
    = (Json.of_string double zero s, EmptyString) ∧
  Json.parse_string double zero
    (String first (json_escape s +:+ String backslash EmptyString))
    = (Json.of_string double zero (s +:+ String backslash EmptyString),
       EmptyString).
Proof.
  unfold Json.parse_string. cbn [drop_chars].
  assert (Hq : ∀ result tail,
            Json.parse_string_loop (String dquote tail) result = (result, tail)).
  { intros result tail. cbn [Json.parse_string_loop].
    by destruct (decide (dquote = dquote)). }
  assert (Hb : ∀ result e tail,
            Json.parse_string_loop (String backslash (String e tail)) result
            = Json.parse_string_loop tail
                (result +:+ String (Json.unescape e) EmptyString)).
  { intros result e tail. cbn [Json.parse_string_loop].
    destruct (decide (backslash = dquote)) as [|_]; [done |].
    by destruct (decide (backslash = backslash)). }
  assert (Hend : ∀ result,
            Json.parse_string_loop (String backslash EmptyString) result
            = (result +:+ String backslash EmptyString, EmptyString)).
  { intros result. cbn [Json.parse_string_loop].
    destruct (decide (backslash = dquote)) as [|_]; [done |].
    by destruct (decide (backslash = backslash)). }
  repeat split_and; try done.
  - by rewrite parse_string_loop_escape, Hq, append_nil_l.
  - intros e. by rewrite parse_string_loop_escape, Hb, Hq, append_nil_l.
  - intros e He. rewrite !not_elem_of_cons in He.
    destruct He as (? & ? & ? & ? & ? & _).
    unfold Json.unescape. by rewrite !decide_False.
  - rewrite <- (append_nil_r (json_escape s)).
    by rewrite parse_string_loop_escape, append_nil_l.
  - by rewrite parse_string_loop_escape, Hend, append_nil_l.
Qed.

End JsonStrings.

(** ** The JSON parser *)

Lemma skip_whitespace_spaces (ws json : string) :
  all_space ws → Json.skip_whitespace (ws +:+ json) = Json.skip_whitespace json.
Proof.
  induction ws as [|c ws IH]; intros Hws; [done |].
  destruct Hws as [Hc Hws]. rewrite append_cons. cbn [Json.skip_whitespace].
  rewrite Hc. by apply IH.
Qed.

Lemma skip_whitespace_nonspace (c : ascii) (rest : string) :
  isspace c = false → Json.skip_whitespace (String c rest) = String c rest.
Proof. intros Hc. cbn [Json.skip_whitespace]. by rewrite Hc. Qed.

Section JsonParser.
Variable double : Type.
Variable zero : double.
Variable stod : string → option double.

#[local] Abbreviation parse_value := (Json.parse_value double zero stod).
#[local] Abbreviation parse_array := (Json.parse_array double zero stod).
#[local] Abbreviation parse_array_loop := (Json.parse_array_loop double zero stod).
#[local] Abbreviation parse := (Json.parse double zero stod).
#[local] Abbreviation null := (Json.null double zero).
#[local] Abbreviation of_string := (Json.of_string double zero).
#[local] Abbreviation of_array := (Json.of_array double zero).

Lemma starts_no_value_inv (json : string) :
  starts_no_value json = true →
  ∃ c rest, json = String c rest ∧ isspace c = false ∧ isdigit c = false ∧
    (c ∉ [dquote; "{"; "["; "-"; ","; "]"]%char) ∧
    (c = "t"%char ∨ c = "f"%char →
     String.prefix "true" json = false ∧ String.prefix "false" json = false) ∧
    (c = "n"%char → String.prefix "null" json = false).
Proof.
  destruct json as [|c rest]; [done |]. unfold starts_no_value.
  rewrite !andb_true_iff, !negb_true_iff, bool_decide_eq_false.
  intros (((((Hspace & Hdigit) & Hnotin) & Hbool) & Hnull) & _).
  exists c, rest. repeat split_and; try done.
  - intros Htf.
    destruct (bool_decide (c = "t"%char) || bool_decide (c = "f"%char)) eqn:E.
    + by rewrite andb_true_iff, !negb_true_iff in Hbool.
    + apply orb_false_iff in E as [Et Ef].
      apply bool_decide_eq_false in Et, Ef. by destruct Htf.
  - intros ->. by rewrite bool_decide_true, negb_true_iff in Hnull.
Qed.

Lemma parse_value_stalls (json : string) (fuel : nat) :
  starts_no_value json = true →
  parse_value (S fuel) json = Parsed (null, json).
Proof.
  intros Hstart.
  destruct (starts_no_value_inv json Hstart)
    as (c & rest & -> & Hspace & Hdigit & Hnotin & Hbool & Hnull).
  rewrite !not_elem_of_cons in Hnotin.
  destruct Hnotin as (Hq & Hbrace & Hbracket & Hminus & _).
  cbn [Json.parse_value]. rewrite skip_whitespace_nonspace by done.
  rewrite !decide_False by done.
  destruct (bool_decide (c = "t"%char) || bool_decide (c = "f"%char)) eqn:Etf.
  { apply orb_true_iff in Etf.
    rewrite !bool_decide_eq_true in Etf. destruct (Hbool Etf) as [Ht Hf].
    unfold Json.parse_bool. by rewrite Ht, Hf. }
  destruct (decide (c = "n"%char)) as [En | _].
  { unfold Json.parse_null. by rewrite (Hnull En). }
  by rewrite bool_decide_false, Hdigit.
Qed.

Lemma parse_array_loop_S (fuel : nat) (json : string)
    (arr : list (Json.JsonValue double)) :
  parse_array_loop (S fuel) json arr
  = match json with
    | EmptyString => Parsed (of_array arr, EmptyString)
    | _ =>
        match parse_value fuel json with
        | Parsed (v, json) =>
            match Json.skip_whitespace json with
            | String c rest as json =>
                if decide (c = ","%char)
                then parse_array_loop fuel rest (arr ++ [v])
                else if decide (c = "]"%char)
                then Parsed (of_array (arr ++ [v]), rest)
                else parse_array_loop fuel json (arr ++ [v])
            | EmptyString => parse_array_loop fuel EmptyString (arr ++ [v])
            end
        | StodThrows => StodThrows
        | OutOfFuel => OutOfFuel
        end
    end.
Proof. done. Qed.

Lemma parse_array_S (fuel : nat) (json : string) :
  parse_array (S fuel) json
  = match Json.skip_whitespace (drop_chars 1 json) with
    | String c rest as json =>
        if decide (c = "]"%char) then Parsed (of_array [], rest)
        else parse_array_loop fuel json []
    | EmptyString => parse_array_loop fuel EmptyString []
    end.
Proof. done. Qed.

Lemma parse_value_bracket (fuel : nat) (rest : string) :
  parse_value (S fuel) (String "[" rest) = parse_array fuel (String "[" rest).
Proof. done. Qed.

Lemma parse_array_loop_stalls (json : string) :
  starts_no_value json = true →
  ∀ fuel arr, parse_array_loop fuel json arr = OutOfFuel.
Proof.
  intros Hstart.
  destruct (starts_no_value_inv json Hstart)
    as (c & rest & -> & Hspace & _ & Hnotin & _).
  rewrite !not_elem_of_cons in Hnotin.
  destruct Hnotin as (_ & _ & _ & _ & Hcomma & Hclose & _).
  induction fuel as [|fuel IH]; intros arr; [done |].
  rewrite parse_array_loop_S.
  destruct fuel as [|fuel]; [done |].
  rewrite parse_value_stalls by done.
  rewrite skip_whitespace_nonspace by done.
  rewrite !decide_False by done. apply IH.
Qed.

(** X22: at a character that starts no value and is neither a comma nor
    a closing bracket (a letter as in [[x]], or a misspelt [true], [false]
    or [null]), an iteration of the loop of [parse_array] appends a null
    value and stays at the same position.  So on a text that starts with
    an opening bracket, white space and then such a character, [parse]
    returns no value, whatever number of steps it is given: the array
    grows for as long as there is memory for it. *)
Theorem parse_array_never_returns (ws json : string) (fuel : nat) :
  all_space ws → starts_no_value json = true →
  parse fuel (String "[" (ws +:+ json)) = OutOfFuel ∧
  ∀ arr, parse_array_loop (S (S fuel)) json arr
         = parse_array_loop (S fuel) json (arr ++ [null]).
Proof.
  intros Hws Hstart.
  destruct (starts_no_value_inv json Hstart)
    as (c & rest & -> & Hspace & _ & Hnotin & _).
  rewrite !not_elem_of_cons in Hnotin.
  destruct Hnotin as (_ & _ & _ & _ & Hcomma & Hclose & _).
  split.
  - unfold Json.parse.
    destruct fuel as [|fuel]; [done |]. rewrite parse_value_bracket.
    destruct fuel as [|fuel]; [done |]. rewrite parse_array_S. cbn [drop_chars].
    rewrite skip_whitespace_spaces by done.
    rewrite skip_whitespace_nonspace by done.
    rewrite decide_False by done.
    by rewrite parse_array_loop_stalls.
  - intros arr. rewrite parse_array_loop_S.
    rewrite parse_value_stalls by done.
    rewrite skip_whitespace_nonspace by done.
    by rewrite !decide_False by done.
Qed.

End JsonParser.

Lemma parse_array_never_returns_witness :
  Json.parse Z 0 (λ _, None) 1000 "[ tru]" = OutOfFuel.
Proof.
  destruct (parse_array_never_returns Z 0 (λ _, None) " " "tru]" 1000)
    as [Hparse _].
  - by vm_compute.
  - reflexivity.
  - exact Hparse.
Defined.

(** ** JSON documents *)

Lemma json_doc_ind (P : json_doc → Prop) :
  P DNull → (∀ b, P (DBool b)) → (∀ text, P (DNumber text)) →
  (∀ s, P (DString s)) →
  (∀ items, Forall P items → P (DArray items)) →
  (∀ members, Forall (λ m, P m.2) members → P (DObject members)) →
  ∀ d, P d.
Proof.
  intros Hnull Hbool Hnumber Hstring Harray Hobject. fix IH 1.
  intros [| b | text | s | items | members]; [done.. | |].
  - apply Harray. induction items as [|d items IHitems]; constructor.
    + apply IH.
    + apply IHitems.
  - apply Hobject. induction members as [|[k d] members IHmembers]; constructor.
    + apply IH.
    + apply IHmembers.
Qed.

Lemma number_head (c : ascii) :
  bool_decide (c = "-"%char) || isdigit c = true →
  isspace c = false ∧
  c ∉ [dquote; "{"; "["; "t"; "f"; "n"; "]"; "}"]%char.
Proof.
  intros Hc. split.
  - apply orb_true_iff in Hc as [Hc | Hc].
    + by apply bool_decide_eq_true in Hc as ->.
    + unfold isdigit, isspace in *. cbv zeta in *.
      apply andb_true_iff in Hc as [H1 H2].
      apply Nat.leb_le in H1, H2.
      apply orb_false_iff. split.
      * apply Nat.eqb_neq. lia.
      * apply andb_false_iff. right. apply Nat.leb_gt. lia.
  - rewrite !not_elem_of_cons.
    repeat split; try apply not_elem_of_nil;
      intros ->; by vm_compute in Hc.
Qed.

Lemma number_span_all (s tail : string) :
  all_chars Json.is_number_char s = true → ends_number tail = true →
  Json.number_span (s +:+ tail) = (s, tail).
Proof.
  intros Hs Htail. induction s as [|c s IH].
  - rewrite append_nil_l. destruct tail as [|c tail]; [done |].
    cbn [Json.number_span]. cbn [ends_number] in Htail.
    apply andb_true_iff in Htail as [Htail _].
    apply negb_true_iff in Htail. by rewrite Htail.
  - cbn [all_chars] in Hs. apply andb_true_iff in Hs as [Hc Hs].
    rewrite append_cons. cbn [Json.number_span]. by rewrite Hc, IH.
Qed.

Lemma ends_number_spaces (ws tail : string) :
  all_space ws → ends_number tail = true → ends_number (ws +:+ tail) = true.
Proof.
  destruct ws as [|c ws]; [done |]. intros [Hc _] _.
  rewrite append_cons. cbn [ends_number].
  unfold isspace in Hc. cbv zeta in Hc.
  apply andb_true_iff. split; [apply negb_true_iff |]; cycle 1.
  { apply Nat.ltb_lt. apply orb_true_iff in Hc as [Hc | Hc].
    - apply Nat.eqb_eq in Hc. lia.
    - apply andb_true_iff in Hc as [_ Hc]. apply Nat.leb_le in Hc. lia. }
  unfold Json.is_number_char.
  destruct (Json.is_number_char c) eqn:E; [| done].
  unfold Json.is_number_char in E.
  repeat (apply orb_true_iff in E as [E | E]);
    try (apply bool_decide_eq_true in E as ->; by vm_compute in Hc).
  unfold isdigit in E. cbv zeta in E.
  apply andb_true_iff in E as [H1 H2]. apply Nat.leb_le in H1, H2.
  apply orb_true_iff in Hc as [Hc | Hc].
  - apply Nat.eqb_eq in Hc. lia.
  - apply andb_true_iff in Hc as [H3 H4]. apply Nat.leb_le in H3, H4. lia.
Qed.

Lemma may_follow_spaces (d : json_doc) (ws tail : string) :
  all_space ws → ends_number tail = true → may_follow d (ws +:+ tail) = true.
Proof.
  intros Hws Htail. destruct d; try done. by apply ends_number_spaces.
Qed.

Lemma json_quoted_append (s tail : string) :
  json_quoted s +:+ tail = String dquote (json_escape s +:+ String dquote tail).
Proof. unfold json_quoted. by rewrite append_cons, append_snoc_cons. Qed.

Lemma append_nonempty (s t : string) : t ≠ EmptyString → s +:+ t ≠ EmptyString.
Proof. by destruct s. Qed.

Section JsonDocuments.
Variable double : Type.
Variable zero : double.
Variable stod : string → option double.
Variable ws : string.
Hypothesis Hws : all_space ws.

#[local] Abbreviation parse_value := (Json.parse_value double zero stod).
#[local] Abbreviation parse_array := (Json.parse_array double zero stod).
#[local] Abbreviation parse_array_loop := (Json.parse_array_loop double zero stod).
#[local] Abbreviation parse_object := (Json.parse_object double zero stod).
#[local] Abbreviation parse_object_loop := (Json.parse_object_loop double zero stod).
#[local] Abbreviation parse := (Json.parse double zero stod).
#[local] Abbreviation null := (Json.null double zero).
#[local] Abbreviation of_string := (Json.of_string double zero).
#[local] Abbreviation of_array := (Json.of_array double zero).
#[local] Abbreviation of_object := (Json.of_object double zero).
#[local] Abbreviation value := (json_value zero stod).
#[local] Abbreviation item_text := (λ d, json_text ws d +:+ ws).
#[local] Abbreviation member_text :=
  (λ m : string * json_doc,
     json_quoted m.1 +:+ ws +:+ String ":" (ws +:+ json_text ws m.2 +:+ ws)).
#[local] Abbreviation enter :=
  (λ (obj : gmap string (Json.JsonValue double)) (m : string * json_doc),
     <[m.1 := value m.2]> obj).

Lemma parse_string_quoted (s tail : string) :
  Json.parse_string double zero
    (String dquote (json_escape s +:+ String dquote tail))
  = (of_string s, tail).
Proof.
  unfold Json.parse_string. cbn [drop_chars].
  rewrite parse_string_loop_escape.
  cbn [Json.parse_string_loop].
  destruct (decide (dquote = dquote)) as [_|]; [| done].
  by rewrite append_nil_l.
Qed.

Lemma parse_value_S (fuel : nat) (json : string) :
  parse_value (S fuel) json
  = match Json.skip_whitespace json with
    | EmptyString => Parsed (null, EmptyString)
    | String c _ as json =>
        if decide (c = dquote) then Parsed (Json.parse_string double zero json)
        else if decide (c = "{"%char) then parse_object fuel json
        else if decide (c = "["%char) then parse_array fuel json
        else if bool_decide (c = "t"%char) || bool_decide (c = "f"%char)
        then Parsed (Json.parse_bool double zero json)
        else if decide (c = "n"%char) then Parsed (Json.parse_null double zero json)
        else if bool_decide (c = "-"%char) || isdigit c
        then Json.parse_number double stod json
        else Parsed (null, json)
    end.
Proof. done. Qed.

Lemma parse_value_spaces (ws' json : string) (fuel : nat) :
  all_space ws' → parse_value fuel (ws' +:+ json) = parse_value fuel json.
Proof.
  intros Hws'. destruct fuel as [|fuel]; [done |].
  by rewrite !parse_value_S, skip_whitespace_spaces.
Qed.

Lemma parse_value_brace (fuel : nat) (rest : string) :
  parse_value (S fuel) (String "{" rest) = parse_object fuel (String "{" rest).
Proof. done. Qed.

Lemma parse_object_S (fuel : nat) (json : string) :
  parse_object (S fuel) json
  = match Json.skip_whitespace (drop_chars 1 json) with
    | String c rest as json =>
        if decide (c = "}"%char) then Parsed (of_object ∅, rest)
        else parse_object_loop fuel json ∅
    | EmptyString => parse_object_loop fuel EmptyString ∅
    end.
Proof. done. Qed.

Lemma parse_object_loop_S (fuel : nat) (json : string)
    (obj : gmap string (Json.JsonValue double)) :
  parse_object_loop (S fuel) json obj
  = match json with
    | EmptyString => Parsed (of_object obj, EmptyString)
    | _ =>
        let '(key, json) :=
          Json.parse_string double zero (Json.skip_whitespace json) in
        let json :=
          match Json.skip_whitespace json with
          | String c rest as json => if decide (c = ":"%char) then rest else json
          | EmptyString => EmptyString
          end in
        match parse_value fuel json with
        | Parsed (v, json) =>
            let obj := <[Json.as_string double key := v]> obj in
            match Json.skip_whitespace json with
            | String c rest as json =>
                if decide (c = ","%char) then parse_object_loop fuel rest obj
                else if decide (c = "}"%char) then Parsed (of_object obj, rest)
                else parse_object_loop fuel json obj
            | EmptyString => parse_object_loop fuel EmptyString obj
            end
        | StodThrows => StodThrows
        | OutOfFuel => OutOfFuel
        end
    end.
Proof. done. Qed.

Lemma json_text_head (d : json_doc) :
  json_wf stod d = true →
  ∃ c rest, json_text ws d = String c rest ∧ isspace c = false ∧
            c ≠ "]"%char ∧ c ≠ "}"%char.
Proof.
  destruct d as [| [] | text | s | items | members]; intros Hwf;
    try (by eexists _, _).
  cbn [json_wf] in Hwf. apply andb_true_iff in Hwf as [Htext _].
  destruct text as [|c rest]; [done |]. cbn [number_text] in Htext.
  apply andb_true_iff in Htext as [Hc _].
  destruct (number_head c Hc) as [Hspace Hnotin].
  rewrite !not_elem_of_cons in Hnotin.
  exists c, rest. by repeat split_and; [| | tauto..].
Qed.

Lemma prefix_append (s tail : string) : String.prefix s (s +:+ tail) = true.
Proof.
  induction s as [|c s IH]; [by destruct tail |].
  rewrite append_cons. cbn [String.prefix].
  by destruct (ascii_dec c c).
Qed.

Lemma parse_literal (text tail : string) (fuel : nat) :
  text ∈ ["null"; "true"; "false"]%string →
  parse_value (S fuel) (text +:+ tail)
  = Parsed (if String.prefix "true" text then Json.of_bool double zero true
            else if String.prefix "false" text then Json.of_bool double zero false
            else null, tail).
Proof.
  rewrite !elem_of_cons, elem_of_nil.
  intros [-> | [-> | [-> | []]]].
  - change (parse_value (S fuel) ("null" +:+ tail))
      with (Parsed (Json.parse_null double zero ("null" +:+ tail))).
    unfold Json.parse_null. by rewrite prefix_append.
  - change (parse_value (S fuel) ("true" +:+ tail))
      with (Parsed (Json.parse_bool double zero ("true" +:+ tail))).
    unfold Json.parse_bool. by rewrite prefix_append.
  - change (parse_value (S fuel) ("false" +:+ tail))
      with (Parsed (Json.parse_bool double zero ("false" +:+ tail))).
    unfold Json.parse_bool. rewrite prefix_append.
    by change (String.prefix "true" ("false" +:+ tail)) with false.
Qed.

Lemma parse_leaf_null : value_parses zero stod ws DNull.
Proof.
  intros fuel ws' tail Hws' _ Hfuel. rewrite parse_value_spaces by done.
  destruct fuel as [|fuel]; [cbn in Hfuel; lia |].
  cbn [json_text]. rewrite parse_literal; [done |]. set_solver.
Qed.

Lemma parse_leaf_bool (b : bool) : value_parses zero stod ws (DBool b).
Proof.
  intros fuel ws' tail Hws' _ Hfuel. rewrite parse_value_spaces by done.
  destruct fuel as [|fuel]; [cbn in Hfuel; lia |].
  cbn [json_text]. destruct b; (rewrite parse_literal; [done |]); set_solver.
Qed.

Lemma parse_leaf_string (s : string) : value_parses zero stod ws (DString s).
Proof.
  intros fuel ws' tail Hws' _ Hfuel. rewrite parse_value_spaces by done.
  destruct fuel as [|fuel]; [cbn in Hfuel; lia |].
  cbn [json_text json_value]. rewrite json_quoted_append, parse_value_S.
  rewrite skip_whitespace_nonspace by done.
  destruct (decide (dquote = dquote)) as [_|]; [| done].
  cbv zeta.  by rewrite parse_string_quoted.
Qed.

Lemma parse_leaf_number (text : string) :
  json_wf stod (DNumber text) = true → value_parses zero stod ws (DNumber text).
Proof.
  intros Hwf fuel ws' tail Hws' Htail Hfuel. rewrite parse_value_spaces by done.
  destruct fuel as [|fuel]; [cbn in Hfuel; lia |].
  cbn [json_wf] in Hwf. apply andb_true_iff in Hwf as [Htext Hstod].
  apply bool_decide_eq_true in Hstod as [n Hn].
  destruct text as [|c rest]; [done |]. cbn [number_text] in Htext.
  apply andb_true_iff in Htext as [Hc Hall].
  destruct (number_head c Hc) as [Hspace Hnotin].
  rewrite !not_elem_of_cons in Hnotin.
  destruct Hnotin as (? & ? & ? & ? & ? & ? & _).
  cbn [json_text json_value]. rewrite Hn, append_cons, parse_value_S.
  rewrite skip_whitespace_nonspace by done.
  rewrite !decide_False by done.
  rewrite !(bool_decide_eq_false_2 (c = "t"%char)) by done.
  rewrite !(bool_decide_eq_false_2 (c = "f"%char)) by done.
  cbn [orb]. rewrite Hc. unfold Json.parse_number.
  destruct (decide (c = "-"%char)) as [-> | Hminus].
  - cbn [all_chars] in Hall. apply andb_true_iff in Hall as [_ Hall].
    rewrite number_span_all by done. rewrite append_cons, append_nil_l.
    by rewrite Hn.
  - rewrite <- append_cons, number_span_all by done.
    by rewrite append_nil_l, Hn.
Qed.

Lemma items_text_head (x : json_doc) (items : list json_doc) (tail : string) :
  json_wf stod x = true →
  ∃ c rest,
    String.concat (String "," ws) (map item_text (x :: items)) +:+ tail
    = String c rest ∧ isspace c = false ∧ c ≠ "]"%char.
Proof.
  intros Hwf. destruct (json_text_head x Hwf) as (c & rest & E & Hspace & Hc & _).
  destruct items as [|y items]; cbn [map]; [cbn [String.concat] |];
    rewrite ?concat_cons2, E, !append_cons; by eexists _, _.
Qed.

Lemma parse_array_loop_items (items : list json_doc) :
  Forall (λ d, json_wf stod d = true → value_parses zero stod ws d) items →
  forallb (json_wf stod) items = true → items ≠ [] →
  ∀ fuel ws' arr tail,
    all_space ws' →
    (list_sum (map (λ d, S (json_fuel d)) items) ≤ fuel)%nat →
    parse_array_loop fuel
      (ws' +:+ String.concat (String "," ws) (map item_text items)
       +:+ String "]" tail) arr
    = Parsed (of_array (arr ++ map value items), tail).
Proof.
  induction items as [|x items IH]; [done |].
  intros Hall Hwf _ fuel ws' arr tail Hws' Hfuel.
  apply Forall_cons in Hall as [Hx Hall].
  cbn [forallb] in Hwf. apply andb_true_iff in Hwf as [Hwfx Hwf].
  specialize (Hx Hwfx). cbn [map list_sum fold_right] in Hfuel.
  destruct fuel as [|fuel]; [lia |].
  rewrite (parse_array_loop_S double zero stod).
  match goal with
  | |- match ?json with _ => _ end = _ =>
      destruct json as [|c0 r0] eqn:E;
      [exfalso; revert E; by do 2 apply append_nonempty
      | rewrite <- E; clear E]
  end.
  destruct items as [|y items]; cbn [map list_sum fold_right] in Hfuel.
  - cbn [map String.concat]. rewrite !append_assoc.
    rewrite Hx; [| done | by apply may_follow_spaces | lia].
    rewrite skip_whitespace_spaces, skip_whitespace_nonspace by done.
    cbv zeta.
    destruct (decide ("]"%char = ","%char)) as [|_]; [done |].
    by destruct (decide ("]"%char = "]"%char)).
  - cbn [map]. rewrite concat_cons2, !append_assoc, !append_cons.
    rewrite Hx; [| done | by apply may_follow_spaces | lia].
    rewrite skip_whitespace_spaces, skip_whitespace_nonspace by done.
    cbv zeta.
    destruct (decide (","%char = ","%char)) as [_|]; [| done].
    specialize (IH Hall Hwf ltac:(done) fuel ws (arr ++ [value x]) tail Hws).
    cbn [map] in IH. rewrite IH; [by rewrite <- app_assoc |].
    cbn [map list_sum fold_right]. lia.
Qed.

Lemma parse_array_text (items : list json_doc) :
  Forall (λ d, json_wf stod d = true → value_parses zero stod ws d) items →
  json_wf stod (DArray items) = true → value_parses zero stod ws (DArray items).
Proof.
  intros Hall Hwf fuel ws' tail Hws' _ Hfuel.
  rewrite parse_value_spaces by done. cbn [json_wf] in Hwf.
  cbn [json_fuel] in Hfuel. cbn [json_text json_value].
  destruct fuel as [|[|fuel]]; [lia.. |].
  rewrite append_cons, (parse_value_bracket double zero stod).
  rewrite (parse_array_S double zero stod). cbn [drop_chars].
  rewrite !append_assoc, append_cons, append_nil_l.
  rewrite skip_whitespace_spaces by done.
  destruct items as [|x items].
  - cbn [map String.concat]. rewrite append_nil_l.
    rewrite skip_whitespace_nonspace by done. cbv zeta.
    by destruct (decide ("]"%char = "]"%char)).
  - assert (Hwfx : json_wf stod x = true).
    { cbn [forallb] in Hwf. by apply andb_true_iff in Hwf as [? _]. }
    destruct (items_text_head x items (String "]" tail) Hwfx)
      as (c & rest & E & Hspace & Hc).
    rewrite E, skip_whitespace_nonspace by done. cbv zeta.
    rewrite decide_False by done. rewrite <- E.
    rewrite <- (append_nil_l (String.concat _ _ +:+ _)).
    rewrite parse_array_loop_items; [done.. | lia].
Qed.

Lemma members_text_head (m : string * json_doc) (members : list (string * json_doc))
    (tail : string) :
  ∃ rest,
    String.concat (String "," ws) (map member_text (m :: members)) +:+ tail
    = String dquote rest.
Proof.
  destruct members as [|m' members]; cbn [map]; [cbn [String.concat] |];
    rewrite ?concat_cons2, !append_assoc, json_quoted_append; by eexists.
Qed.

Lemma parse_object_loop_members (members : list (string * json_doc)) :
  Forall (λ m, json_wf stod m.2 = true → value_parses zero stod ws m.2) members →
  forallb (λ m, json_wf stod m.2) members = true → members ≠ [] →
  ∀ fuel ws' obj tail,
    all_space ws' →
    (list_sum (map (λ m, S (json_fuel m.2)) members) ≤ fuel)%nat →
    parse_object_loop fuel
      (ws' +:+ String.concat (String "," ws) (map member_text members)
       +:+ String "}" tail) obj
    = Parsed (of_object (fold_left enter members obj), tail).
Proof.
  induction members as [|[k x] members IH]; [done |].
  intros Hall Hwf _ fuel ws' obj tail Hws' Hfuel.
  apply Forall_cons in Hall as [Hx Hall].
  cbn [forallb] in Hwf. apply andb_true_iff in Hwf as [Hwfx Hwf].
  cbn [snd] in Hx, Hwfx. specialize (Hx Hwfx). cbn [map list_sum fold_right snd] in Hfuel.
  destruct fuel as [|fuel]; [lia |].
  rewrite parse_object_loop_S.
  match goal with
  | |- match ?json with _ => _ end = _ =>
      destruct json as [|c0 r0] eqn:E;
      [exfalso; revert E; by do 2 apply append_nonempty
      | rewrite <- E; clear E]
  end.
  rewrite skip_whitespace_spaces by done.
  destruct members as [|m' members]; cbn [map list_sum fold_right] in Hfuel.
  - cbn [map String.concat fst snd].
    rewrite !append_assoc, !append_cons, !append_assoc, json_quoted_append.
    rewrite skip_whitespace_nonspace, parse_string_quoted by done.
    rewrite skip_whitespace_spaces, skip_whitespace_nonspace by done.
    cbv zeta. destruct (decide (":"%char = ":"%char)) as [_|]; [| done].
    rewrite Hx; [| done | by apply may_follow_spaces | lia].
    rewrite skip_whitespace_spaces, skip_whitespace_nonspace by done.
    destruct (decide ("}"%char = ","%char)) as [|_]; [done |].
    by destruct (decide ("}"%char = "}"%char)).
  - cbn [map fst snd]. rewrite concat_cons2.
    rewrite !append_assoc, !append_cons, !append_assoc, json_quoted_append.
    rewrite skip_whitespace_nonspace, parse_string_quoted by done.
    rewrite skip_whitespace_spaces, skip_whitespace_nonspace by done.
    cbv zeta. destruct (decide (":"%char = ":"%char)) as [_|]; [| done].
    rewrite ?append_cons.
    rewrite Hx; [| done | by apply may_follow_spaces | lia].
    rewrite skip_whitespace_spaces, skip_whitespace_nonspace by done.
    destruct (decide (","%char = ","%char)) as [_|]; [| done].
    specialize (IH Hall Hwf ltac:(done) fuel ws
                  (<[k := value x]> obj) tail Hws).
    change (Json.as_string double (of_string k)) with k.
    cbn [map] in IH. rewrite IH; [done |].
    cbn [map list_sum fold_right]. lia.
Qed.

Lemma parse_object_text (members : list (string * json_doc)) :
  Forall (λ m, json_wf stod m.2 = true → value_parses zero stod ws m.2) members →
  json_wf stod (DObject members) = true →
  value_parses zero stod ws (DObject members).
Proof.
  intros Hall Hwf fuel ws' tail Hws' _ Hfuel.
  rewrite parse_value_spaces by done. cbn [json_wf] in Hwf.
  cbn [json_fuel] in Hfuel. cbn [json_text json_value].
  destruct fuel as [|[|fuel]]; [lia.. |].
  rewrite append_cons, parse_value_brace, parse_object_S. cbn [drop_chars].
  rewrite !append_assoc, append_cons, append_nil_l.
  rewrite skip_whitespace_spaces by done.
  destruct members as [|m members].
  - cbn [map String.concat]. rewrite append_nil_l.
    rewrite skip_whitespace_nonspace by done. cbv zeta.
    by destruct (decide ("}"%char = "}"%char)).
  - destruct (members_text_head m members (String "}" tail)) as (rest & E).
    rewrite E, skip_whitespace_nonspace by done. cbv zeta.
    destruct (decide (dquote = "}"%char)) as [|_]; [done |]. rewrite <- E.
    rewrite <- (append_nil_l (String.concat _ _ +:+ _)).
    rewrite parse_object_loop_members; [done.. | lia].
Qed.

Lemma parse_value_text (d : json_doc) :
  json_wf stod d = true → value_parses zero stod ws d.
Proof.
  induction d as [| b | text | s | items IH | members IH] using json_doc_ind.
  - intros _. apply parse_leaf_null.
  - intros _. apply parse_leaf_bool.
  - apply parse_leaf_number.
  - intros _. apply parse_leaf_string.
  - by apply parse_array_text.
  - by apply parse_object_text.
Qed.

Lemma entered_lookup (members : list (string * json_doc))
    (obj : gmap string (Json.JsonValue double)) (key : string) :
  fold_left enter members obj !! key
  = match last (filter (λ m, m.1 = key) members) with
    | Some m => Some (value m.2)
    | None => obj !! key
    end.
Proof.
  revert obj. induction members as [|[k x] members IH]; intros obj; [done |].
  cbn [fold_left]. rewrite IH, filter_cons. cbn [fst snd].
  destruct (decide (k = key)) as [-> | Hne].
  - rewrite last_cons.
    destruct (last (filter _ members)); [done |]. by rewrite lookup_insert_eq.
  - destruct (last (filter _ members)); [done |]. by rewrite lookup_insert_ne.
Qed.

Lemma filter_member_nil (members : list (string * json_doc)) (key : string) :
  last (filter (λ m, m.1 = key) members) = None ↔ key ∉ members.*1.
Proof.
  rewrite last_None. induction members as [|[k x] members IH]; simpl.
  - split; [intros _; apply not_elem_of_nil | done].
  - rewrite filter_cons, not_elem_of_cons. simpl.
    destruct (decide (k = key)) as [-> | Hne].
    + split; [done | by intros [? _]].
    + rewrite IH. split; [intros ?; split; [congruence | done] | by intros [_ ?]].
Qed.

(** X23: [parse] reads JSON.  Take a document of null, booleans, numbers,
    strings, arrays and objects, nested in any way, written with its
    strings quoted and escaped and with the same white space (or none) at
    every place between its tokens; every number is a text of digits,
    signs, points and exponent marks that begins with a digit or a minus
    sign and that [std::stod] reads.  Given steps enough, [parse] returns
    the value of the document: for a number what [std::stod] makes of its
    text, for an array the values of its items in their order, for an
    object its members entered in their order.  Text that follows the
    document is no error and does not change the result, whatever it is
    behind a document that is not a number; behind a number, which
    [parse_number] takes as far as digits, signs, points and exponent
    marks go, the text that follows is empty or starts with a character
    of 0 to 127 that is none of these. *)
Theorem json_documents_parse (d : json_doc) (fuel : nat) (tail : string) :
  json_wf stod d = true → may_follow d tail = true → (json_fuel d ≤ fuel)%nat →
  parse fuel (ws +:+ json_text ws d +:+ tail) = Parsed (value d).
Proof.
  intros Hwf Htail Hfuel. unfold Json.parse.
  by rewrite (parse_value_text d Hwf fuel ws tail).
Qed.

(** X24: on the value that [parse] returns for the text of an object,
    [operator[]] with a key gives the value of the last member of the text
    that has this key, and a null value if no member has it; [has] tells
    whether some member has the key. *)
Theorem parsed_object_lookup (members : list (string * json_doc)) (key : string)
    (fuel : nat) (tail : string) :
  json_wf stod (DObject members) = true → ends_number tail = true →
  (json_fuel (DObject members) ≤ fuel)%nat →
  ∃ v, parse fuel (ws +:+ json_text ws (DObject members) +:+ tail) = Parsed v ∧
       Json.type double v = Json.Object ∧
       Json.at_key double zero key v
       = match last (filter (λ m, m.1 = key) members) with
         | Some m => value m.2
         | None => null
         end ∧
       Json.has double key v = bool_decide (key ∈ members.*1).
Proof.
  intros Hwf Htail Hfuel. exists (value (DObject members)).
  unfold Json.parse.
  rewrite (parse_value_text _ Hwf fuel ws tail) by done.
  clear Htail. split_and!; [done | done | |].
  - unfold Json.at_key. cbn [json_value Json.as_object Json.of_object].
    rewrite entered_lookup, lookup_empty.
    by destruct (last (filter _ members)).
  - unfold Json.has. cbn [json_value Json.as_object Json.of_object].
    apply bool_decide_ext. rewrite entered_lookup, lookup_empty.
    pose proof (filter_member_nil members key) as Hnil.
    destruct (last (filter _ members)) as [m|].
    + split; [intros _ | by eexists].
      destruct (decide (key ∈ members.*1)) as [| Hnotin]; [done |].
      by apply Hnil in Hnotin.
    + split; [by intros [? ?] |]. intros Hin. by destruct (proj1 Hnil).
Qed.

End JsonDocuments.

Lemma json_documents_parse_witness :
  let stod := λ text, if decide (text = "1"%string) then Some 1 else None in
  let d := DObject [("a"%string, DArray [DNumber "1"; DNull; DBool false]);
                    ("b"%string, DString "x"); ("a"%string, DObject [])] in
  Json.parse Z 0 stod (json_fuel d) (" " +:+ json_text " " d +:+ EmptyString)
  = Parsed (json_value 0 stod d).
Proof.
  intros stod d.
  apply (json_documents_parse Z 0 stod " "); [by vm_compute | done..].
Defined.

Lemma parsed_object_lookup_witness :
  let stod := λ text, if decide (text = "1"%string) then Some 1 else None in
  let members := [("a"%string, DNumber "1"); ("b"%string, DString "x");
                  ("a"%string, DBool true)] in
  ∃ v, Json.parse Z 0 stod 10
         (EmptyString +:+ json_text EmptyString (DObject members) +:+ "]")
       = Parsed v ∧
       Json.type Z v = Json.Object ∧
       Json.at_key Z 0 "a" v = Json.of_bool Z 0 true ∧
       Json.has Z "a" v = true.
Proof.
  intros stod members.
  apply (parsed_object_lookup Z 0 stod EmptyString I members "a" 10 "]");
    [reflexivity | reflexivity | vm_compute; lia].
Defined.
